(** * EKF SLAM with unknown correspondences

    A shallow embedding of [src/EKF_SLAM/EKF_SLAM_unknown_correspondences.py]
    (class [ExtendedKalmanFilterSLAM]) and the properties of its prediction,
    data-association and correction steps.

    Numbers: NumPy's float64 scalars are modelled by the real numbers of the
    Standard Library, so every statement below is a statement of exact
    arithmetic: no rounding, no [inf] and no [nan] (where the code divides by
    a zero [q] the model has the Standard Library's [x / 0], and no theorem
    below relies on its value).  Arrays are lists (a 2-D array is the list of
    its rows), read with a default of [0] and built by tabulation, with the
    shapes taken from the arguments as NumPy does; an assignment at an index
    out of range, which raises in Python, is written out where the code can
    reach it ([IndexError] on the flags) and is excluded by the sizes of
    [well_formed] elsewhere. *)

From Stdlib Require Import Reals Lra Lia List Bool Arith Sorted.
Import ListNotations.
Open Scope R_scope.

(** ** NumPy arrays *)

Module NumPy.

Abbreviation vec := (list R).
Abbreviation mat := (list (list R)).

(** [v[i]] and [M[i][j]] for indices in range. *)
Definition get1 (v : vec) (i : nat) : R := nth i v 0.
Definition get (M : mat) (i j : nat) : R := nth j (nth i M []) 0.

(** [v[i] = x] for an index in range. *)
Fixpoint set1 {A : Type} (v : list A) (i : nat) (x : A) : list A :=
  match v, i with
  | [], _ => []
  | _ :: t, O => x :: t
  | h :: t, S k => h :: set1 t k x
  end.

(** [M[i][j] = x] for indices in range. *)
Definition set2 (M : mat) (i j : nat) (x : R) : mat :=
  set1 M i (set1 (nth i M []) j x).

(** [M.shape]. *)
Definition rows (M : mat) : nat := length M.
Definition cols (M : mat) : nat := length (hd [] M).

(** The array whose entry [(i, j)] is [f i j]. *)
Definition mk (n m : nat) (f : nat -> nat -> R) : mat :=
  map (fun i => map (fun j => f i j) (seq 0 m)) (seq 0 n).

Definition mk1 (n : nat) (f : nat -> R) : vec := map f (seq 0 n).

(** [f 0 + ... + f (n-1)]. *)
Fixpoint sum_n (f : nat -> R) (n : nat) : R :=
  match n with
  | O => 0
  | S k => sum_n f k + f k
  end.

(** [np.zeros], [np.full], [np.identity]. *)
Definition zeros1 (n : nat) : vec := mk1 n (fun _ => 0).
Definition zeros (n m : nat) : mat := mk n m (fun _ _ => 0).
Definition full (n m : nat) (x : R) : mat := mk n m (fun _ _ => x).
Definition identity (n : nat) : mat :=
  mk n n (fun i j => if Nat.eqb i j then 1 else 0).

(** [A.dot(B)] for 2-D arrays of matching shapes, [A.T], [A + B], [A - B],
    [x * A]. *)
Definition dot (A B : mat) : mat :=
  mk (rows A) (cols B) (fun i j => sum_n (fun k => get A i k * get B k j) (cols A)).
Definition transpose (A : mat) : mat :=
  mk (cols A) (rows A) (fun i j => get A j i).
Definition madd (A B : mat) : mat :=
  mk (rows A) (cols A) (fun i j => get A i j + get B i j).
Definition msub (A B : mat) : mat :=
  mk (rows A) (cols A) (fun i j => get A i j - get B i j).
Definition scale (x : R) (A : mat) : mat :=
  mk (rows A) (cols A) (fun i j => x * get A i j).

(** [A.dot(v)], [v.dot(A)] and [u.dot(v)] for 1-D [u], [v]; [u + v]. *)
Definition dot_mv (A : mat) (v : vec) : vec :=
  mk1 (rows A) (fun i => sum_n (fun k => get A i k * get1 v k) (cols A)).
Definition dot_vm (v : vec) (A : mat) : vec :=
  mk1 (cols A) (fun j => sum_n (fun k => get1 v k * get A k j) (length v)).
Definition dot_vv (u v : vec) : R :=
  sum_n (fun k => get1 u k * get1 v k) (length u).
Definition vadd (u v : vec) : vec :=
  mk1 (length u) (fun i => get1 u i + get1 v i).

(** Determinant and [np.linalg.inv] of a 3x3 array, the only shape the
    filter inverts.  In exact arithmetic the inverse is the adjugate over the
    determinant, and [inv] raises [LinAlgError] (here [None]) exactly on a
    singular array.  In float64 the library raises when its LU factorization
    meets an exactly zero pivot, as for an array with a zero row, which is
    neither necessary nor sufficient for a zero determinant; what is proved
    below of an exception of the inverse is therefore also proved for any
    function in its place ([Section AnyInverse] of [EKF]). *)
Definition det3 (M : mat) : R :=
  get M 0 0 * (get M 1 1 * get M 2 2 - get M 1 2 * get M 2 1)
  - get M 0 1 * (get M 1 0 * get M 2 2 - get M 1 2 * get M 2 0)
  + get M 0 2 * (get M 1 0 * get M 2 1 - get M 1 1 * get M 2 0).

Definition adj3 (M : mat) : mat :=
  [ [ get M 1 1 * get M 2 2 - get M 1 2 * get M 2 1;
      get M 0 2 * get M 2 1 - get M 0 1 * get M 2 2;
      get M 0 1 * get M 1 2 - get M 0 2 * get M 1 1 ];
    [ get M 1 2 * get M 2 0 - get M 1 0 * get M 2 2;
      get M 0 0 * get M 2 2 - get M 0 2 * get M 2 0;
      get M 0 2 * get M 1 0 - get M 0 0 * get M 1 2 ];
    [ get M 1 0 * get M 2 1 - get M 1 1 * get M 2 0;
      get M 0 1 * get M 2 0 - get M 0 0 * get M 2 1;
      get M 0 0 * get M 1 1 - get M 0 1 * get M 1 0 ] ].

Definition inv (M : mat) : option mat :=
  if Req_dec_T (det3 M) 0 then None
  else Some (scale (/ det3 M) (adj3 M)).

(** [np.arctan2(y, x)], without signed zeros. *)
Definition arctan2 (y x : R) : R :=
  if Rlt_dec 0 x then atan (y / x)
  else if Rlt_dec x 0 then
    if Rle_dec 0 y then atan (y / x) + PI else atan (y / x) - PI
  else if Rlt_dec 0 y then PI / 2
  else if Rlt_dec y 0 then - (PI / 2)
  else 0.

(** [l[-1]] and [l[-2]]. *)
Definition last1 {A : Type} (l : list (list A)) : list A := last l [].
Definition last2 {A : Type} (l : list (list A)) : list A := last (removelast l) [].

(** A 2-D array of [n] rows of [m] entries each. *)
Definition shape (M : mat) (n m : nat) : Prop :=
  length M = n /\ Forall (fun r => length r = m) M.

Definition symmetric (M : mat) : Prop :=
  forall i j : nat, get M i j = get M j i.





End NumPy.

(** ** The filter *)

Module EKF.
Import NumPy.

(** A row [[c0, c1, c2, c3]] of [self.data]: an odometry row
    [[time, -1, v, w]] or a measurement row [[time, subject, range, bearing]].
    The same record holds [groundtruth_data[0] = [time, x, y, theta]]. *)
Record row : Type := Row { c0 : R; c1 : R; c2 : R; c3 : R }.

(** The attributes of [self] that the filter reads or writes.
    [landmark_indexes] is the dict of [load_data], as its list of items
    (barcode, slot); [len(self.landmark_indexes)] is the length of that list.
    [R_noise] and [Q_noise] are [self.R] and [self.Q]; [H_assoc], [Psi] and
    [difference] are [self.H], [self.Psi] and [self.difference], absent
    ([None]) until data association assigns them.  The attributes written for
    plotting only ([landmark_idx], [landmark_expected], [landmark_current])
    are left out; [self.G] and [self.K] are written and read inside one
    method and are local names here. *)
Record ekf : Type := Ekf {
  landmark_indexes : list (R * nat);
  landmark_observed : list bool;
  states : list vec;
  last_timestamp : R;
  stamps : list R;
  sigma : mat;
  R_noise : mat;
  Q_noise : mat;
  H_assoc : option mat;
  Psi : option mat;
  difference : option vec
}.

(** Exceptions that leave a method, with the attributes as they are at that
    point. *)
Inductive exn : Type := IndexError | LinAlgError | AttributeError.

Inductive result : Type :=
| Ok (st : ekf)
| Raise (e : exn) (st : ekf).

Definition bind (r : result) (k : ekf -> result) : result :=
  match r with
  | Ok st => k st
  | Raise e st => Raise e st
  end.

(** The attributes when the call is over, returned or raised. *)
Definition final (r : result) : ekf :=
  match r with
  | Ok st => st
  | Raise _ st => st
  end.

(** [key in d] and [d[key]] on a dict with float keys. *)
Fixpoint lookup (d : list (R * nat)) (key : R) : option nat :=
  match d with
  | [] => None
  | (k, v) :: rest => if Req_dec_T key k then Some v else lookup rest key
  end.

(** [3 + 2 * len(self.landmark_indexes)]. *)
Definition dim (st : ekf) : nat := 3 + 2 * length (landmark_indexes st).

(** Attribute assignments. *)
Definition set_motion (st : ekf) (ss : list vec) (t : R) (ts : list R) (s : mat) : ekf :=
  Ekf (landmark_indexes st) (landmark_observed st) ss t ts s
      (R_noise st) (Q_noise st) (H_assoc st) (Psi st) (difference st).

Definition set_landmark (st : ekf) (obs : list bool) (ss : list vec) : ekf :=
  Ekf (landmark_indexes st) obs ss (last_timestamp st) (stamps st) (sigma st)
      (R_noise st) (Q_noise st) (H_assoc st) (Psi st) (difference st).

Definition set_association (st : ekf) (H P : mat) (d : vec) : ekf :=
  Ekf (landmark_indexes st) (landmark_observed st) (states st)
      (last_timestamp st) (stamps st) (sigma st)
      (R_noise st) (Q_noise st) (Some H) (Some P) (Some d).

(** [initialization(R, Q)], after [load_data] has left the dict
    [landmark_indexes], the all-[False] array [landmark_observed] of one more
    entry than the dict, and the first ground-truth row [gt0]. *)
Definition initial_sigma (n : nat) : mat :=
  fold_left (fun s i => set2 s i i 1e6) (seq 3 (n - 3)) (scale 1e-6 (full n n 1)).

Definition initialization (indexes : list (R * nat)) (gt0 : row) (Rn Qn : mat) : ekf :=
  let n := (3 + 2 * length indexes)%nat in
  let s0 := set1 (set1 (set1 (zeros1 n) 0 (c1 gt0)) 1 (c2 gt0)) 2 (c3 gt0) in
  Ekf indexes (repeat false (length indexes + 1))
      [s0] (c0 gt0) [c0 gt0] (initial_sigma n) Rn Qn None None None.

(** [motion_update(control)]. *)
Definition wrap_once (theta_t : R) : R :=
  if Rgt_dec theta_t PI then theta_t - 2 * PI
  else if Rlt_dec theta_t (- PI) then theta_t + 2 * PI
  else theta_t.

(** The Jacobian [G] of the motion and the three additions of [R] to the
    covariance, as [motion_update] writes them. *)
Definition motion_jacobian (n : nat) (v delta_t theta : R) : mat :=
  let G0 := identity n in
  let G1 := set2 G0 0 2 (- v * delta_t * sin theta) in
  set2 G1 1 2 (v * delta_t * cos theta).

Definition add_process_noise (s0 Rn : mat) : mat :=
  let s1 := set2 s0 0 0 (get s0 0 0 + get Rn 0 0) in
  let s2 := set2 s1 1 1 (get s1 1 1 + get Rn 1 1) in
  set2 s2 2 2 (get s2 2 2 + get Rn 2 2).

Definition motion_update (st : ekf) (control : row) : result :=
  let delta_t := c0 control - last_timestamp st in
  if Rlt_dec delta_t 0.001 then Ok st
  else
    let cur := last1 (states st) in
    let x_t := get1 cur 0 + c2 control * cos (get1 cur 2) * delta_t in
    let y_t := get1 cur 1 + c2 control * sin (get1 cur 2) * delta_t in
    let theta_t := wrap_once (get1 cur 2 + c3 control * delta_t) in
    let new_state := set1 (set1 (set1 cur 0 x_t) 1 y_t) 2 theta_t in
    let states' := states st ++ [new_state] in
    let stamps' := stamps st ++ [c0 control] in
    let G := motion_jacobian (dim st) (c2 control) delta_t (get1 (last2 states') 2) in
    let s0 := dot (dot G (sigma st)) (transpose G) in
    Ok (set_motion st states' (c0 control) stamps' (add_process_noise s0 (R_noise st))).

(** One pass of the body of the loop of [data_association] for slot [i],
    up to the Mahalanobis distance: the Jacobian [H], [Psi] and
    [difference]. *)
Definition F_x (n i : nat) : mat :=
  set2 (set2 (set2 (set2 (set2 (zeros 5 n) 0 0 1) 1 1 1) 2 2 1)
             3 (2 * i + 1) 1) 4 (2 * i + 2) 1.

Definition jacobian (n i : nat) (delta_x delta_y : R) : mat :=
  let q := delta_x ^ 2 + delta_y ^ 2 in
  let H_1 := [ - delta_x / sqrt q; - delta_y / sqrt q; 0;
               delta_x / sqrt q; delta_y / sqrt q ] in
  let H_2 := [ delta_y / q; - delta_x / q; -1; - delta_y / q; delta_x / q ] in
  let H_3 := [ 0; 0; 0; 0; 0 ] in
  dot [H_1; H_2; H_3] (F_x n i).

Record candidate : Type := Candidate {
  cand_H : mat;
  cand_Psi : mat;
  cand_difference : vec
}.

(** The pose [(x_t, y_t, theta_t)] that [data_association] reads from
    [self.states[-1]] before the loop. *)
Record pose : Type := Pose { x_t : R; y_t : R; theta_t : R }.

Definition current_pose (st : ekf) : pose :=
  let cur := last1 (states st) in Pose (get1 cur 0) (get1 cur 1) (get1 cur 2).

Definition score (st : ekf) (p : pose) (measurement : row) (i : nat) : candidate :=
  let range_t := c2 measurement in
  let bearing_t := c3 measurement in
  let x_l := get1 (last1 (states st)) (2 * i + 1) in
  let y_l := get1 (last1 (states st)) (2 * i + 2) in
  let delta_x := x_l - x_t p in
  let delta_y := y_l - y_t p in
  let q := delta_x ^ 2 + delta_y ^ 2 in
  let range_expected := sqrt q in
  let bearing_expected := arctan2 delta_y delta_x - theta_t p in
  let H := jacobian (dim st) i delta_x delta_y in
  let P := madd (dot (dot H (sigma st)) (transpose H)) (Q_noise st) in
  Candidate H P [range_t - range_expected; bearing_t - bearing_expected; 0].

(** [Pi] of a candidate; [None] when [np.linalg.inv] raises. *)
Definition mahalanobis (c : candidate) : option R :=
  match inv (cand_Psi c) with
  | None => None
  | Some Pinv =>
      Some (dot_vv (dot_vm (cand_difference c) Pinv) (cand_difference c))
  end.

(** The loop [for i in range(1, len(self.landmark_indexes) + 1)], over the
    indices [slots] still to visit, with the local [min_distance]. *)
Fixpoint association_loop (slots : list nat) (min_distance : R)
         (p : pose) (measurement : row) (st : ekf) : result :=
  match slots with
  | [] => Ok st
  | i :: rest =>
      match nth_error (landmark_observed st) i with
      | None => Raise IndexError st
      | Some false => association_loop rest min_distance p measurement st
      | Some true =>
          let c := score st p measurement i in
          match mahalanobis c with
          | None => Raise LinAlgError st
          | Some Pi =>
              if Rlt_dec Pi min_distance then
                association_loop rest Pi p measurement
                  (set_association st (cand_H c) (cand_Psi c) (cand_difference c))
              else association_loop rest min_distance p measurement st
          end
      end
  end.

(** [self.states[-1][k] = x]. *)
Definition set_last (ss : list vec) (k : nat) (x : R) : list vec :=
  removelast ss ++ [set1 (last1 ss) k x].

(** The first-sight branch of [data_association]. *)
Definition initialize_landmark (st : ekf) (p : pose) (measurement : row)
           (landmark_idx : nat) : ekf :=
  let range_t := c2 measurement in
  let bearing_t := c3 measurement in
  let landmark_x_expected := x_t p + range_t * cos (bearing_t + theta_t p) in
  let landmark_y_expected := y_t p + range_t * sin (bearing_t + theta_t p) in
  set_landmark st
    (set1 (landmark_observed st) landmark_idx true)
    (set_last (set_last (states st) (2 * landmark_idx + 1) landmark_x_expected)
              (2 * landmark_idx + 2) landmark_y_expected).

(** [data_association(measurement)]. *)
Definition data_association (st : ekf) (measurement : row) : result :=
  match lookup (landmark_indexes st) (c1 measurement) with
  | None => Ok st
  | Some landmark_idx =>
      match nth_error (landmark_observed st) landmark_idx with
      | None => Raise IndexError st
      | Some seen =>
          let p := current_pose st in
          let st1 := if seen then st
                     else initialize_landmark st p measurement landmark_idx in
          association_loop (seq 1 (length (landmark_indexes st))) 1e16
                           p measurement st1
      end
  end.

(** [measurement_update(measurement)]. *)
Definition measurement_update (st : ekf) (measurement : row) : result :=
  match lookup (landmark_indexes st) (c1 measurement) with
  | None => Ok st
  | Some _ =>
      match H_assoc st, Psi st, difference st with
      | Some H, Some P, Some d =>
          match inv P with
          | None => Raise LinAlgError st
          | Some Pinv =>
              let K := dot (dot (sigma st) (transpose H)) Pinv in
              let innovation := dot_mv K d in
              let new_state := vadd (last1 (states st)) innovation in
              Ok (set_motion st (states st ++ [new_state]) (c0 measurement)
                    (stamps st ++ [c0 measurement])
                    (dot (msub (identity (dim st)) (dot K H)) (sigma st)))
          end
      | _, _, _ => Raise AttributeError st
      end
  end.

(** The body and the loop of [__init__] (plotting apart). *)
Definition process (st : ekf) (data : row) : result :=
  if Req_dec_T (c1 data) (-1) then motion_update st data
  else bind (data_association st data) (fun st1 => measurement_update st1 data).

Fixpoint run (st : ekf) (data : list row) : result :=
  match data with
  | [] => Ok st
  | d :: rest => bind (process st d) (fun st1 => run st1 rest)
  end.

Definition ExtendedKalmanFilterSLAM (indexes : list (R * nat)) (gt0 : row)
           (Rn Qn : mat) (data : list row) : result :=
  run (initialization indexes gt0 Rn Qn) data.

(** The sizes the methods rely on: every state vector has [dim] entries, the
    covariance is [dim] by [dim], there is a flag for the unused slot 0 and
    for every landmark, and the association result has the shapes the
    correction multiplies. *)
Record well_formed (st : ekf) : Prop := WellFormed {
  wf_states : states st <> [];
  wf_state_length : Forall (fun s : vec => length s = dim st) (states st);
  wf_observed : length (landmark_observed st) = S (length (landmark_indexes st));
  wf_sigma : shape (sigma st) (dim st) (dim st);
  wf_H : forall H : mat, H_assoc st = Some H -> shape H 3 (dim st);
  wf_Psi : forall P : mat, Psi st = Some P -> shape P 3 3;
  wf_difference : forall d : vec, difference st = Some d -> length d = 3%nat
}.

(** What keeps the covariance symmetric: the covariance itself, the
    measurement noise, and the innovation covariance kept by the last
    association. *)
Record symmetric_covariances (st : ekf) : Prop := SymmetricCovariances {
  sym_sigma : symmetric (sigma st);
  sym_Q : symmetric (Q_noise st);
  sym_Psi : forall P : mat, Psi st = Some P -> symmetric P
}.

(** One timestamp per entry of the history, the last of them being
    [last_timestamp]. *)
Definition stamped (st : ekf) : Prop :=
  length (stamps st) = length (states st)
  /\ exists ts : list R, stamps st = ts ++ [last_timestamp st].

(** A measurement row whose subject is not a key of the dict of landmarks:
    both [data_association] and [measurement_update] return at once. *)
Definition foreign (indexes : list (R * nat)) (d : row) : bool :=
  if Req_dec_T (c1 d) (-1) then false
  else match lookup indexes (c1 d) with
       | Some _ => false
       | None => true
       end.

(** The exception that ended a call, if one did. *)
Definition raised (r : result) : option exn :=
  match r with
  | Ok _ => None
  | Raise e _ => Some e
  end.

Definition is_attribute_error (r : result) : bool :=
  match raised r with
  | Some AttributeError => true
  | _ => false
  end.

(** [self.H], [self.Psi] and [self.difference] have been assigned. *)
Definition association_present (st : ekf) : Prop :=
  H_assoc st <> None /\ Psi st <> None /\ difference st <> None.

(** The three attributes of an association are assigned together. *)
Definition association_all_or_none (st : ekf) : Prop :=
  (H_assoc st = None /\ Psi st = None /\ difference st = None)
  \/ (H_assoc st <> None /\ Psi st <> None /\ difference st <> None).

Definition is_index_error (r : result) : bool :=
  match raised r with
  | Some IndexError => true
  | _ => false
  end.

(** The rows of [data] are in time order and none is before time [t]. *)
Fixpoint time_ordered (t : R) (data : list row) : Prop :=
  match data with
  | [] => True
  | d :: rest => t <= c0 d /\ time_ordered (c0 d) rest
  end.

(** Every slot of the dict has a flag: it is at most the number of
    landmarks. *)
Definition slots_in_range (indexes : list (R * nat)) : Prop :=
  forall key idx, lookup indexes key = Some idx -> (idx <= length indexes)%nat.

(** The measurement methods and the loop of [__init__] once more, with
    [np.linalg.inv] left open: [inverse] is any function that returns an
    array or raises [LinAlgError] ([None]).  What holds of these holds
    whatever makes the library raise; with [inverse := inv] they are the
    methods above. *)
Section AnyInverse.
Variable inverse : mat -> option mat.

Definition mahalanobis_with (c : candidate) : option R :=
  match inverse (cand_Psi c) with
  | None => None
  | Some Pinv =>
      Some (dot_vv (dot_vm (cand_difference c) Pinv) (cand_difference c))
  end.

Fixpoint association_loop_with (slots : list nat) (min_distance : R)
         (p : pose) (measurement : row) (st : ekf) : result :=
  match slots with
  | [] => Ok st
  | i :: rest =>
      match nth_error (landmark_observed st) i with
      | None => Raise IndexError st
      | Some false => association_loop_with rest min_distance p measurement st
      | Some true =>
          let c := score st p measurement i in
          match mahalanobis_with c with
          | None => Raise LinAlgError st
          | Some Pi =>
              if Rlt_dec Pi min_distance then
                association_loop_with rest Pi p measurement
                  (set_association st (cand_H c) (cand_Psi c) (cand_difference c))
              else association_loop_with rest min_distance p measurement st
          end
      end
  end.

Definition data_association_with (st : ekf) (measurement : row) : result :=
  match lookup (landmark_indexes st) (c1 measurement) with
  | None => Ok st
  | Some landmark_idx =>
      match nth_error (landmark_observed st) landmark_idx with
      | None => Raise IndexError st
      | Some seen =>
          let p := current_pose st in
          let st1 := if seen then st
                     else initialize_landmark st p measurement landmark_idx in
          association_loop_with (seq 1 (length (landmark_indexes st))) 1e16
                                p measurement st1
      end
  end.

Definition measurement_update_with (st : ekf) (measurement : row) : result :=
  match lookup (landmark_indexes st) (c1 measurement) with
  | None => Ok st
  | Some _ =>
      match H_assoc st, Psi st, difference st with
      | Some H, Some P, Some d =>
          match inverse P with
          | None => Raise LinAlgError st
          | Some Pinv =>
              let K := dot (dot (sigma st) (transpose H)) Pinv in
              let innovation := dot_mv K d in
              let new_state := vadd (last1 (states st)) innovation in
              Ok (set_motion st (states st ++ [new_state]) (c0 measurement)
                    (stamps st ++ [c0 measurement])
                    (dot (msub (identity (dim st)) (dot K H)) (sigma st)))
          end
      | _, _, _ => Raise AttributeError st
      end
  end.

Definition process_with (st : ekf) (data : row) : result :=
  if Req_dec_T (c1 data) (-1) then motion_update st data
  else bind (data_association_with st data)
            (fun st1 => measurement_update_with st1 data).

Fixpoint run_with (st : ekf) (data : list row) : result :=
  match data with
  | [] => Ok st
  | d :: rest => bind (process_with st d) (fun st1 => run_with st1 rest)
  end.

End AnyInverse.

End EKF.

(** ** Loading: the parts of [load_data] after the files are read and the
    rows sorted *)

Module Loader.
Import NumPy EKF.

(** [d[key] = v] on a dict with float keys, kept as its list of items in
    insertion order: an existing key keeps its place and takes the new
    value. *)
Fixpoint dict_set {V : Type} (d : list (R * V)) (key : R) (v : V) : list (R * V) :=
  match d with
  | [] => [(key, v)]
  | (k, w) :: rest =>
      if Req_dec_T key k then (k, v) :: rest else (k, w) :: dict_set rest key v
  end.

(** The loop that fills [self.landmark_indexes] from the rows 5 and beyond
    of [barcodes_data] (rows [[Subject#, Barcode#]]). *)
Definition build_landmark_indexes (barcodes_data : mat) : list (R * nat) :=
  fold_left (fun d i => dict_set d (get barcodes_data i 1) (i - 4)%nat)
            (seq 5 (length barcodes_data - 5)) [].

(** [while self.data[start_frame][1] != -1: start_frame += 1], at most
    [fuel] increments; [None] is the [IndexError] of [self.data[start_frame]]
    past the last row. *)
Fixpoint first_control (fuel : nat) (data : list row) (start_frame : nat) : option nat :=
  match nth_error data start_frame with
  | None => None
  | Some d =>
      if Req_dec_T (c1 d) (-1) then Some start_frame
      else match fuel with
           | O => None
           | S f => first_control f data (S start_frame)
           end
  end.

(** [self.data = self.data[start_frame:end_frame]] after that loop, for
    frame numbers that are not negative. *)
Definition select_frames (data : list row) (start_frame end_frame : nat)
  : option (list row) :=
  match first_control (length data) data start_frame with
  | None => None
  | Some sf => Some (firstn (end_frame - sf) (skipn sf data))
  end.

(** [(self.data[0][0], self.data[-1][0])]; [None] is the [IndexError] on an
    empty selection. *)
Definition frame_times (data : list row) : option (R * R) :=
  match data with
  | [] => None
  | d :: _ => Some (c0 d, c0 (last data d))
  end.

(** The value of [i] after
    [for i in range(len(rows)): if rows[i][0] >= t: break]
    on rows that are not empty, counting from [i]. *)
Fixpoint scan (rows : list row) (t : R) (i : nat) : nat :=
  match rows with
  | [] => i
  | r :: rest =>
      if Rge_dec (c0 r) t then i
      else match rest with
           | [] => i
           | _ :: _ => scan rest t (S i)
           end
  end.

(** The two loops that cut the ground truth to the time range of the data.
    On an empty ground truth [i] is not bound ([None]); when the first cut
    leaves nothing the second loop does not run and [i] keeps its value. *)
Definition trim_groundtruth (groundtruth_data : list row)
           (start_timestamp end_timestamp : R) : option (list row) :=
  match groundtruth_data with
  | [] => None
  | _ :: _ =>
      let i := scan groundtruth_data end_timestamp 0 in
      let cut := firstn i groundtruth_data in
      let i' := match cut with
                | [] => i
                | _ :: _ => scan cut start_timestamp 0
                end in
      Some (skipn i' cut)
  end.

(** The rows the comment of the source asks for: the ground truth ``inside
    the range'' of the selected data, [start_timestamp <= t < end_timestamp]. *)
Definition in_range (start_timestamp end_timestamp : R) (r : row) : bool :=
  if Rle_dec start_timestamp (c0 r)
  then if Rlt_dec (c0 r) end_timestamp then true else false
  else false.

(** Rows in the order of their timestamps. *)
Definition by_time (rows : list row) : Prop :=
  StronglySorted (fun a b => c0 a <= c0 b) rows.

End Loader.

(** ** Concrete runs *)

Module Scenario.
Import NumPy EKF.

(** One landmark, barcode 6 in slot 1; the robot starts at the origin at
    time 0 with heading 0. *)
Definition one_landmark : list (R * nat) := [(6, 1%nat)].
Definition origin : row := Row 0 0 0 0.
Definition I3 : mat := [[1; 0; 0]; [0; 1; 0]; [0; 0; 1]].

Definition start : ekf := initialization one_landmark origin I3 I3.

(** A process noise with a covariance between x and y. *)
Definition R_xy : mat := [[1; 0.5; 0]; [0.5; 1; 0]; [0; 0; 1]].

(** A singular measurement noise. *)
Definition Q_zero : mat := [[0; 0; 0]; [0; 0; 0]; [0; 0; 0]].

(** The run of the singular measurement noise: one measurement of barcode 6
    at range 2 and bearing 0, then one motion event. *)
Definition singular_start : ekf := initialization one_landmark origin I3 Q_zero.
Definition sighting : row := Row 1 6 2 0.
Definition singular_seen : ekf :=
  initialize_landmark singular_start (current_pose singular_start) sighting 1.

(** The run with the noise matrices of [__main__]: the landmark is sighted
    at range 1 and bearing 0 from the origin, then a reading of range 1e12
    arrives for it. *)
Definition R_main : mat := [[14400; 0; 0]; [0; 14400; 0]; [0; 0; 10000]].
Definition Q_main : mat := [[1e6; 0; 0]; [0; 1e6; 0]; [0; 0; 1e32]].
Definition main_start : ekf := initialization one_landmark origin R_main Q_main.
Definition first_reading : row := Row 1 6 1 0.
Definition outlier : row := Row 2 6 1e12 0.

(** The arrays of that run: the Jacobian of the sighting, the initial
    covariance, the innovation covariance of the first reading and its
    inverse, the covariance after the first correction, and the innovation
    covariance of the second reading and its inverse. *)
Definition H_facing : mat :=
  [[-1; 0; 0; 1; 0]; [0; -1; -1; 0; 1]; [0; 0; 0; 0; 0]].
Definition sigma_start : mat :=
  [[1e-6; 1e-6; 1e-6; 1e-6; 1e-6]; [1e-6; 1e-6; 1e-6; 1e-6; 1e-6];
   [1e-6; 1e-6; 1e-6; 1e-6; 1e-6]; [1e-6; 1e-6; 1e-6; 1e6; 1e-6];
   [1e-6; 1e-6; 1e-6; 1e-6; 1e6]].
Definition Psi_first : mat := [[2e6 - 1e-6; 0; 0]; [0; 2e6; 0]; [0; 0; 1e32]].
Definition Psi_first_inv : mat :=
  [[/ (2e6 - 1e-6); 0; 0]; [0; / 2e6; 0]; [0; 0; / 1e32]].
Definition sigma_corrected : mat :=
  let a := 1e-6 - 1e-6 * 1e-6 / 2e6 in
  let b := 1e-6 + 1e-6 * (1e6 - 2 * 1e-6) / 2e6 in
  [[a; a; a; a; b]; [a; a; a; a; b]; [a; a; a; a; b];
   [a; a; a; 1e6 - (1e6 - 1e-6) * (1e6 - 1e-6) / (2e6 - 1e-6) - 1e-6 * 1e-6 / 2e6; b];
   [b; b; b; b; 1e6 - (1e6 - 2 * 1e-6) * (1e6 - 2 * 1e-6) / 2e6]].
Definition Psi_outlier : mat :=
  [[1e6 + (1e6 - 1e-6) - (1e6 - 1e-6) * (1e6 - 1e-6) / (2e6 - 1e-6); 0; 0];
   [0; 1500000; 0]; [0; 0; 1e32]].
Definition Psi_outlier_inv : mat :=
  [[/ (1e6 + (1e6 - 1e-6) - (1e6 - 1e-6) * (1e6 - 1e-6) / (2e6 - 1e-6)); 0; 0];
   [0; / 1500000; 0]; [0; 0; / 1e32]].

(** The attributes after the first sight, after the association and after
    the correction of the first reading. *)
Definition main_seen : ekf :=
  Ekf one_landmark [false; true] [[0; 0; 0; 1; 0]] 0 [0] sigma_start R_main Q_main
      None None None.
Definition main_associated : ekf :=
  set_association main_seen H_facing Psi_first [0; 0; 0].
Definition main_corrected : ekf :=
  Ekf one_landmark [false; true] [[0; 0; 0; 1; 0]; [0; 0; 0; 1; 0]] 1 [0; 1]
      sigma_corrected R_main Q_main
      (Some H_facing) (Some Psi_first) (Some [0; 0; 0]).


(** Barcode tables: five robots, then the landmarks.  In the second one two
    landmarks carry the same barcode. *)
Definition barcode_table : mat :=
  [[1; 5]; [2; 14]; [3; 41]; [4; 32]; [5; 23]; [6; 72]; [7; 27]].
Definition barcode_table_repeated : mat :=
  [[1; 5]; [2; 14]; [3; 41]; [4; 32]; [5; 23]; [6; 72]; [7; 72]].

(** A ground truth of five rows [[Time, x, y, orientation]], one a second. *)
Definition groundtruth_sample : list row :=
  [Row 1 0 0 0; Row 2 1 0 0; Row 3 2 0 0; Row 4 3 0 0; Row 5 4 0 0].

End Scenario.

(** ** Facts about arrays *)

Module NumPyFacts.
Import NumPy.

Lemma length_set1 {A : Type} (v : list A) (i : nat) (x : A) :
  length (set1 v i x) = length v.
Proof.
  revert i; induction v as [|h t IH]; intros [|i]; simpl; auto.
Qed.

Lemma nth_set1_eq {A : Type} (v : list A) (i : nat) (x d : A) :
  (i < length v)%nat -> nth i (set1 v i x) d = x.
Proof.
  revert i; induction v as [|h t IH]; intros [|i] Hi; simpl in *; try lia; auto.
  apply IH; lia.
Qed.

Lemma nth_set1_neq {A : Type} (v : list A) (i j : nat) (x d : A) :
  i <> j -> nth j (set1 v i x) d = nth j v d.
Proof.
  revert i j; induction v as [|h t IH]; intros [|i] [|j] Hij; simpl; auto; try lia.
Qed.

Lemma set1_out {A : Type} (v : list A) (i : nat) (x : A) :
  (length v <= i)%nat -> set1 v i x = v.
Proof.
  revert i; induction v as [|h t IH]; intros [|i] Hi; simpl in *; auto; try lia.
  f_equal; apply IH; lia.
Qed.

Lemma get_set2_eq (M : mat) (i j : nat) (x : R) :
  (i < length M)%nat -> (j < length (nth i M []))%nat ->
  get (set2 M i j x) i j = x.
Proof.
  intros Hi Hj. unfold get, set2.
  rewrite nth_set1_eq by assumption. now apply nth_set1_eq.
Qed.

Lemma get_set2_neq (M : mat) (i j a b : nat) (x : R) :
  a <> i \/ b <> j -> get (set2 M i j x) a b = get M a b.
Proof.
  intros Hab. unfold get, set2.
  destruct (Nat.eq_dec a i) as [->|Hai].
  - destruct (Nat.lt_ge_cases i (length M)) as [Hi|Hi].
    + rewrite nth_set1_eq by assumption. apply nth_set1_neq. lia.
    + now rewrite set1_out.
  - rewrite nth_set1_neq by auto. reflexivity.
Qed.

Lemma shape_set2 (M : mat) (n m i j : nat) (x : R) :
  shape M n m -> shape (set2 M i j x) n m.
Proof.
  intros [Hn Hm]. unfold set2. split.
  - now rewrite length_set1.
  - apply Forall_forall. intros r Hr.
    apply (In_nth _ _ []) in Hr. destruct Hr as [k [Hk <-]].
    rewrite length_set1 in Hk.
    rewrite Forall_forall in Hm.
    destruct (Nat.eq_dec i k) as [->|Hik].
    + rewrite nth_set1_eq by assumption. rewrite length_set1.
      apply Hm. now apply nth_In.
    + rewrite nth_set1_neq by assumption. apply Hm. now apply nth_In.
Qed.

Lemma shape_row (M : mat) (n m i : nat) :
  shape M n m -> (i < n)%nat -> length (nth i M []) = m.
Proof.
  intros [Hn Hm] Hi. rewrite Forall_forall in Hm. apply Hm, nth_In. lia.
Qed.

Lemma shape_cols (M : mat) (n m : nat) :
  shape M n m -> (0 < n)%nat -> cols M = m.
Proof.
  intros HM Hn. unfold cols.
  replace (hd [] M) with (nth 0 M []) by (destruct M; reflexivity).
  now apply (shape_row M n m).
Qed.

Lemma shape_rows (M : mat) (n m : nat) : shape M n m -> rows M = n.
Proof. now intros [Hn _]. Qed.

Lemma get_out (M : mat) (n m i j : nat) :
  shape M n m -> (n <= i \/ m <= j)%nat -> get M i j = 0.
Proof.
  intros HM Hij. unfold get.
  destruct (Nat.lt_ge_cases i n) as [Hi|Hi].
  - apply nth_overflow. rewrite (shape_row M n m) by assumption. lia.
  - rewrite (nth_overflow M) by (destruct HM; lia). now destruct j.
Qed.

Lemma length_mk1 (n : nat) (f : nat -> R) : length (mk1 n f) = n.
Proof. unfold mk1. now rewrite length_map, length_seq. Qed.

Lemma get1_mk1 (n : nat) (f : nat -> R) (i : nat) :
  (i < n)%nat -> get1 (mk1 n f) i = f i.
Proof.
  intros Hi. unfold get1, mk1.
  rewrite (nth_indep _ 0 (f 0%nat)) by now rewrite length_map, length_seq.
  rewrite (map_nth f). now rewrite seq_nth.
Qed.

Lemma mk1_ext (n : nat) (f g : nat -> R) :
  (forall i, (i < n)%nat -> f i = g i) -> mk1 n f = mk1 n g.
Proof.
  intros Hfg. unfold mk1. apply map_ext_in. intros i Hi.
  apply in_seq in Hi. apply Hfg. lia.
Qed.

Lemma mk1_get1 (v : vec) : mk1 (length v) (get1 v) = v.
Proof.
  apply (nth_ext _ _ 0 0).
  - apply length_mk1.
  - intros i Hi. rewrite length_mk1 in Hi. now apply get1_mk1.
Qed.

Lemma shape_mk (n m : nat) (f : nat -> nat -> R) : shape (mk n m f) n m.
Proof.
  unfold mk. split.
  - now rewrite length_map, length_seq.
  - apply Forall_forall. intros r Hr. apply in_map_iff in Hr.
    destruct Hr as [i [<- _]]. now rewrite length_map, length_seq.
Qed.

Lemma get_mk (n m : nat) (f : nat -> nat -> R) (i j : nat) :
  (i < n)%nat -> (j < m)%nat -> get (mk n m f) i j = f i j.
Proof.
  intros Hi Hj. unfold get, mk.
  rewrite (nth_indep _ [] ((fun i => map (fun j => f i j) (seq 0 m)) 0%nat))
    by now rewrite length_map, length_seq.
  rewrite (map_nth (fun i => map (fun j => f i j) (seq 0 m))).
  rewrite seq_nth by assumption. simpl.
  exact (get1_mk1 m (f i) j Hj).
Qed.

Lemma get_mk_out (n m : nat) (f : nat -> nat -> R) (i j : nat) :
  (n <= i \/ m <= j)%nat -> get (mk n m f) i j = 0.
Proof. apply get_out, shape_mk. Qed.

Lemma mk_ext (n m : nat) (f g : nat -> nat -> R) :
  (forall i j, (i < n)%nat -> (j < m)%nat -> f i j = g i j) ->
  mk n m f = mk n m g.
Proof.
  intros Hfg. unfold mk. apply map_ext_in. intros i Hi.
  apply in_seq in Hi. apply map_ext_in. intros j Hj.
  apply in_seq in Hj. apply Hfg; lia.
Qed.

Lemma symmetric_mk (n : nat) (f : nat -> nat -> R) :
  (forall i j, (i < n)%nat -> (j < n)%nat -> f i j = f j i) ->
  symmetric (mk n n f).
Proof.
  intros Hf i j.
  destruct (Nat.lt_ge_cases i n) as [Hi|Hi];
    destruct (Nat.lt_ge_cases j n) as [Hj|Hj].
  - rewrite !get_mk by assumption. now apply Hf.
  - rewrite !get_mk_out by lia. reflexivity.
  - rewrite !get_mk_out by lia. reflexivity.
  - rewrite !get_mk_out by lia. reflexivity.
Qed.

(** Finite sums. *)

Lemma sum_n_ext (f g : nat -> R) (n : nat) :
  (forall k, (k < n)%nat -> f k = g k) -> sum_n f n = sum_n g n.
Proof.
  induction n as [|n IH]; intros Hfg; simpl; [reflexivity|].
  rewrite IH by (intros k Hk; apply Hfg; lia). now rewrite Hfg by lia.
Qed.

Lemma sum_n_zero (n : nat) : sum_n (fun _ => 0) n = 0.
Proof. induction n as [|n IH]; simpl; [reflexivity|]. rewrite IH. ring. Qed.

Lemma sum_n_plus (f g : nat -> R) (n : nat) :
  sum_n (fun k => f k + g k) n = sum_n f n + sum_n g n.
Proof. induction n as [|n IH]; simpl; [ring|]. rewrite IH. ring. Qed.

Lemma sum_n_minus (f g : nat -> R) (n : nat) :
  sum_n (fun k => f k - g k) n = sum_n f n - sum_n g n.
Proof. induction n as [|n IH]; simpl; [ring|]. rewrite IH. ring. Qed.

Lemma sum_n_scal_l (c : R) (f : nat -> R) (n : nat) :
  sum_n (fun k => c * f k) n = c * sum_n f n.
Proof. induction n as [|n IH]; simpl; [ring|]. rewrite IH. ring. Qed.

Lemma sum_n_scal_r (c : R) (f : nat -> R) (n : nat) :
  sum_n (fun k => f k * c) n = sum_n f n * c.
Proof. induction n as [|n IH]; simpl; [ring|]. rewrite IH. ring. Qed.

Lemma sum_n_swap (f : nat -> nat -> R) (n m : nat) :
  sum_n (fun i => sum_n (fun j => f i j) m) n
  = sum_n (fun j => sum_n (fun i => f i j) n) m.
Proof.
  induction n as [|n IH]; simpl.
  - now rewrite sum_n_zero.
  - rewrite IH. now rewrite <- sum_n_plus.
Qed.

(** A sum against a Kronecker delta picks one term. *)
Lemma sum_n_delta (i : nat) (f : nat -> R) (n : nat) :
  (i < n)%nat ->
  sum_n (fun k => (if Nat.eqb i k then 1 else 0) * f k) n = f i.
Proof.
  induction n as [|n IH]; intros Hi; [lia|]. simpl.
  destruct (Nat.eq_dec i n) as [->|Hin].
  - rewrite Nat.eqb_refl.
    rewrite (sum_n_ext _ (fun _ => 0)).
    + rewrite sum_n_zero. ring.
    + intros k Hk. replace (Nat.eqb n k) with false; [ring|].
      symmetry. apply Nat.eqb_neq. lia.
  - rewrite IH by lia. replace (Nat.eqb i n) with false; [ring|].
    symmetry. now apply Nat.eqb_neq.
Qed.

(** Arrays of one shape with the same entries are equal. *)
Lemma mat_ext (M M' : mat) (n m : nat) :
  shape M n m -> shape M' n m ->
  (forall i j, (i < n)%nat -> (j < m)%nat -> get M i j = get M' i j) ->
  M = M'.
Proof.
  intros HM HM' Hget.
  apply (nth_ext _ _ [] []).
  - destruct HM, HM'. congruence.
  - intros i Hi. replace (length M) with n in Hi by (now destruct HM).
    apply (nth_ext _ _ 0 0).
    + now rewrite (shape_row M n m), (shape_row M' n m).
    + intros j Hj. rewrite (shape_row M n m) in Hj by assumption.
      now apply Hget.
Qed.

Lemma mk_get (M : mat) (n m : nat) : shape M n m -> mk n m (get M) = M.
Proof.
  intros HM. apply (mat_ext _ _ n m); [apply shape_mk|assumption|].
  intros i j Hi Hj. now apply get_mk.
Qed.

Lemma rows_mk (n m : nat) (f : nat -> nat -> R) : rows (mk n m f) = n.
Proof. apply (shape_rows _ n m), shape_mk. Qed.

Lemma cols_mk (n m : nat) (f : nat -> nat -> R) : (0 < n)%nat -> cols (mk n m f) = m.
Proof. apply shape_cols, shape_mk. Qed.

Lemma set1_same {A : Type} (v : list A) (i : nat) (d : A) :
  set1 v i (nth i v d) = v.
Proof.
  revert i; induction v as [|h t IH]; intros [|i]; simpl; auto.
  f_equal. apply IH.
Qed.

Lemma set2_same (M : mat) (i j : nat) (x : R) :
  get M i j = x -> set2 M i j x = M.
Proof.
  intros <-. unfold set2, get. rewrite set1_same. apply set1_same.
Qed.

(** Products. *)
Lemma shape_dot (A B : mat) : shape (dot A B) (rows A) (cols B).
Proof. apply shape_mk. Qed.

Lemma get_dot (A B : mat) (i j : nat) :
  (i < rows A)%nat -> (j < cols B)%nat ->
  get (dot A B) i j = sum_n (fun k => get A i k * get B k j) (cols A).
Proof. intros Hi Hj. unfold dot. now rewrite get_mk. Qed.

Lemma shape_transpose (A : mat) : shape (transpose A) (cols A) (rows A).
Proof. apply shape_mk. Qed.

Lemma get_transpose (A : mat) (i j : nat) :
  (i < cols A)%nat -> (j < rows A)%nat -> get (transpose A) i j = get A j i.
Proof. intros Hi Hj. unfold transpose. now rewrite get_mk. Qed.

Lemma sum_n_delta_r (j : nat) (f : nat -> R) (n : nat) :
  (j < n)%nat ->
  sum_n (fun k => f k * (if Nat.eqb k j then 1 else 0)) n = f j.
Proof.
  intros Hj. rewrite <- (sum_n_delta j f n Hj).
  apply sum_n_ext. intros k _. rewrite (Nat.eqb_sym k j). ring.
Qed.

Lemma shape_identity (n : nat) : shape (identity n) n n.
Proof. apply shape_mk. Qed.

Lemma dot_identity_l (M : mat) (n m : nat) :
  shape M n m -> (0 < n)%nat -> dot (identity n) M = M.
Proof.
  intros HM Hn. unfold dot.
  rewrite (shape_rows _ _ _ (shape_identity n)).
  rewrite (shape_cols _ _ _ (shape_identity n) Hn).
  rewrite (shape_cols _ _ _ HM Hn).
  apply (mat_ext _ _ n m); [apply shape_mk|assumption|].
  intros i j Hi Hj. rewrite get_mk by assumption.
  rewrite (sum_n_ext _ (fun k => (if Nat.eqb i k then 1 else 0) * get M k j)).
  - exact (sum_n_delta i (fun k => get M k j) n Hi).
  - intros k Hk. unfold identity. now rewrite get_mk.
Qed.

Lemma dot_identity_r (M : mat) (n m : nat) :
  shape M n m -> (0 < n)%nat -> dot M (identity m) = M.
Proof.
  intros HM Hn. unfold dot.
  rewrite (shape_rows _ _ _ HM), (shape_cols _ _ _ HM Hn).
  assert (Hc : cols (identity m) = m).
  { destruct m; [reflexivity|]. apply shape_cols with (n := S m); [apply shape_identity|lia]. }
  rewrite Hc.
  apply (mat_ext _ _ n m); [apply shape_mk|assumption|].
  intros i j Hi Hj. rewrite get_mk by assumption.
  rewrite (sum_n_ext _ (fun k => get M i k * (if Nat.eqb k j then 1 else 0))).
  - exact (sum_n_delta_r j (fun k => get M i k) m Hj).
  - intros k Hk. unfold identity. now rewrite get_mk.
Qed.

Lemma transpose_identity (n : nat) : transpose (identity n) = identity n.
Proof.
  unfold transpose.
  rewrite (shape_rows _ _ _ (shape_identity n)).
  assert (Hc : cols (identity n) = n).
  { destruct n; [reflexivity|]. apply shape_cols with (n := S n); [apply shape_identity|lia]. }
  rewrite Hc. unfold identity at 2. apply mk_ext.
  intros i j Hi Hj. unfold identity. rewrite get_mk by assumption.
  now rewrite Nat.eqb_sym.
Qed.

(** Assignments on the diagonal. *)
Lemma symmetric_set2_diag (M : mat) (i : nat) (x : R) :
  symmetric M -> symmetric (set2 M i i x).
Proof.
  intros HM a b.
  destruct (Nat.eq_dec a i) as [->|Ha]; destruct (Nat.eq_dec b i) as [->|Hb].
  - reflexivity.
  - rewrite !get_set2_neq by auto. apply HM.
  - rewrite !get_set2_neq by auto. apply HM.
  - rewrite !get_set2_neq by auto. apply HM.
Qed.

Lemma get_set2_diag (M : mat) (n i a b : nat) (x : R) :
  shape M n n -> (i < n)%nat ->
  get (set2 M i i x) a b
  = if Nat.eqb a i && Nat.eqb b i then x else get M a b.
Proof.
  intros HM Hi.
  destruct (Nat.eqb_spec a i) as [->|Ha]; [destruct (Nat.eqb_spec b i) as [->|Hb]|]; simpl.
  - apply get_set2_eq; [destruct HM; lia|]. now rewrite (shape_row M n n).
  - now rewrite get_set2_neq by auto.
  - now rewrite get_set2_neq by auto.
Qed.

Lemma symmetric_scale_full (c x : R) (n : nat) : symmetric (scale c (full n n x)).
Proof.
  unfold scale, full. rewrite rows_mk.
  destruct n as [|n]; [intros [|i] [|j]; reflexivity|].
  rewrite cols_mk by lia. apply symmetric_mk.
  intros i j Hi Hj. now rewrite !get_mk.
Qed.

Lemma shape_scale_full (c x : R) (n : nat) : shape (scale c (full n n x)) n n.
Proof.
  unfold scale, full. rewrite rows_mk.
  destruct n as [|n]; [split; [reflexivity|constructor]|].
  rewrite cols_mk by lia. apply shape_mk.
Qed.

(** Shapes of products and transposes of arrays of known shape. *)
Lemma rows_dot (A B : mat) : rows (dot A B) = rows A.
Proof. apply rows_mk. Qed.

Lemma shape_dot_of (A B : mat) (n m p : nat) :
  shape A n m -> shape B m p -> (0 < m)%nat -> shape (dot A B) n p.
Proof.
  intros HA HB Hm. unfold dot.
  rewrite (shape_rows _ _ _ HA), (shape_cols _ _ _ HB Hm). apply shape_mk.
Qed.

Lemma shape_transpose_of (A : mat) (n m : nat) :
  shape A n m -> (0 < n)%nat -> shape (transpose A) m n.
Proof.
  intros HA Hn. unfold transpose.
  rewrite (shape_rows _ _ _ HA), (shape_cols _ _ _ HA Hn). apply shape_mk.
Qed.

Lemma get_dot_of (A B : mat) (n m p i j : nat) :
  shape A n m -> shape B m p -> (0 < n)%nat -> (0 < m)%nat ->
  (i < n)%nat -> (j < p)%nat ->
  get (dot A B) i j = sum_n (fun k => get A i k * get B k j) m.
Proof.
  intros HA HB Hn Hm Hi Hj.
  rewrite get_dot.
  - now rewrite (shape_cols _ _ _ HA Hn).
  - now rewrite (shape_rows _ _ _ HA).
  - now rewrite (shape_cols _ _ _ HB Hm).
Qed.

Lemma get_transpose_of (A : mat) (n m i j : nat) :
  shape A n m -> (0 < n)%nat -> (i < m)%nat -> (j < n)%nat ->
  get (transpose A) i j = get A j i.
Proof.
  intros HA Hn Hi Hj. apply get_transpose.
  - now rewrite (shape_cols _ _ _ HA Hn).
  - now rewrite (shape_rows _ _ _ HA).
Qed.

Lemma nth_error_set1_eq {A : Type} (v : list A) (i : nat) (x : A) :
  (i < length v)%nat -> nth_error (set1 v i x) i = Some x.
Proof.
  revert i; induction v as [|h t IH]; intros [|i] Hi; simpl in *; try lia; auto.
  apply IH; lia.
Qed.

Lemma nth_error_set1_neq {A : Type} (v : list A) (i j : nat) (x : A) :
  i <> j -> nth_error (set1 v i x) j = nth_error v j.
Proof.
  revert i j; induction v as [|h t IH]; intros [|i] [|j] Hij; simpl; auto; try lia.
Qed.

(** Symmetry. *)
Lemma symmetric_of_shape (M : mat) (n : nat) :
  shape M n n ->
  (forall i j, (i < n)%nat -> (j < n)%nat -> get M i j = get M j i) ->
  symmetric M.
Proof.
  intros HM Hsym i j.
  destruct (Nat.lt_ge_cases i n) as [Hi|Hi];
    destruct (Nat.lt_ge_cases j n) as [Hj|Hj].
  - now apply Hsym.
  - rewrite !(get_out M n n) by (auto; lia). reflexivity.
  - rewrite !(get_out M n n) by (auto; lia). reflexivity.
  - rewrite !(get_out M n n) by (auto; lia). reflexivity.
Qed.

(** [A * S * A^T] is symmetric when [S] is. *)
Lemma get_congruence (A S : mat) (p n i j : nat) :
  shape A p n -> shape S n n -> (0 < p)%nat -> (0 < n)%nat ->
  (i < p)%nat -> (j < p)%nat ->
  get (dot (dot A S) (transpose A)) i j
  = sum_n (fun k => sum_n (fun l => get A i l * get S l k * get A j k) n) n.
Proof.
  intros HA HS Hp Hn Hi Hj.
  rewrite (get_dot_of _ _ p n p); auto.
  - apply sum_n_ext. intros k Hk.
    rewrite (get_dot_of _ _ p n n); auto.
    rewrite (get_transpose_of _ p n); auto.
    now rewrite <- sum_n_scal_r.
  - now apply (shape_dot_of _ _ _ n).
  - now apply shape_transpose_of.
Qed.

Lemma shape_congruence (A S : mat) (p n : nat) :
  shape A p n -> shape S n n -> (0 < p)%nat -> (0 < n)%nat ->
  shape (dot (dot A S) (transpose A)) p p.
Proof.
  intros HA HS Hp Hn.
  apply (shape_dot_of _ _ _ n); auto.
  - now apply (shape_dot_of _ _ _ n).
  - now apply shape_transpose_of.
Qed.

Lemma symmetric_congruence (A S : mat) (p n : nat) :
  shape A p n -> shape S n n -> (0 < p)%nat -> (0 < n)%nat ->
  symmetric S -> symmetric (dot (dot A S) (transpose A)).
Proof.
  intros HA HS Hp Hn Hsym.
  apply (symmetric_of_shape _ p); [now apply (shape_congruence _ _ p n)|].
  intros i j Hi Hj.
  rewrite !(get_congruence _ _ p n) by assumption.
  rewrite sum_n_swap.
  apply sum_n_ext. intros k Hk. apply sum_n_ext. intros l Hl.
  rewrite (Hsym k l). ring.
Qed.

Lemma shape_madd (A B : mat) (n m : nat) :
  shape A n m -> (0 < n)%nat -> shape (madd A B) n m.
Proof.
  intros HA Hn. unfold madd.
  rewrite (shape_rows _ _ _ HA), (shape_cols _ _ _ HA Hn). apply shape_mk.
Qed.

Lemma symmetric_madd (A B : mat) (n : nat) :
  shape A n n -> (0 < n)%nat -> symmetric A -> symmetric B -> symmetric (madd A B).
Proof.
  intros HA Hn HsA HsB. unfold madd.
  rewrite (shape_rows _ _ _ HA), (shape_cols _ _ _ HA Hn).
  apply symmetric_mk. intros i j _ _. now rewrite (HsA i j), (HsB i j).
Qed.

(** The inverse of a symmetric 3x3 array is symmetric. *)
Lemma shape_inv (M Minv : mat) : inv M = Some Minv -> shape Minv 3 3.
Proof.
  unfold inv. destruct (Req_dec_T (det3 M) 0); [discriminate|].
  intros [= <-]. apply shape_mk.
Qed.

Lemma get_inv (M Minv : mat) (i j : nat) :
  inv M = Some Minv -> (i < 3)%nat -> (j < 3)%nat ->
  get Minv i j = / det3 M * get (adj3 M) i j.
Proof.
  unfold inv. destruct (Req_dec_T (det3 M) 0); [discriminate|].
  intros [= <-] Hi Hj. unfold scale.
  change (rows (adj3 M)) with 3%nat. change (cols (adj3 M)) with 3%nat.
  now rewrite get_mk.
Qed.

Lemma symmetric_adj3 (M : mat) (i j : nat) :
  symmetric M -> (i < 3)%nat -> (j < 3)%nat ->
  get (adj3 M) i j = get (adj3 M) j i.
Proof.
  intros HM Hi Hj.
  destruct i as [|[|[|i]]]; try lia; destruct j as [|[|[|j]]]; try lia;
    cbn [adj3 get nth]; rewrite ?(HM 1 0)%nat, ?(HM 2 0)%nat, ?(HM 2 1)%nat; ring.
Qed.

Lemma symmetric_inv (M Minv : mat) :
  symmetric M -> inv M = Some Minv -> symmetric Minv.
Proof.
  intros HM Hinv.
  apply (symmetric_of_shape _ 3); [now apply (shape_inv M)|].
  intros i j Hi Hj.
  rewrite !(get_inv M Minv) by assumption.
  now rewrite (symmetric_adj3 M i j).
Qed.

(** The adjugate over the determinant is an inverse. *)
Lemma inv_correct (M Minv : mat) (i j : nat) :
  shape M 3 3 -> inv M = Some Minv -> (i < 3)%nat -> (j < 3)%nat ->
  get (dot M Minv) i j = get (identity 3) i j.
Proof.
  intros HM Hinv Hi Hj.
  pose proof (shape_inv M Minv Hinv) as HMi.
  rewrite (get_dot_of _ _ 3 3 3) by (auto; lia).
  cbn [sum_n]. rewrite !(get_inv M Minv) by (auto; lia).
  assert (Hd : det3 M <> 0).
  { unfold inv in Hinv. now destruct (Req_dec_T (det3 M) 0). }
  unfold identity. rewrite get_mk by assumption.
  destruct i as [|[|[|i]]]; try lia; destruct j as [|[|[|j]]]; try lia;
    cbn [adj3 get nth Nat.eqb] in *; unfold det3, get in Hd |- *;
    cbn [nth] in Hd |- *; field; exact Hd.
Qed.

(** The covariance of the correction, entry by entry: with
    [w a j = (H * S)[a][j]], the array [(I - K * H) * S] for
    [K = S * H^T * Pinv] is [S - (H * S)^T * Pinv * (H * S)]. *)
Lemma shape_gain (S H Pinv : mat) (n : nat) :
  shape S n n -> shape H 3 n -> shape Pinv 3 3 -> (0 < n)%nat ->
  shape (dot (dot S (transpose H)) Pinv) n 3.
Proof.
  intros HS HH HP Hn.
  apply (shape_dot_of _ _ _ 3); [|assumption|lia].
  apply (shape_dot_of _ _ _ n); [assumption| |assumption].
  apply shape_transpose_of; [assumption|lia].
Qed.

Lemma get_gain (S H Pinv : mat) (n i a : nat) :
  shape S n n -> shape H 3 n -> shape Pinv 3 3 -> (0 < n)%nat ->
  symmetric S -> (i < n)%nat -> (a < 3)%nat ->
  get (dot (dot S (transpose H)) Pinv) i a
  = sum_n (fun b => sum_n (fun k => get H b k * get S k i) n * get Pinv b a) 3.
Proof.
  intros HS HH HP Hn Hsym Hi Ha.
  assert (HT : shape (transpose H) n 3) by (apply shape_transpose_of; [assumption|lia]).
  rewrite (get_dot_of _ _ n 3 3); auto; try lia.
  - apply sum_n_ext. intros b Hb. f_equal.
    rewrite (get_dot_of _ _ n n 3); auto.
    apply sum_n_ext. intros k Hk.
    rewrite (get_transpose_of _ 3 n) by (auto; lia).
    rewrite (Hsym i k). ring.
  - now apply (shape_dot_of _ _ _ n).
Qed.

Lemma shape_correction (S K H : mat) (n : nat) :
  shape S n n -> (0 < n)%nat ->
  shape (dot (msub (identity n) (dot K H)) S) n n.
Proof.
  intros HS Hn. unfold dot at 1.
  rewrite (shape_cols _ _ _ HS Hn). unfold msub at 1.
  rewrite rows_mk, (shape_rows _ _ _ (shape_identity n)). apply shape_mk.
Qed.

Lemma get_correction (S H Pinv : mat) (n i j : nat) :
  shape S n n -> shape H 3 n -> shape Pinv 3 3 -> (0 < n)%nat ->
  symmetric S -> (i < n)%nat -> (j < n)%nat ->
  let K := dot (dot S (transpose H)) Pinv in
  let w := fun a j => sum_n (fun k => get H a k * get S k j) n in
  get (dot (msub (identity n) (dot K H)) S) i j
  = get S i j
    - sum_n (fun a => sum_n (fun b => w b i * get Pinv b a) 3 * w a j) 3.
Proof.
  intros HS HH HP Hn Hsym Hi Hj K w.
  assert (HK : shape K n 3) by now apply shape_gain.
  assert (HI : shape (identity n) n n) by apply shape_identity.
  assert (HM : shape (msub (identity n) (dot K H)) n n).
  { unfold msub. rewrite (shape_rows _ _ _ HI), (shape_cols _ _ _ HI Hn). apply shape_mk. }
  rewrite (get_dot_of _ _ n n n) by assumption.
  rewrite (sum_n_ext _ (fun k =>
             (if Nat.eqb i k then 1 else 0) * get S k j
             - sum_n (fun a => get K i a * (get H a k * get S k j)) 3)).
  2:{ intros k Hk. unfold msub.
      rewrite (shape_rows _ _ _ HI), (shape_cols _ _ _ HI Hn).
      rewrite get_mk by assumption.
      unfold identity at 1. rewrite get_mk by assumption.
      rewrite (get_dot_of _ _ n 3 n) by (auto; lia).
      cbn [sum_n]. ring. }
  rewrite sum_n_minus.
  rewrite (sum_n_delta i (fun k => get S k j) n Hi).
  f_equal. rewrite sum_n_swap.
  apply sum_n_ext. intros a Ha.
  rewrite sum_n_scal_l. f_equal.
  unfold K. now rewrite (get_gain S H Pinv n i a).
Qed.

Lemma symmetric_correction (S H Pinv : mat) (n : nat) :
  shape S n n -> shape H 3 n -> shape Pinv 3 3 -> (0 < n)%nat ->
  symmetric S -> symmetric Pinv ->
  symmetric (dot (msub (identity n) (dot (dot (dot S (transpose H)) Pinv) H)) S).
Proof.
  intros HS HH HP Hn Hsym HsP.
  apply (symmetric_of_shape _ n); [now apply shape_correction|].
  intros i j Hi Hj.
  rewrite !(get_correction S H Pinv n) by assumption.
  rewrite (Hsym i j). f_equal. cbn [sum_n].
  rewrite (HsP 1 0)%nat, (HsP 2 0)%nat, (HsP 2 1)%nat. ring.
Qed.

(** A gain applied to a zero innovation adds nothing. *)
Lemma get1_mk1_out (n : nat) (f : nat -> R) (i : nat) :
  (n <= i)%nat -> get1 (mk1 n f) i = 0.
Proof. intros Hi. unfold get1. apply nth_overflow. now rewrite length_mk1. Qed.

Lemma dot_mv_zero (K : mat) (d : vec) :
  (forall k, get1 d k = 0) -> forall i, get1 (dot_mv K d) i = 0.
Proof.
  intros Hd i. unfold dot_mv.
  destruct (Nat.lt_ge_cases i (rows K)) as [Hi|Hi].
  - rewrite get1_mk1 by assumption.
    rewrite (sum_n_ext _ (fun _ => 0)); [apply sum_n_zero|].
    intros k _. rewrite Hd. ring.
  - now apply get1_mk1_out.
Qed.

Lemma vadd_zero (u v : vec) : (forall i, get1 v i = 0) -> vadd u v = u.
Proof.
  intros Hv. unfold vadd.
  rewrite (mk1_ext _ _ (get1 u)); [apply mk1_get1|].
  intros i _. rewrite Hv. ring.
Qed.

(** An array with a zero last row has determinant 0, and [inv] raises on
    exactly the arrays of determinant 0. *)
Lemma det3_row2_zero (M : mat) : (forall j, get M 2 j = 0) -> det3 M = 0.
Proof. intros HM. unfold det3. rewrite !HM. ring. Qed.

Lemma inv_none (M : mat) : inv M = None <-> det3 M = 0.
Proof.
  unfold inv. destruct (Req_dec_T (det3 M) 0) as [Hd|Hd]; split; auto; try discriminate.
  intros Habs. contradiction.
Qed.

Lemma get_congruence_row_zero (A S : mat) (p n a j : nat) :
  shape A p n -> shape S n n -> (0 < p)%nat -> (0 < n)%nat ->
  (forall k, get A a k = 0) ->
  get (dot (dot A S) (transpose A)) a j = 0.
Proof.
  intros HA HS Hp Hn Hrow.
  destruct (Nat.lt_ge_cases a p) as [Ha|Ha]; [destruct (Nat.lt_ge_cases j p) as [Hj|Hj]|].
  - rewrite (get_congruence _ _ p n) by assumption.
    rewrite (sum_n_ext _ (fun _ => 0)); [apply sum_n_zero|].
    intros k _. rewrite (sum_n_ext _ (fun _ => 0)); [apply sum_n_zero|].
    intros l _. rewrite Hrow. ring.
  - apply (get_out _ p p); [now apply (shape_congruence _ _ p n)|lia].
  - apply (get_out _ p p); [now apply (shape_congruence _ _ p n)|lia].
Qed.

End NumPyFacts.

(** ** Frame facts: which attributes each method leaves alone *)

Module EKFFacts.
Import NumPy NumPyFacts EKF Scenario.

Lemma last1_app {A : Type} (l : list (list A)) (x : list A) : last1 (l ++ [x]) = x.
Proof. unfold last1. apply last_last. Qed.

Lemma last2_app {A : Type} (l : list (list A)) (x : list A) : last2 (l ++ [x]) = last1 l.
Proof. unfold last2, last1. now rewrite removelast_last. Qed.

Lemma removelast_set_last (ss : list vec) (k : nat) (x : R) :
  removelast (set_last ss k x) = removelast ss.
Proof. unfold set_last. apply removelast_last. Qed.

Lemma last1_set_last (ss : list vec) (k : nat) (x : R) :
  last1 (set_last ss k x) = set1 (last1 ss) k x.
Proof. unfold set_last. apply last1_app. Qed.

Lemma length_set_last (ss : list vec) (k : nat) (x : R) :
  ss <> [] -> length (set_last ss k x) = length ss.
Proof.
  intros Hss. unfold set_last.
  rewrite length_app. simpl.
  destruct (exists_last Hss) as [l [y ->]].
  rewrite removelast_last, length_app. reflexivity.
Qed.

Lemma removelast_app_last1 (ss : list vec) :
  ss <> [] -> removelast ss ++ [last1 ss] = ss.
Proof. intros Hss. symmetry. now apply app_removelast_last. Qed.

(** The loop of data association assigns [H], [Psi] and [difference] and
    nothing else. *)
Lemma association_loop_frame slots min_distance p m st :
  let st' := final (association_loop slots min_distance p m st) in
  landmark_indexes st' = landmark_indexes st
  /\ landmark_observed st' = landmark_observed st
  /\ states st' = states st
  /\ last_timestamp st' = last_timestamp st
  /\ stamps st' = stamps st
  /\ sigma st' = sigma st
  /\ R_noise st' = R_noise st
  /\ Q_noise st' = Q_noise st.
Proof.
  revert min_distance st.
  induction slots as [|i rest IH]; intros min_distance st; simpl.
  - repeat split.
  - destruct (nth_error (landmark_observed st) i) as [[|]|]; simpl.
    + destruct (mahalanobis (score st p m i)) as [Pi|]; simpl.
      * destruct (Rlt_dec Pi min_distance).
        -- apply (IH Pi (set_association st _ _ _)).
        -- apply IH.
      * repeat split.
    + apply IH.
    + repeat split.
Qed.

Lemma data_association_frame st m :
  let st' := final (data_association st m) in
  landmark_indexes st' = landmark_indexes st
  /\ last_timestamp st' = last_timestamp st
  /\ stamps st' = stamps st
  /\ sigma st' = sigma st
  /\ R_noise st' = R_noise st
  /\ Q_noise st' = Q_noise st.
Proof.
  unfold data_association.
  destruct (lookup (landmark_indexes st) (c1 m)) as [idx|]; simpl; [|repeat split].
  destruct (nth_error (landmark_observed st) idx) as [seen|]; simpl; [|repeat split].
  match goal with |- context [association_loop ?s ?d ?p ?m ?x] =>
    destruct (association_loop_frame s d p m x) as (H1 & _ & _ & H4 & H5 & H6 & H7 & H8)
  end.
  rewrite H1, H4, H5, H6, H7, H8. destruct seen; repeat split.
Qed.

(** What data association does to the history and to the flags: nothing on a
    foreign identifier, an out-of-range slot or a landmark seen before, the
    first-sight assignment otherwise. *)
Lemma data_association_states st m :
  let st' := final (data_association st m) in
  (states st' = states st /\ landmark_observed st' = landmark_observed st)
  \/ (exists idx,
        lookup (landmark_indexes st) (c1 m) = Some idx
        /\ nth_error (landmark_observed st) idx = Some false
        /\ states st' = states (initialize_landmark st (current_pose st) m idx)
        /\ landmark_observed st' = set1 (landmark_observed st) idx true).
Proof.
  unfold data_association.
  destruct (lookup (landmark_indexes st) (c1 m)) as [idx|] eqn:Hl; simpl; [|now left].
  destruct (nth_error (landmark_observed st) idx) as [seen|] eqn:Hs; simpl; [|now left].
  match goal with |- context [association_loop ?s ?d ?p ?m ?x] =>
    destruct (association_loop_frame s d p m x) as (_ & H2 & H3 & _)
  end.
  rewrite H2, H3. destruct seen.
  - now left.
  - right. exists idx. repeat split; assumption.
Qed.

Lemma motion_update_ok st control : exists st', motion_update st control = Ok st'.
Proof.
  unfold motion_update. destruct (Rlt_dec _ _); eexists; reflexivity.
Qed.

Lemma measurement_update_foreign st m :
  lookup (landmark_indexes st) (c1 m) = None -> measurement_update st m = Ok st.
Proof. intros Hl. unfold measurement_update. now rewrite Hl. Qed.

(** The initial covariance and the covariance of the prediction. *)
Lemma fold_diag_shape (x : R) (l : list nat) (s0 : mat) (n m : nat) :
  shape s0 n m -> shape (fold_left (fun s i => set2 s i i x) l s0) n m.
Proof.
  revert s0; induction l as [|i l IH]; intros s0 Hs; simpl; [assumption|].
  apply IH. now apply shape_set2.
Qed.

Lemma fold_diag_symmetric (x : R) (l : list nat) (s0 : mat) :
  symmetric s0 -> symmetric (fold_left (fun s i => set2 s i i x) l s0).
Proof.
  revert s0; induction l as [|i l IH]; intros s0 Hs; simpl; [assumption|].
  apply IH. now apply symmetric_set2_diag.
Qed.

Lemma get_fold_diag (x : R) (l : list nat) (s0 : mat) (n a b : nat) :
  shape s0 n n -> Forall (fun i => (i < n)%nat) l ->
  get (fold_left (fun s i => set2 s i i x) l s0) a b
  = if Nat.eqb a b && existsb (Nat.eqb a) l then x else get s0 a b.
Proof.
  revert s0; induction l as [|i l IH]; intros s0 Hs Hl; simpl.
  - now rewrite andb_false_r.
  - inversion Hl as [|? ? Hi Hl']; subst.
    rewrite IH by (auto using shape_set2).
    rewrite (get_set2_diag s0 n) by assumption.
    destruct (Nat.eqb_spec a b) as [->|Hab]; simpl.
    + destruct (Nat.eqb_spec b i) as [->|Hbi]; simpl.
      * now destruct (existsb (Nat.eqb i) l).
      * reflexivity.
    + destruct (Nat.eqb_spec a i) as [->|Hai]; simpl; [|reflexivity].
      destruct (Nat.eqb_spec b i) as [->|Hbi]; [congruence|reflexivity].
Qed.

Lemma shape_initial_sigma (n : nat) : shape (initial_sigma n) n n.
Proof. unfold initial_sigma. apply fold_diag_shape, shape_scale_full. Qed.

Lemma symmetric_initial_sigma (n : nat) : symmetric (initial_sigma n).
Proof. unfold initial_sigma. apply fold_diag_symmetric, symmetric_scale_full. Qed.

Lemma get_initial_sigma (n i j : nat) :
  (i < n)%nat -> (j < n)%nat ->
  get (initial_sigma n) i j
  = if Nat.eqb i j && Nat.leb 3 i then 1e6 else 1e-6 * 1.
Proof.
  intros Hi Hj. unfold initial_sigma.
  rewrite (get_fold_diag _ _ _ n).
  - assert (He : existsb (Nat.eqb i) (seq 3 (n - 3)) = Nat.leb 3 i).
    { destruct (Nat.leb_spec 3 i) as [H3|H3].
      - apply existsb_exists. exists i. split; [apply in_seq; lia|apply Nat.eqb_refl].
      - destruct (existsb _ _) eqn:E; [|reflexivity].
        apply existsb_exists in E. destruct E as [k [Hk Hik]].
        apply in_seq in Hk. apply Nat.eqb_eq in Hik. lia. }
    rewrite He.
    destruct (Nat.eqb i j && Nat.leb 3 i); [reflexivity|].
    unfold scale, full. rewrite rows_mk, cols_mk by lia.
    now rewrite !get_mk.
  - apply shape_scale_full.
  - apply Forall_forall. intros k Hk. apply in_seq in Hk. lia.
Qed.

Lemma shape_motion_jacobian (n : nat) (v delta_t theta : R) :
  shape (motion_jacobian n v delta_t theta) n n.
Proof. unfold motion_jacobian. apply shape_set2, shape_set2, shape_identity. Qed.

(** With no forward velocity the Jacobian of the motion is the identity. *)
Lemma motion_jacobian_at_rest (n : nat) (delta_t theta : R) :
  motion_jacobian n 0 delta_t theta = identity n.
Proof.
  unfold motion_jacobian.
  assert (H02 : get (identity n) 0 2 = - 0 * delta_t * sin theta).
  { destruct (Nat.lt_ge_cases 2 n).
    - unfold identity. rewrite get_mk by lia. simpl. ring.
    - unfold identity. rewrite get_mk_out by lia. ring. }
  rewrite (set2_same _ 0 2) by assumption.
  apply set2_same.
  destruct (Nat.lt_ge_cases 2 n).
  - unfold identity. rewrite get_mk by lia. simpl. ring.
  - unfold identity. rewrite get_mk_out by lia. ring.
Qed.

Lemma shape_add_process_noise (s0 Rn : mat) (n m : nat) :
  shape s0 n m -> shape (add_process_noise s0 Rn) n m.
Proof. intros Hs. unfold add_process_noise. now repeat apply shape_set2. Qed.

Lemma symmetric_add_process_noise (s0 Rn : mat) :
  symmetric s0 -> symmetric (add_process_noise s0 Rn).
Proof. intros Hs. unfold add_process_noise. now repeat apply symmetric_set2_diag. Qed.

(** The three assignments add the diagonal of [R], and only the diagonal, to
    the pose block. *)
Lemma get_add_process_noise (s0 Rn : mat) (n i j : nat) :
  shape s0 n n -> (3 <= n)%nat ->
  get (add_process_noise s0 Rn) i j
  = if Nat.eqb i j && Nat.ltb i 3 then get s0 i i + get Rn i i else get s0 i j.
Proof.
  intros Hs Hn. unfold add_process_noise.
  rewrite (get_set2_diag _ n) by (repeat apply shape_set2; auto; lia).
  rewrite (get_set2_diag _ n) by (repeat apply shape_set2; auto; lia).
  rewrite (get_set2_diag _ n) by (repeat apply shape_set2; auto; lia).
  rewrite !(get_set2_diag _ n) by (repeat apply shape_set2; auto; lia).
  simpl.
  destruct i as [|[|[|i]]]; destruct j as [|[|[|j]]]; simpl; try reflexivity.
  destruct (Nat.eqb_spec i j); reflexivity.
Qed.

(** The event loop's step on a measurement row stops after data association
    when that raises, and otherwise ends with the correction. *)
Lemma process_measurement st data :
  c1 data <> -1 ->
  final (process st data) = final (data_association st data)
  \/ final (process st data)
     = final (measurement_update (final (data_association st data)) data).
Proof.
  intros Hc. unfold process.
  destruct (Req_dec_T (c1 data) (-1)) as [He|_]; [contradiction|].
  destruct (data_association st data) as [st1|e st1]; simpl; auto.
Qed.

Lemma process_motion st data :
  c1 data = -1 -> process st data = motion_update st data.
Proof.
  intros Hc. unfold process.
  destruct (Req_dec_T (c1 data) (-1)) as [_|Hn]; [reflexivity|contradiction].
Qed.

(** The correction either leaves every attribute alone (foreign identifier,
    or an exception) or appends one state and one timestamp. *)
Lemma measurement_update_cases st m :
  final (measurement_update st m) = st
  \/ exists new_state s,
       lookup (landmark_indexes st) (c1 m) <> None
       /\ measurement_update st m
          = Ok (set_motion st (states st ++ [new_state]) (c0 m)
                  (stamps st ++ [c0 m]) s).
Proof.
  unfold measurement_update.
  destruct (lookup (landmark_indexes st) (c1 m)) as [idx|]; [|now left].
  destruct (H_assoc st) as [H|]; [|now left].
  destruct (Psi st) as [P|]; [|now left].
  destruct (difference st) as [d|]; [|now left].
  destruct (inv P) as [Pinv|]; [|now left].
  right. eexists. eexists. split; [discriminate|reflexivity].
Qed.

Lemma motion_update_cases st control :
  (c0 control - last_timestamp st < 0.001 /\ motion_update st control = Ok st)
  \/ exists new_state s,
       ~ c0 control - last_timestamp st < 0.001
       /\ motion_update st control
          = Ok (set_motion st (states st ++ [new_state]) (c0 control)
                  (stamps st ++ [c0 control]) s).
Proof.
  unfold motion_update.
  destruct (Rlt_dec _ _) as [Hd|Hd]; [now left|].
  right. eexists. eexists. split; [assumption|reflexivity].
Qed.

Lemma data_association_first_sight st m idx :
  lookup (landmark_indexes st) (c1 m) = Some idx ->
  nth_error (landmark_observed st) idx = Some false ->
  states (final (data_association st m))
  = states (initialize_landmark st (current_pose st) m idx)
  /\ landmark_observed (final (data_association st m))
     = set1 (landmark_observed st) idx true.
Proof.
  intros Hl Hs. unfold data_association. rewrite Hl, Hs.
  match goal with |- context [association_loop ?s ?d ?p ?m ?x] =>
    destruct (association_loop_frame s d p m x) as (_ & H2 & H3 & _)
  end.
  rewrite H2, H3. split; reflexivity.
Qed.

Lemma lookup_one_landmark : lookup one_landmark 6 = Some 1%nat.
Proof.
  unfold one_landmark, lookup.
  destruct (Req_dec_T 6 6) as [_|Hn]; [reflexivity|now elim Hn].
Qed.

(** The flags change in one place only: data association sets the flag of
    the slot it looked up when that flag is [False]. *)
Lemma process_observed st data :
  landmark_observed (final (process st data)) = landmark_observed st
  \/ exists idx,
       c1 data <> -1
       /\ lookup (landmark_indexes st) (c1 data) = Some idx
       /\ nth_error (landmark_observed st) idx = Some false
       /\ landmark_observed (final (process st data))
          = set1 (landmark_observed st) idx true.
Proof.
  destruct (Req_dec_T (c1 data) (-1)) as [Hc|Hc].
  - left. rewrite (process_motion st data Hc).
    destruct (motion_update_cases st data) as [[_ ->]|(x & s & _ & ->)]; reflexivity.
  - assert (Hm : landmark_observed (final (process st data))
                 = landmark_observed (final (data_association st data))).
    { destruct (process_measurement st data Hc) as [-> | ->]; [reflexivity|].
      destruct (measurement_update_cases (final (data_association st data)) data)
        as [->|(x & s & _ & ->)]; reflexivity. }
    rewrite Hm.
    destruct (data_association_states st data) as [[_ ->]|(idx & Hl & Hs & _ & ->)].
    + now left.
    + right. now exists idx.
Qed.

Lemma process_keeps_observed st data i :
  nth_error (landmark_observed st) i = Some true ->
  nth_error (landmark_observed (final (process st data))) i = Some true.
Proof.
  intros Hi.
  destruct (process_observed st data) as [->|(idx & _ & _ & Hs & ->)]; [assumption|].
  rewrite nth_error_set1_neq; [assumption|]. congruence.
Qed.

Lemma run_keeps_observed data : forall st i,
  nth_error (landmark_observed st) i = Some true ->
  nth_error (landmark_observed (final (run st data))) i = Some true.
Proof.
  induction data as [|d rest IH]; intros st i Hi; simpl; [assumption|].
  pose proof (process_keeps_observed st d i Hi) as Hp.
  destruct (process st d) as [st1|e st1]; simpl in *; auto.
Qed.

End EKFFacts.

(** ** Invariants of the filter *)

Module Invariants.
Import NumPy NumPyFacts EKF EKFFacts.

Lemma dim_pos st : (0 < dim st)%nat.
Proof. unfold dim. lia. Qed.

Lemma Forall_last1 (P : vec -> Prop) (ss : list vec) :
  ss <> [] -> Forall P ss -> P (last1 ss).
Proof.
  intros Hss HP. rewrite Forall_forall in HP. apply HP.
  destruct (exists_last Hss) as [l [x ->]]. rewrite last1_app.
  apply in_or_app. right. now left.
Qed.

Lemma Forall_removelast (P : vec -> Prop) (ss : list vec) :
  Forall P ss -> Forall P (removelast ss).
Proof.
  intros HP. destruct ss as [|a l]; [constructor|].
  assert (Hss : a :: l <> []) by discriminate.
  destruct (exists_last Hss) as [l' [x Hl]]. rewrite Hl in *.
  rewrite removelast_last. apply Forall_app in HP. tauto.
Qed.

Lemma Forall_set_last (P : vec -> Prop) (ss : list vec) (k : nat) (x : R) :
  Forall P ss -> P (set1 (last1 ss) k x) -> Forall P (set_last ss k x).
Proof.
  intros HP Hx. unfold set_last. apply Forall_app. split.
  - now apply Forall_removelast.
  - now constructor.
Qed.

Lemma set_last_nonempty (ss : list vec) (k : nat) (x : R) : set_last ss k x <> [].
Proof. unfold set_last. intros Habs. now apply app_eq_nil in Habs. Qed.

Lemma well_formed_last1 st : well_formed st -> length (last1 (states st)) = dim st.
Proof.
  intros Hwf.
  apply (Forall_last1 (fun s => length s = dim st)); apply Hwf.
Qed.

Lemma well_formed_initialization indexes gt0 Rn Qn :
  well_formed (initialization indexes gt0 Rn Qn).
Proof.
  constructor; unfold initialization, dim;
    cbn [states landmark_observed landmark_indexes sigma H_assoc Psi difference];
    try discriminate.
  - constructor; [|constructor].
    rewrite !length_set1. unfold zeros1. rewrite length_mk1. reflexivity.
  - rewrite repeat_length. lia.
  - apply shape_initial_sigma.
Qed.

Lemma well_formed_set_motion st x t s :
  well_formed st -> length x = dim st -> shape s (dim st) (dim st) ->
  well_formed (set_motion st (states st ++ [x]) t (stamps st ++ [t]) s).
Proof.
  intros Hwf Hx Hs. destruct Hwf. constructor; simpl; auto.
  - intros Habs. now apply app_eq_nil in Habs.
  - apply Forall_app. split; [assumption|]. now constructor.
Qed.

Lemma well_formed_motion_update st control :
  well_formed st -> well_formed (final (motion_update st control)).
Proof.
  intros Hwf. unfold motion_update.
  destruct (Rlt_dec _ _); [assumption|]. simpl final.
  apply well_formed_set_motion; [assumption| |].
  - rewrite !length_set1. now apply well_formed_last1.
  - apply shape_add_process_noise.
    apply (shape_congruence _ _ (dim st) (dim st));
      auto using shape_motion_jacobian, dim_pos. apply Hwf.
Qed.

Lemma shape_F_x (n i : nat) : shape (F_x n i) 5 n.
Proof. unfold F_x. repeat apply shape_set2. apply shape_mk. Qed.

Lemma shape_jacobian (n i : nat) (dx dy : R) : shape (jacobian n i dx dy) 3 n.
Proof.
  unfold jacobian.
  apply (shape_dot_of _ _ 3 5 n); [|apply shape_F_x|lia].
  split; [reflexivity|]. repeat constructor.
Qed.

Lemma shape_cand_H st p m i : shape (cand_H (score st p m i)) 3 (dim st).
Proof. apply shape_jacobian. Qed.

Lemma shape_cand_Psi st p m i :
  shape (sigma st) (dim st) (dim st) -> shape (cand_Psi (score st p m i)) 3 3.
Proof.
  intros Hs. cbn [score cand_Psi]. apply shape_madd; [|lia].
  apply (shape_congruence _ _ 3 (dim st)); auto using shape_jacobian, dim_pos.
Qed.

Lemma well_formed_set_association st p m i :
  well_formed st ->
  well_formed (set_association st (cand_H (score st p m i))
                 (cand_Psi (score st p m i)) (cand_difference (score st p m i))).
Proof.
  intros Hwf. destruct Hwf. constructor; simpl; auto.
  - intros H [= <-]. apply shape_jacobian.
  - intros P [= <-]. now apply (shape_cand_Psi st p m i).
  - intros d [= <-]. reflexivity.
Qed.

Lemma well_formed_association_loop slots p m : forall min_distance st,
  well_formed st -> well_formed (final (association_loop slots min_distance p m st)).
Proof.
  induction slots as [|i rest IH]; intros min_distance st Hwf; simpl; [assumption|].
  destruct (nth_error (landmark_observed st) i) as [[|]|]; simpl; auto.
  destruct (mahalanobis (score st p m i)) as [Pi|]; simpl; auto.
  destruct (Rlt_dec Pi min_distance); auto.
  apply IH. now apply well_formed_set_association.
Qed.

Lemma well_formed_initialize_landmark st p m idx :
  well_formed st -> well_formed (initialize_landmark st p m idx).
Proof.
  intros Hwf. pose proof (well_formed_last1 st Hwf) as Hlast.
  destruct Hwf. constructor; simpl; auto.
  - apply set_last_nonempty.
  - apply Forall_set_last.
    + apply Forall_set_last; [assumption|]. now rewrite length_set1.
    + rewrite last1_set_last. now rewrite !length_set1.
  - now rewrite length_set1.
Qed.

Lemma well_formed_data_association st m :
  well_formed st -> well_formed (final (data_association st m)).
Proof.
  intros Hwf. unfold data_association.
  destruct (lookup (landmark_indexes st) (c1 m)) as [idx|]; [|assumption].
  destruct (nth_error (landmark_observed st) idx) as [[|]|]; [| |assumption].
  - now apply well_formed_association_loop.
  - change (length (landmark_indexes st))
      with (length (landmark_indexes (initialize_landmark st (current_pose st) m idx))).
    now apply well_formed_association_loop, well_formed_initialize_landmark.
Qed.

Lemma well_formed_measurement_update st m :
  well_formed st -> well_formed (final (measurement_update st m)).
Proof.
  intros Hwf. unfold measurement_update.
  destruct (lookup (landmark_indexes st) (c1 m)) as [idx|]; [|assumption].
  destruct (H_assoc st) as [H|]; [|assumption].
  destruct (Psi st) as [P|]; [|assumption].
  destruct (difference st) as [d|]; [|assumption].
  destruct (inv P) as [Pinv|]; [|assumption]. simpl final.
  apply well_formed_set_motion; [assumption| |].
  - unfold vadd. rewrite length_mk1. now apply well_formed_last1.
  - apply shape_correction; [apply Hwf|apply dim_pos].
Qed.

Lemma well_formed_process st data :
  well_formed st -> well_formed (final (process st data)).
Proof.
  intros Hwf. destruct (Req_dec_T (c1 data) (-1)) as [Hc|Hc].
  - rewrite (process_motion st data Hc). now apply well_formed_motion_update.
  - destruct (process_measurement st data Hc) as [-> | ->].
    + now apply well_formed_data_association.
    + now apply well_formed_measurement_update, well_formed_data_association.
Qed.

Lemma well_formed_run data : forall st,
  well_formed st -> well_formed (final (run st data)).
Proof.
  induction data as [|d rest IH]; intros st Hwf; simpl; [assumption|].
  pose proof (well_formed_process st d Hwf) as Hp.
  destruct (process st d) as [st1|e st1]; simpl in *; auto.
Qed.

(** Symmetry of the covariances. *)
Lemma symmetric_cand_Psi st p m i :
  well_formed st -> symmetric_covariances st ->
  symmetric (cand_Psi (score st p m i)).
Proof.
  intros Hwf Hsym. cbn [score cand_Psi].
  apply (symmetric_madd _ _ 3); [|lia| |apply Hsym].
  - apply (shape_congruence _ _ 3 (dim st));
      auto using shape_jacobian, dim_pos. apply Hwf.
  - apply (symmetric_congruence _ _ 3 (dim st));
      auto using shape_jacobian, dim_pos; [apply Hwf|apply Hsym].
Qed.

Lemma symmetric_association_loop slots p m : forall min_distance st,
  well_formed st -> symmetric_covariances st ->
  symmetric_covariances (final (association_loop slots min_distance p m st)).
Proof.
  induction slots as [|i rest IH]; intros min_distance st Hwf Hsym; simpl; [assumption|].
  destruct (nth_error (landmark_observed st) i) as [[|]|]; simpl; auto.
  destruct (mahalanobis (score st p m i)) as [Pi|]; simpl; auto.
  destruct (Rlt_dec Pi min_distance); auto.
  apply IH; [now apply well_formed_set_association|].
  pose proof (symmetric_cand_Psi st p m i Hwf Hsym) as HP.
  destruct Hsym. constructor; auto.
  intros P [= <-]. exact HP.
Qed.

Lemma symmetric_data_association st m :
  well_formed st -> symmetric_covariances st ->
  symmetric_covariances (final (data_association st m)).
Proof.
  intros Hwf Hsym. unfold data_association.
  destruct (lookup (landmark_indexes st) (c1 m)) as [idx|]; [|assumption].
  destruct (nth_error (landmark_observed st) idx) as [[|]|]; [| |assumption].
  - now apply symmetric_association_loop.
  - apply symmetric_association_loop.
    + now apply well_formed_initialize_landmark.
    + destruct Hsym. now constructor.
Qed.

Lemma symmetric_motion_update st control :
  well_formed st -> symmetric_covariances st ->
  symmetric_covariances (final (motion_update st control)).
Proof.
  intros Hwf Hsym. unfold motion_update.
  destruct (Rlt_dec _ _); [assumption|]. simpl final.
  destruct Hsym. constructor; simpl; auto.
  apply symmetric_add_process_noise.
  apply (symmetric_congruence _ _ (dim st) (dim st));
    auto using shape_motion_jacobian, dim_pos. apply Hwf.
Qed.

Lemma symmetric_measurement_update st m :
  well_formed st -> symmetric_covariances st ->
  symmetric_covariances (final (measurement_update st m)).
Proof.
  intros Hwf Hsym. unfold measurement_update.
  destruct (lookup (landmark_indexes st) (c1 m)) as [idx|]; [|assumption].
  destruct (H_assoc st) as [H|] eqn:EH; [|assumption].
  destruct (Psi st) as [P|] eqn:EP; [|assumption].
  destruct (difference st) as [d|]; [|assumption].
  destruct (inv P) as [Pinv|] eqn:EI; [|assumption]. simpl final.
  destruct Hsym as [Hs HQ HP]. constructor; simpl; auto.
  - apply symmetric_correction; auto using dim_pos.
    + apply Hwf.
    + now apply (wf_H st Hwf).
    + now apply (shape_inv P).
    + apply (symmetric_inv P); [|assumption]. now apply HP.
Qed.

Lemma symmetric_process st data :
  well_formed st -> symmetric_covariances st ->
  symmetric_covariances (final (process st data)).
Proof.
  intros Hwf Hsym. destruct (Req_dec_T (c1 data) (-1)) as [Hc|Hc].
  - rewrite (process_motion st data Hc). now apply symmetric_motion_update.
  - destruct (process_measurement st data Hc) as [-> | ->].
    + now apply symmetric_data_association.
    + apply symmetric_measurement_update.
      * now apply well_formed_data_association.
      * now apply symmetric_data_association.
Qed.

Lemma symmetric_run data : forall st,
  well_formed st -> symmetric_covariances st ->
  symmetric_covariances (final (run st data)).
Proof.
  induction data as [|d rest IH]; intros st Hwf Hsym; simpl; [assumption|].
  pose proof (well_formed_process st d Hwf) as Hp.
  pose proof (symmetric_process st d Hwf Hsym) as Hq.
  destruct (process st d) as [st1|e st1]; simpl in *; auto.
Qed.

Lemma symmetric_initialization indexes gt0 Rn Qn :
  symmetric Qn -> symmetric_covariances (initialization indexes gt0 Rn Qn).
Proof.
  intros HQ. constructor; simpl; auto; [apply symmetric_initial_sigma|discriminate].
Qed.

(** Where [LinAlgError] comes from. *)
Lemma mahalanobis_none (c : candidate) :
  mahalanobis c = None <-> det3 (cand_Psi c) = 0.
Proof.
  unfold mahalanobis. rewrite <- inv_none.
  destruct (inv (cand_Psi c)); split; auto; discriminate.
Qed.

Lemma get_jacobian_row2 (n i : nat) (dx dy : R) (k : nat) :
  get (jacobian n i dx dy) 2 k = 0.
Proof.
  destruct (Nat.lt_ge_cases k n) as [Hk|Hk].
  - unfold jacobian. rewrite get_dot.
    + cbn [cols hd length sum_n get nth]. ring.
    + simpl. lia.
    + now rewrite (shape_cols _ 5 n (shape_F_x n i)) by lia.
  - apply (get_out _ 3 n); [apply shape_jacobian|lia].
Qed.

(** A measurement noise whose last row is zero makes every innovation
    covariance singular: the last row of [H] is zero as well. *)
Lemma mahalanobis_singular st p m i :
  well_formed st -> (forall j, get (Q_noise st) 2 j = 0) ->
  mahalanobis (score st p m i) = None.
Proof.
  intros Hwf HQ. apply mahalanobis_none, det3_row2_zero. intros j.
  cbn [score cand_Psi].
  match goal with |- get (madd ?X _) _ _ = _ =>
    assert (HX : shape X 3 3)
      by (apply (shape_congruence _ _ 3 (dim st));
          auto using shape_jacobian, dim_pos; apply Hwf);
    assert (H2 : get X 2 j = 0)
      by (apply (get_congruence_row_zero _ _ 3 (dim st));
          auto using shape_jacobian, dim_pos, get_jacobian_row2; apply Hwf)
  end.
  unfold madd. rewrite (shape_rows _ _ _ HX), (shape_cols _ _ _ HX) by lia.
  destruct (Nat.lt_ge_cases j 3) as [Hj|Hj].
  - rewrite get_mk by lia. rewrite H2, HQ. ring.
  - apply get_mk_out. lia.
Qed.

Lemma association_loop_raises slots p m : forall min_distance st st',
  association_loop slots min_distance p m st = Raise LinAlgError st' ->
  exists i, In i slots /\ det3 (cand_Psi (score st' p m i)) = 0.
Proof.
  induction slots as [|i rest IH]; intros min_distance st st' Hr; simpl in Hr;
    [discriminate|].
  destruct (nth_error (landmark_observed st) i) as [[|]|]; [| |discriminate].
  - destruct (mahalanobis (score st p m i)) as [Pi|] eqn:EM.
    + destruct (Rlt_dec Pi min_distance);
        apply IH in Hr; destruct Hr as (k & Hk & Hd); exists k; split; auto; now right.
    + injection Hr as <-. exists i. split; [now left|]. now apply mahalanobis_none.
  - apply IH in Hr. destruct Hr as (k & Hk & Hd). exists k. split; auto. now right.
Qed.

Lemma data_association_raises st m st' :
  data_association st m = Raise LinAlgError st' ->
  exists i, det3 (cand_Psi (score st' (current_pose st) m i)) = 0.
Proof.
  unfold data_association.
  destruct (lookup (landmark_indexes st) (c1 m)) as [idx|]; [|discriminate].
  destruct (nth_error (landmark_observed st) idx) as [seen|]; [|discriminate].
  intros Hr. apply association_loop_raises in Hr.
  destruct Hr as (i & _ & Hd). now exists i.
Qed.

Lemma measurement_update_raises st m e st' :
  measurement_update st m = Raise e st' ->
  st' = st
  /\ (e = LinAlgError -> exists P, Psi st = Some P /\ det3 P = 0).
Proof.
  unfold measurement_update.
  destruct (lookup (landmark_indexes st) (c1 m)) as [idx|]; [|discriminate].
  destruct (H_assoc st) as [H|]; [|intros [= <- <-]; split; [reflexivity|discriminate]].
  destruct (Psi st) as [P|]; [|intros [= <- <-]; split; [reflexivity|discriminate]].
  destruct (difference st) as [d|]; [|intros [= <- <-]; split; [reflexivity|discriminate]].
  destruct (inv P) as [Pinv|] eqn:EI; [discriminate|].
  intros [= <- <-]. split; [reflexivity|]. intros _. exists P. split; [reflexivity|].
  now apply inv_none.
Qed.

(** An exception of the step is the exception of the run: no later event is
    processed. *)
Lemma run_aborts st d rest e st' :
  process st d = Raise e st' -> run st (d :: rest) = Raise e st'.
Proof. intros Hp. simpl. now rewrite Hp. Qed.

End Invariants.

(** ** The prediction step *)

Module Prediction.
Import NumPy NumPyFacts EKF EKFFacts Scenario.

Lemma motion_update_moved (st : ekf) (control : row) :
  let delta_t := c0 control - last_timestamp st in
  let cur := last1 (states st) in
  let new_state :=
    set1 (set1 (set1 cur 0 (get1 cur 0 + c2 control * cos (get1 cur 2) * delta_t))
               1 (get1 cur 1 + c2 control * sin (get1 cur 2) * delta_t))
         2 (wrap_once (get1 cur 2 + c3 control * delta_t)) in
  let G := motion_jacobian (dim st) (c2 control) delta_t (get1 cur 2) in
  ~ delta_t < 0.001 ->
  motion_update st control
  = Ok (set_motion st (states st ++ [new_state]) (c0 control)
          (stamps st ++ [c0 control])
          (add_process_noise (dot (dot G (sigma st)) (transpose G)) (R_noise st))).
Proof.
  intros delta_t cur new_state G Hd. unfold motion_update. fold delta_t.
  destruct (Rlt_dec delta_t 0.001) as [Hlt|_]; [contradiction|].
  rewrite last2_app. reflexivity.
Qed.

Lemma wrap_once_closed (t : R) :
  - (3 * PI) <= t <= 3 * PI -> - PI <= wrap_once t <= PI.
Proof.
  intros Ht. unfold wrap_once.
  destruct (Rgt_dec t PI); [lra|].
  destruct (Rlt_dec t (- PI)); lra.
Qed.

(** C5.  A motion event whose [delta_t = control[0] - last_timestamp] is
    below the threshold 0.001, negative and zero included, is discarded:
    [motion_update] returns with every attribute (state history, covariance,
    timestamps) as it was, and so does the event loop's step. *)
Theorem motion_update_skip (st : ekf) (control : row) :
  c0 control - last_timestamp st < 0.001 ->
  motion_update st control = Ok st
  /\ (c1 control = -1 -> process st control = Ok st).
Proof.
  intros Hd.
  assert (Hm : motion_update st control = Ok st).
  { unfold motion_update. destruct (Rlt_dec _ _) as [_|Hn]; [reflexivity|contradiction]. }
  split; [exact Hm|].
  intros Hc. unfold process. destruct (Req_dec_T _ _) as [_|Hn]; [exact Hm|contradiction].
Qed.

Lemma motion_update_skip_witness :
  motion_update start (Row (-2) (-1) 1 1) = Ok start
  /\ (c1 (Row (-2) (-1) 1 1) = -1 -> process start (Row (-2) (-1) 1 1) = Ok start).
Proof. apply (motion_update_skip start (Row (-2) (-1) 1 1)). simpl. lra. Defined.

(** C3 (as amended).  After a processed motion event the heading lies in the
    closed interval [[-pi, pi]] whenever the unwrapped heading
    [theta + w * delta_t] is within [3 * pi] of zero (one turn at most beyond
    the interval), which holds for [theta] in [[-pi, pi]] and
    [|w * delta_t| <= 2 * pi]. *)
Theorem motion_update_heading_closed (st : ekf) (control : row) :
  let delta_t := c0 control - last_timestamp st in
  let theta := get1 (last1 (states st)) 2 in
  ~ delta_t < 0.001 ->
  (2 < length (last1 (states st)))%nat ->
  - (3 * PI) <= theta + c3 control * delta_t <= 3 * PI ->
  - PI <= get1 (last1 (states (final (motion_update st control)))) 2 <= PI.
Proof.
  intros delta_t theta Hd Hlen Ht.
  rewrite (motion_update_moved st control Hd).
  unfold final, set_motion; cbn [states]. rewrite last1_app.
  match goal with |- _ <= get1 (set1 ?v 2 ?w) 2 <= _ =>
    replace (get1 (set1 v 2 w) 2) with w
      by (symmetry; apply nth_set1_eq; now rewrite !length_set1)
  end.
  now apply wrap_once_closed.
Qed.

Lemma motion_update_heading_closed_witness :
  - PI <= get1 (last1 (states (final (motion_update start (Row 1 (-1) 1 0.5))))) 2 <= PI.
Proof.
  apply (motion_update_heading_closed start (Row 1 (-1) 1 0.5)).
  - simpl. lra.
  - simpl. lia.
  - simpl. unfold get1. simpl. pose proof PI2_3_2. lra.
Defined.

Lemma states_start : states start = [[0; 0; 0; 0; 0]].
Proof. reflexivity. Qed.

(** C3 (counterexample).  From heading 0, the motion event with [w = -pi]
    and [delta_t = 1] gives the heading [-pi], which is outside
    [(-pi, pi]]: the test [theta_t < -np.pi] is strict. *)
Lemma heading_reaches_minus_pi :
  get1 (last1 (states start)) 2 = 0
  /\ get1 (last1 (states (final (motion_update start (Row 1 (-1) 0 (- PI)))))) 2 = - PI
  /\ ~ (- PI < get1 (last1 (states (final (motion_update start (Row 1 (-1) 0 (- PI)))))) 2 <= PI).
Proof.
  assert (Hd : ~ c0 (Row 1 (-1) 0 (- PI)) - last_timestamp start < 0.001)
    by (simpl; lra).
  rewrite (motion_update_moved start _ Hd).
  unfold final, set_motion; cbn [states]. rewrite last1_app.
  rewrite states_start. unfold last1. cbn [last set1 get1 nth c0 c2 c3].
  replace (last_timestamp start) with 0 by reflexivity.
  assert (Hw : wrap_once (0 + - PI * (1 - 0)) = - PI).
  { unfold wrap_once. pose proof PI_RGT_0.
    destruct (Rgt_dec _ _); [lra|]. destruct (Rlt_dec _ _); lra. }
  rewrite Hw. repeat split; lra.
Qed.

(** The wrap is applied once: from heading 0, [w = 4 * pi] and
    [delta_t = 1] leave the heading at [2 * pi]. *)
Lemma heading_wrapped_once :
  get1 (last1 (states (final (motion_update start (Row 1 (-1) 0 (4 * PI)))))) 2 = 2 * PI.
Proof.
  assert (Hd : ~ c0 (Row 1 (-1) 0 (4 * PI)) - last_timestamp start < 0.001)
    by (simpl; lra).
  rewrite (motion_update_moved start _ Hd).
  unfold final, set_motion; cbn [states]. rewrite last1_app.
  rewrite states_start. unfold last1. cbn [last set1 get1 nth c0 c2 c3].
  replace (last_timestamp start) with 0 by reflexivity.
  unfold wrap_once. pose proof PI_RGT_0.
  destruct (Rgt_dec _ _); lra.
Qed.

(** What the prediction does to the covariance: [G * Sigma * G^T], plus the
    diagonal entries of [R] on the diagonal of the pose block. *)
Lemma motion_update_covariance (st : ekf) (control : row) (i j : nat) :
  let delta_t := c0 control - last_timestamp st in
  let G := motion_jacobian (dim st) (c2 control) delta_t (get1 (last1 (states st)) 2) in
  ~ delta_t < 0.001 ->
  shape (sigma st) (dim st) (dim st) ->
  get (sigma (final (motion_update st control))) i j
  = if Nat.eqb i j && Nat.ltb i 3
    then get (dot (dot G (sigma st)) (transpose G)) i i + get (R_noise st) i i
    else get (dot (dot G (sigma st)) (transpose G)) i j.
Proof.
  intros delta_t G Hd Hs. rewrite (motion_update_moved st control Hd).
  unfold final, set_motion; cbn [sigma]. fold delta_t. fold G.
  assert (HG : shape G (dim st) (dim st)) by apply shape_motion_jacobian.
  assert (Hn : (0 < dim st)%nat) by (unfold dim; lia).
  apply (get_add_process_noise _ _ (dim st)); [|unfold dim; lia].
  apply (shape_dot_of _ _ _ (dim st)); auto.
  - now apply (shape_dot_of _ _ _ (dim st)).
  - now apply shape_transpose_of.
Qed.

(** A motion event with [v = 0] leaves [G] the identity, so the covariance
    only receives the diagonal of [R]. *)
Lemma motion_update_at_rest (st : ekf) (control : row) :
  ~ c0 control - last_timestamp st < 0.001 ->
  c2 control = 0 ->
  shape (sigma st) (dim st) (dim st) ->
  sigma (final (motion_update st control)) = add_process_noise (sigma st) (R_noise st).
Proof.
  intros Hd Hv Hs. rewrite (motion_update_moved st control Hd).
  unfold final, set_motion; cbn [sigma].
  rewrite Hv, motion_jacobian_at_rest, transpose_identity.
  rewrite (dot_identity_l _ _ _ Hs) by (unfold dim; lia).
  rewrite (dot_identity_r _ _ _ Hs) by (unfold dim; lia).
  reflexivity.
Qed.

(** C2 (the code on a process noise that is not diagonal).  With [R_xy],
    whose entry [[0][1]] is 0.5, the motion event [v = 0], [w = 0],
    [delta_t = 1] leaves the state as it was and leaves the covariance entry
    [[0][1]] at its initial value [1e-6]: only [R[0][0]], [R[1][1]] and
    [R[2][2]] are added. *)
Lemma process_noise_off_diagonal_dropped :
  let st := initialization one_landmark origin R_xy I3 in
  let st' := final (motion_update st (Row 1 (-1) 0 0)) in
  get (R_noise st) 0 1 = 0.5
  /\ get (sigma st) 0 1 = 1e-6
  /\ get (sigma st') 0 1 = 1e-6
  /\ get (sigma st') 0 0 = get (sigma st) 0 0 + 1
  /\ last1 (states st') = last1 (states st).
Proof.
  intros st st'.
  assert (Hd : ~ c0 (Row 1 (-1) 0 0) - last_timestamp st < 0.001) by (simpl; lra).
  assert (Hs : shape (sigma st) (dim st) (dim st)) by apply shape_initial_sigma.
  assert (H01 : get (sigma st) 0 1 = 1e-6).
  { change (sigma st) with (initial_sigma 5).
    rewrite get_initial_sigma by lia. simpl. lra. }
  split; [reflexivity|]. split; [exact H01|].
  unfold st'. rewrite (motion_update_at_rest st _ Hd eq_refl Hs).
  rewrite !(get_add_process_noise _ _ (dim st)) by (auto; unfold dim; simpl; lia).
  simpl Nat.eqb. simpl Nat.ltb. cbn [andb].
  split; [exact H01|]. split; [reflexivity|].
  rewrite (motion_update_moved st _ Hd).
  unfold final, set_motion; cbn [states]. rewrite last1_app.
  change (last1 (states st)) with [0; 0; 0; 0; 0].
  change (last_timestamp st) with 0.
  cbn [c0 c2 c3 get1 nth set1].
  assert (Hw : wrap_once (0 + 0 * (1 - 0)) = 0).
  { unfold wrap_once. pose proof PI_RGT_0.
    destruct (Rgt_dec _ _); [lra|]. destruct (Rlt_dec _ _); lra. }
  rewrite Hw. repeat f_equal; ring.
Qed.

End Prediction.

(** ** The history of states and its timestamps *)

Module History.
Import NumPy NumPyFacts EKF EKFFacts Scenario.

Lemma stamped_initialization indexes gt0 Rn Qn :
  stamped (initialization indexes gt0 Rn Qn).
Proof. split; [reflexivity|]. now exists []. Qed.

Lemma stamped_states st : stamped st -> states st <> [].
Proof.
  intros [Hlen [ts Hts]] Hss. rewrite Hss, Hts, length_app in Hlen.
  simpl in Hlen. lia.
Qed.

Lemma stamped_set_motion st x t s :
  stamped st -> stamped (set_motion st (states st ++ [x]) t (stamps st ++ [t]) s).
Proof.
  intros [Hlen _]. split; simpl.
  - rewrite !length_app. simpl. lia.
  - now exists (stamps st).
Qed.

Lemma stamped_motion_update st control :
  stamped st -> stamped (final (motion_update st control)).
Proof.
  intros Hst.
  destruct (motion_update_cases st control) as [[_ ->]|(x & s & _ & ->)]; simpl.
  - assumption.
  - now apply stamped_set_motion.
Qed.

Lemma stamped_data_association st m :
  stamped st -> stamped (final (data_association st m)).
Proof.
  intros Hst. pose proof (stamped_states st Hst) as Hss.
  destruct Hst as [Hlen Hts].
  destruct (data_association_frame st m) as (_ & Ht & Hs & _).
  unfold stamped. rewrite Ht, Hs. split; [|assumption].
  destruct (data_association_states st m) as [[-> _]|(idx & _ & _ & -> & _)].
  - assumption.
  - simpl. rewrite !length_set_last; auto.
    unfold set_last. intros Habs. now apply app_eq_nil in Habs.
Qed.

Lemma stamped_measurement_update st m :
  stamped st -> stamped (final (measurement_update st m)).
Proof.
  intros Hst.
  destruct (measurement_update_cases st m) as [->|(x & s & _ & ->)]; simpl.
  - assumption.
  - now apply stamped_set_motion.
Qed.

Lemma stamped_process st data :
  stamped st -> stamped (final (process st data)).
Proof.
  intros Hst. destruct (Req_dec_T (c1 data) (-1)) as [Hc|Hc].
  - rewrite (process_motion st data Hc). now apply stamped_motion_update.
  - destruct (process_measurement st data Hc) as [-> | ->].
    + now apply stamped_data_association.
    + now apply stamped_measurement_update, stamped_data_association.
Qed.

Lemma stamped_run data : forall st, stamped st -> stamped (final (run st data)).
Proof.
  induction data as [|d rest IH]; intros st Hst; simpl; [assumption|].
  pose proof (stamped_process st d Hst) as Hp.
  destruct (process st d) as [st1|e st1]; simpl in *; auto.
Qed.

(** The correction stamps the state it appends with the measurement's time,
    and the next motion event is skipped or applied by its distance to that
    time. *)
Lemma measurement_update_restamps st m st' :
  lookup (landmark_indexes st) (c1 m) <> None ->
  measurement_update st m = Ok st' ->
  last_timestamp st' = c0 m
  /\ forall control, motion_update st' control = Ok st' <-> c0 control - c0 m < 0.001.
Proof.
  intros Hl Hm.
  assert (Ht : last_timestamp st' = c0 m).
  { unfold measurement_update in Hm.
    destruct (lookup (landmark_indexes st) (c1 m)); [|contradiction].
    destruct (H_assoc st); [|discriminate].
    destruct (Psi st); [|discriminate].
    destruct (difference st); [|discriminate].
    destruct (inv _); [|discriminate].
    injection Hm as <-. reflexivity. }
  split; [exact Ht|]. intros control. rewrite <- Ht.
  destruct (motion_update_cases st' control) as [[Hd ->]|(x & s & Hd & ->)].
  - tauto.
  - split; [|tauto]. intros Heq. injection Heq as Heq.
    apply (f_equal states) in Heq. simpl in Heq.
    apply (f_equal (@length _)) in Heq. rewrite length_app in Heq.
    simpl in Heq. lia.
Qed.

(** A correction whose association is assigned and whose [Psi] is inverted
    returns: it appends one state, stamps it with the measurement's time and
    makes that time [last_timestamp]. *)
Lemma measurement_update_returns st m H P d Pinv :
  lookup (landmark_indexes st) (c1 m) <> None ->
  H_assoc st = Some H -> Psi st = Some P -> difference st = Some d ->
  inv P = Some Pinv ->
  exists st',
    measurement_update st m = Ok st'
    /\ last_timestamp st' = c0 m
    /\ stamps st' = stamps st ++ [c0 m]
    /\ length (states st') = S (length (states st)).
Proof.
  intros Hl HH HP Hd Hinv. unfold measurement_update.
  destruct (lookup (landmark_indexes st) (c1 m)); [|contradiction].
  rewrite HH, HP, Hd, Hinv. eexists. split; [reflexivity|].
  cbn [set_motion last_timestamp stamps states].
  rewrite length_app. simpl. repeat split. lia.
Qed.

(** A motion event after a state stamped [t]: skipped exactly when it is
    less than 0.001 after [t], and otherwise applied over the time since
    [t]. *)
Lemma motion_update_since st control :
  let delta_t := c0 control - last_timestamp st in
  (motion_update st control = Ok st <-> delta_t < 0.001)
  /\ (~ delta_t < 0.001 ->
      exists st',
        motion_update st control = Ok st'
        /\ last_timestamp st' = c0 control
        /\ stamps st' = stamps st ++ [c0 control]
        /\ length (states st') = S (length (states st))
        /\ ((2 < length (last1 (states st)))%nat ->
            get1 (last1 (states st')) 0
            = get1 (last1 (states st)) 0
              + c2 control * cos (get1 (last1 (states st)) 2) * delta_t)).
Proof.
  intros delta_t. split.
  - destruct (motion_update_cases st control) as [[Hd ->]|(x & s & Hd & ->)].
    + tauto.
    + split; [|tauto]. intros Heq. injection Heq as Heq.
      apply (f_equal states) in Heq. simpl in Heq.
      apply (f_equal (@length _)) in Heq. rewrite length_app in Heq.
      simpl in Heq. lia.
  - intros Hd. unfold motion_update. fold delta_t.
    destruct (Rlt_dec delta_t 0.001) as [Hlt|_]; [contradiction|].
    eexists. split; [reflexivity|].
    cbn [set_motion last_timestamp stamps states].
    rewrite length_app. simpl length. repeat split; [lia|].
    intros Hlen. rewrite last1_app.
    destruct (last1 (states st)) as [|a [|b [|c rest]]]; simpl in Hlen; try lia.
    reflexivity.
Qed.

(** C10.  After initialization and after every event of any run, the list of
    timestamps is as long as the history of states and ends with
    [last_timestamp].  A measurement event whose association is assigned
    and whose [Psi] is inverted is corrected: the event returns with one
    more state, stamped with the measurement's time, which becomes
    [last_timestamp].  The motion event that follows is then skipped exactly
    when it is less than 0.001 after that measurement, and is otherwise
    applied over the time since the measurement, not since the previous
    motion event. *)
Theorem timestamps_follow_history indexes gt0 Rn Qn data :
  let st := final (ExtendedKalmanFilterSLAM indexes gt0 Rn Qn data) in
  length (stamps st) = length (states st)
  /\ (exists ts, stamps st = ts ++ [last_timestamp st])
  /\ (forall m st',
        lookup (landmark_indexes st) (c1 m) <> None ->
        measurement_update st m = Ok st' ->
        last_timestamp st' = c0 m
        /\ forall control,
             motion_update st' control = Ok st' <-> c0 control - c0 m < 0.001)
  /\ (forall m st1 H P d Pinv,
        c1 m <> -1 ->
        lookup (landmark_indexes st) (c1 m) <> None ->
        data_association st m = Ok st1 ->
        H_assoc st1 = Some H -> Psi st1 = Some P -> difference st1 = Some d ->
        inv P = Some Pinv ->
        exists st',
          process st m = Ok st'
          /\ last_timestamp st' = c0 m
          /\ stamps st' = stamps st ++ [c0 m]
          /\ length (stamps st') = length (states st')
          /\ length (states st') = S (length (states st))
          /\ forall control,
               (motion_update st' control = Ok st' <-> c0 control - c0 m < 0.001)
               /\ (~ c0 control - c0 m < 0.001 ->
                   exists st'',
                     motion_update st' control = Ok st''
                     /\ last_timestamp st'' = c0 control
                     /\ stamps st'' = stamps st' ++ [c0 control]
                     /\ length (states st'') = S (length (states st'))
                     /\ ((2 < length (last1 (states st')))%nat ->
                         get1 (last1 (states st'')) 0
                         = get1 (last1 (states st')) 0
                           + c2 control * cos (get1 (last1 (states st')) 2)
                             * (c0 control - c0 m)))).
Proof.
  intros st.
  pose proof (stamped_run data _ (stamped_initialization indexes gt0 Rn Qn)) as Hst.
  fold (ExtendedKalmanFilterSLAM indexes gt0 Rn Qn data) in Hst. fold st in Hst.
  destruct Hst as [Hlen Hts].
  split; [exact Hlen|]. split; [exact Hts|].
  split; [intros m st'; apply measurement_update_restamps|].
  intros m st1 H P d Pinv Hc Hl Hda HH HP Hd Hinv.
  pose proof (data_association_frame st m) as Hf.
  pose proof (stamped_data_association st m (conj Hlen Hts)) as [Hlen1 _].
  rewrite Hda in Hf, Hlen1. simpl in Hf, Hlen1.
  destruct Hf as (Hidx & _ & Hstamps & _).
  assert (Hl1 : lookup (landmark_indexes st1) (c1 m) <> None) by now rewrite Hidx.
  destruct (measurement_update_returns st1 m H P d Pinv Hl1 HH HP Hd Hinv)
    as (st' & Hmu & Ht & Hs & Hn).
  exists st'. split.
  { unfold process. destruct (Req_dec_T (c1 m) (-1)) as [He|_]; [contradiction|].
    rewrite Hda. exact Hmu. }
  split; [exact Ht|]. split; [now rewrite Hs, Hstamps|].
  split; [rewrite Hs, Hn, length_app; simpl; lia|].
  split; [rewrite Hn; rewrite Hstamps in Hlen1; lia|].
  intros control. rewrite <- Ht. apply motion_update_since.
Qed.

(** What data association does to the history: no entry is added, the
    entries before the last are kept, and the last differs at most in the two
    coordinates of a landmark seen for the first time. *)
Lemma data_association_history st m :
  states st <> [] ->
  exists cur,
    states (final (data_association st m)) = removelast (states st) ++ [cur]
    /\ length cur = length (last1 (states st))
    /\ forall k, get1 cur k <> get1 (last1 (states st)) k ->
         exists idx,
           lookup (landmark_indexes st) (c1 m) = Some idx
           /\ nth_error (landmark_observed st) idx = Some false
           /\ (k = 2 * idx + 1 \/ k = 2 * idx + 2)%nat.
Proof.
  intros Hss.
  destruct (data_association_states st m) as [[-> _]|(idx & Hl & Hs & -> & _)].
  - exists (last1 (states st)). split; [now rewrite removelast_app_last1|].
    split; [reflexivity|]. intros k Hk. now elim Hk.
  - simpl. eexists. split.
    + unfold set_last at 1. rewrite removelast_set_last. reflexivity.
    + rewrite last1_set_last. split; [now rewrite !length_set1|].
      intros k Hk. exists idx. split; [assumption|]. split; [assumption|].
      destruct (Nat.eq_dec k (2 * idx + 1)) as [|H1]; [now left|].
      destruct (Nat.eq_dec k (2 * idx + 2)) as [|H2]; [now right|].
      elim Hk. unfold get1. rewrite !nth_set1_neq by auto. reflexivity.
Qed.

Lemma process_history st data :
  states st <> [] ->
  exists tail, tail <> [] /\ states (final (process st data)) = removelast (states st) ++ tail.
Proof.
  intros Hss. destruct (Req_dec_T (c1 data) (-1)) as [Hc|Hc].
  - rewrite (process_motion st data Hc).
    destruct (motion_update_cases st data) as [[_ ->]|(x & s & _ & ->)]; simpl.
    + exists [last1 (states st)]. split; [discriminate|].
      now rewrite removelast_app_last1.
    + exists [last1 (states st); x]. split; [discriminate|].
      rewrite <- (removelast_app_last1 (states st) Hss) at 1.
      now rewrite <- app_assoc.
  - destruct (data_association_history st data Hss) as (cur & Hcur & _).
    destruct (process_measurement st data Hc) as [-> | ->].
    + exists [cur]. split; [discriminate|assumption].
    + destruct (measurement_update_cases (final (data_association st data)) data)
        as [->|(x & s & _ & ->)]; simpl.
      * exists [cur]. split; [discriminate|assumption].
      * exists [cur; x]. split; [discriminate|].
        rewrite Hcur. now rewrite <- app_assoc.
Qed.

Lemma run_history data : forall st,
  states st <> [] ->
  exists tail, tail <> [] /\ states (final (run st data)) = removelast (states st) ++ tail.
Proof.
  induction data as [|d rest IH]; intros st Hss; simpl.
  - exists [last1 (states st)]. split; [discriminate|].
    now rewrite removelast_app_last1.
  - destruct (process_history st d Hss) as (t1 & Ht1 & Hp).
    destruct (process st d) as [st1|e st1]; simpl in *.
    + assert (Hss1 : states st1 <> []).
      { rewrite Hp. intros Habs. apply app_eq_nil in Habs. tauto. }
      destruct (IH st1 Hss1) as (t2 & Ht2 & Hr).
      exists (removelast t1 ++ t2). split.
      * intros Habs. apply app_eq_nil in Habs. tauto.
      * rewrite Hr, Hp. rewrite removelast_app by assumption.
        now rewrite <- app_assoc.
    + now exists t1.
Qed.

(** C9 (as amended).  The motion update and the correction only append to
    the history; data association adds no entry, keeps every entry before
    the last, and changes the last entry at most in the two coordinates of a
    landmark seen for the first time; so over any run every entry but the
    most recent one stays as it is. *)
Theorem history_frozen_below_last (st : ekf) :
  states st <> [] ->
  (forall control, exists extra,
      states (final (motion_update st control)) = states st ++ extra)
  /\ (forall m, exists extra,
        states (final (measurement_update st m)) = states st ++ extra)
  /\ (forall m, exists cur,
        states (final (data_association st m)) = removelast (states st) ++ [cur]
        /\ length cur = length (last1 (states st))
        /\ forall k, get1 cur k <> get1 (last1 (states st)) k ->
             exists idx,
               lookup (landmark_indexes st) (c1 m) = Some idx
               /\ nth_error (landmark_observed st) idx = Some false
               /\ (k = 2 * idx + 1 \/ k = 2 * idx + 2)%nat)
  /\ (forall data, exists tail,
        tail <> []
        /\ states (final (run st data)) = removelast (states st) ++ tail).
Proof.
  intros Hss. repeat split.
  - intros control.
    destruct (motion_update_cases st control) as [[_ ->]|(x & s & _ & ->)]; simpl.
    + exists []. now rewrite app_nil_r.
    + now exists [x].
  - intros m.
    destruct (measurement_update_cases st m) as [->|(x & s & _ & ->)]; simpl.
    + exists []. now rewrite app_nil_r.
    + now exists [x].
  - intros m. now apply data_association_history.
  - intros data. now apply run_history.
Qed.

Lemma history_frozen_below_last_witness :
  (forall control, exists extra,
      states (final (motion_update start control)) = states start ++ extra)
  /\ (forall m, exists extra,
        states (final (measurement_update start m)) = states start ++ extra)
  /\ (forall m, exists cur,
        states (final (data_association start m)) = removelast (states start) ++ [cur]
        /\ length cur = length (last1 (states start))
        /\ forall k, get1 cur k <> get1 (last1 (states start)) k ->
             exists idx,
               lookup (landmark_indexes start) (c1 m) = Some idx
               /\ nth_error (landmark_observed start) idx = Some false
               /\ (k = 2 * idx + 1 \/ k = 2 * idx + 2)%nat)
  /\ (forall data, exists tail,
        tail <> []
        /\ states (final (run start data)) = removelast (states start) ++ tail).
Proof. apply (history_frozen_below_last start). simpl. discriminate. Defined.

(** C9 (counterexample).  The history of [start] is its one initial entry,
    with 0 at index 3.  The measurement of barcode 6 at range 2 and bearing 0
    adds no entry and leaves that same entry with 2 at index 3: the
    first-sight assignment writes into [self.states[-1]]. *)
Lemma first_sight_rewrites_history :
  length (states start) = 1%nat
  /\ get1 (nth 0 (states start) []) 3 = 0
  /\ length (states (final (data_association start (Row 1 6 2 0)))) = 1%nat
  /\ get1 (nth 0 (states (final (data_association start (Row 1 6 2 0)))) []) 3 = 2.
Proof.
  split; [reflexivity|]. split; [reflexivity|].
  destruct (data_association_first_sight start (Row 1 6 2 0) 1) as [-> _].
  - exact lookup_one_landmark.
  - reflexivity.
  - split; [reflexivity|].
    cbn. rewrite (Rplus_0_l 0), cos_0. ring.
Qed.

End History.

(** ** Data association *)

Module Association.
Import NumPy NumPyFacts EKF EKFFacts Invariants Scenario.

(** C6.  The first measurement of a tracked landmark (its flag is [False])
    sets the flag and writes the inverse observation
    [x + r * cos (b + theta)], [y + r * sin (b + theta)], computed from the
    current pose, into the landmark's two entries of the current state,
    touching no other flag.  A flag that is set stays set through every
    later event, and a flag only goes from [False] to [True] in the data
    association of a measurement of that very slot. *)
Theorem first_sight_initializes (st : ekf) (m : row) (idx : nat) :
  lookup (landmark_indexes st) (c1 m) = Some idx ->
  nth_error (landmark_observed st) idx = Some false ->
  (2 * idx + 2 < length (last1 (states st)))%nat ->
  let p := current_pose st in
  let st' := final (data_association st m) in
  nth_error (landmark_observed st') idx = Some true
  /\ get1 (last1 (states st')) (2 * idx + 1) = x_t p + c2 m * cos (c3 m + theta_t p)
  /\ get1 (last1 (states st')) (2 * idx + 2) = y_t p + c2 m * sin (c3 m + theta_t p)
  /\ (forall i, i <> idx ->
        nth_error (landmark_observed st') i = nth_error (landmark_observed st) i)
  /\ (forall (s : ekf) (data : list row) (i : nat),
        nth_error (landmark_observed s) i = Some true ->
        nth_error (landmark_observed (final (run s data))) i = Some true)
  /\ (forall (s : ekf) (d : row) (i : nat),
        nth_error (landmark_observed s) i = Some false ->
        nth_error (landmark_observed (final (process s d))) i = Some true ->
        c1 d <> -1 /\ lookup (landmark_indexes s) (c1 d) = Some i).
Proof.
  intros Hl Hs Hlen p st'.
  destruct (data_association_first_sight st m idx Hl Hs) as [Hst Hobs].
  unfold st'. rewrite Hst, Hobs.
  assert (Hi : (idx < length (landmark_observed st))%nat)
    by (apply nth_error_Some; congruence).
  split; [now apply nth_error_set1_eq|].
  unfold initialize_landmark; cbn [states set_landmark].
  rewrite !last1_set_last. unfold get1.
  split; [|split; [|split; [|split]]].
  - rewrite nth_set1_neq by lia. apply nth_set1_eq. lia.
  - apply nth_set1_eq. rewrite length_set1. lia.
  - intros i Hi'. apply nth_error_set1_neq. congruence.
  - intros s data i. apply run_keeps_observed.
  - intros s d i Hf Ht.
    destruct (process_observed s d) as [He|(k & Hc & Hk & _ & He)];
      rewrite He in Ht; [congruence|].
    destruct (Nat.eq_dec k i) as [->|Hki]; [now split|].
    rewrite nth_error_set1_neq in Ht by assumption. congruence.
Qed.

Lemma first_sight_initializes_witness :
  let m := Row 1 6 2 0 in
  let p := current_pose start in
  let st' := final (data_association start m) in
  nth_error (landmark_observed st') 1 = Some true
  /\ get1 (last1 (states st')) (2 * 1 + 1) = x_t p + c2 m * cos (c3 m + theta_t p)
  /\ get1 (last1 (states st')) (2 * 1 + 2) = y_t p + c2 m * sin (c3 m + theta_t p)
  /\ (forall i, i <> 1%nat ->
        nth_error (landmark_observed st') i = nth_error (landmark_observed start) i)
  /\ (forall (s : ekf) (data : list row) (i : nat),
        nth_error (landmark_observed s) i = Some true ->
        nth_error (landmark_observed (final (run s data))) i = Some true)
  /\ (forall (s : ekf) (d : row) (i : nat),
        nth_error (landmark_observed s) i = Some false ->
        nth_error (landmark_observed (final (process s d))) i = Some true ->
        c1 d <> -1 /\ lookup (landmark_indexes s) (c1 d) = Some i).
Proof.
  apply (first_sight_initializes start (Row 1 6 2 0) 1).
  - exact lookup_one_landmark.
  - reflexivity.
  - simpl. lia.
Defined.

Lemma data_association_singular :
  data_association singular_start sighting = Raise LinAlgError singular_seen.
Proof.
  assert (Hwf : well_formed singular_seen)
    by apply well_formed_initialize_landmark, well_formed_initialization.
  assert (HQ : forall j, get (Q_noise singular_seen) 2 j = 0).
  { intros j. change (Q_noise singular_seen) with Q_zero.
    destruct j as [|[|[|[|j]]]]; reflexivity. }
  pose proof (mahalanobis_singular singular_seen (current_pose singular_start)
                sighting 1 Hwf HQ) as Hm.
  unfold data_association.
  change (lookup (landmark_indexes singular_start) (c1 sighting))
    with (lookup one_landmark 6).
  rewrite lookup_one_landmark.
  change (nth_error (landmark_observed singular_start) 1) with (Some false).
  change (seq 1 (length (landmark_indexes singular_start))) with [1%nat].
  cbv iota. fold singular_seen. cbn [association_loop].
  change (nth_error (landmark_observed singular_seen) 1) with (Some true).
  cbv iota. now rewrite Hm.
Qed.

Lemma process_singular :
  process singular_start sighting = Raise LinAlgError singular_seen.
Proof.
  unfold process.
  destruct (Req_dec_T (c1 sighting) (-1)) as [Hc|_]; [simpl in Hc; lra|].
  now rewrite data_association_singular.
Qed.

(** With [inverse := inv] the methods with an open inverse are the methods
    of the filter. *)
Lemma association_loop_with_inv slots p m : forall min_distance st,
  association_loop_with inv slots min_distance p m st
  = association_loop slots min_distance p m st.
Proof.
  induction slots as [|i rest IH]; intros min_distance st;
    cbn [association_loop_with association_loop]; [reflexivity|].
  destruct (nth_error (landmark_observed st) i) as [[|]|];
    [|apply IH|reflexivity].
  unfold mahalanobis_with, mahalanobis.
  destruct (inv (cand_Psi (score st p m i))); [|reflexivity].
  destruct (Rlt_dec _ min_distance); apply IH.
Qed.

Lemma process_with_inv st d : process_with inv st d = process st d.
Proof.
  unfold process_with, process, data_association_with, data_association.
  destruct (Req_dec_T (c1 d) (-1)); [reflexivity|].
  destruct (lookup (landmark_indexes st) (c1 d)); [|reflexivity].
  destruct (nth_error (landmark_observed st) n0); [|reflexivity].
  rewrite association_loop_with_inv. reflexivity.
Qed.

Lemma run_with_inv data : forall st, run_with inv st data = run st data.
Proof.
  induction data as [|d rest IH]; intros st; simpl; [reflexivity|].
  rewrite process_with_inv. destruct (process st d); simpl; auto.
Qed.

(** Whatever the inverse does, the loop of data association writes [H],
    [Psi] and [difference] only. *)
Lemma association_loop_with_frame inverse slots p m : forall min_distance st,
  let st' := final (association_loop_with inverse slots min_distance p m st) in
  landmark_indexes st' = landmark_indexes st
  /\ landmark_observed st' = landmark_observed st
  /\ states st' = states st
  /\ last_timestamp st' = last_timestamp st
  /\ stamps st' = stamps st
  /\ sigma st' = sigma st.
Proof.
  induction slots as [|i rest IH]; intros min_distance st; simpl;
    [repeat split|].
  destruct (nth_error (landmark_observed st) i) as [[|]|];
    [|apply IH|simpl; repeat split].
  destruct (mahalanobis_with inverse (score st p m i)) as [Pi|];
    [|simpl; repeat split].
  destruct (Rlt_dec Pi min_distance); [|apply IH].
  apply (IH Pi (set_association st _ _ _)).
Qed.

(** The loop raises [LinAlgError] as soon as the inverse raises on the
    innovation covariance of an observed slot, whatever the slots before it
    gave. *)
Lemma association_loop_with_aborts inverse p m slots : forall min_distance st i,
  (forall j, In j slots -> nth_error (landmark_observed st) j <> None) ->
  In i slots ->
  nth_error (landmark_observed st) i = Some true ->
  inverse (cand_Psi (score st p m i)) = None ->
  exists st', association_loop_with inverse slots min_distance p m st
              = Raise LinAlgError st'.
Proof.
  induction slots as [|j rest IH]; intros min_distance st i Hflags Hin Hobs Hinv;
    [contradiction|].
  simpl. destruct (nth_error (landmark_observed st) j) as [[|]|] eqn:Hj.
  - unfold mahalanobis_with.
    destruct (inverse (cand_Psi (score st p m j))) as [Pinv|] eqn:Hpj;
      [|now eexists].
    assert (Hrest : In i rest).
    { destruct Hin as [->|Hin]; [congruence|exact Hin]. }
    assert (Hflags' : forall k, In k rest -> nth_error (landmark_observed st) k <> None)
      by (intros k Hk; apply Hflags; now right).
    destruct (Rlt_dec _ min_distance).
    + apply (IH _ (set_association st _ _ _) i); assumption.
    + now apply (IH _ st i).
  - assert (Hrest : In i rest).
    { destruct Hin as [->|Hin]; [congruence|exact Hin]. }
    apply (IH _ st i); try assumption.
    intros k Hk. apply Hflags. now right.
  - exfalso. apply (Hflags j); [now left|exact Hj].
Qed.

Lemma run_with_aborts inverse st d rest e st' :
  process_with inverse st d = Raise e st' ->
  run_with inverse st (d :: rest) = Raise e st'.
Proof. intros Hp. simpl. now rewrite Hp. Qed.

Lemma length_first_sight st p m idx (seen : bool) :
  states st <> [] ->
  length (states (if seen then st else initialize_landmark st p m idx))
  = length (states st).
Proof.
  intros Hss. destruct seen; [reflexivity|].
  simpl. rewrite !length_set_last; auto using set_last_nonempty.
Qed.

Lemma inv_singular_sighting :
  inv (cand_Psi (score singular_seen (current_pose singular_start) sighting 1)) = None.
Proof.
  assert (Hwf : well_formed singular_seen)
    by apply well_formed_initialize_landmark, well_formed_initialization.
  assert (HQ : forall j, get (Q_noise singular_seen) 2 j = 0).
  { intros j. change (Q_noise singular_seen) with Q_zero.
    destruct j as [|[|[|[|j]]]]; reflexivity. }
  pose proof (mahalanobis_singular singular_seen (current_pose singular_start)
                sighting 1 Hwf HQ) as Hm.
  apply inv_none. now apply mahalanobis_none.
Qed.

(** C4 (as amended).  Whatever makes [np.linalg.inv] raise [LinAlgError]:
    when it raises on the innovation covariance of an observed slot in the
    loop of data association, or on the [Psi] kept for the correction, the
    exception leaves the method and the loop of [__init__]: the run ends
    with [LinAlgError] at that measurement, whatever events follow.  At that
    point the covariance, the timestamps and the length of the history are
    those before the measurement; the flags and the states are those left
    by the first-sight branch, so they are unchanged too unless the
    measurement was the first sight of its landmark.  The statement is for
    any function [inverse] in the place of [np.linalg.inv], and so for the
    filter's own run. *)
Theorem singular_innovation_aborts (inverse : mat -> option mat)
        (st : ekf) (m : row) (rest : list row) (idx : nat) (seen : bool) :
  let p := current_pose st in
  let st1 := if seen then st else initialize_landmark st p m idx in
  states st <> [] ->
  length (landmark_observed st) = S (length (landmark_indexes st)) ->
  c1 m <> -1 ->
  lookup (landmark_indexes st) (c1 m) = Some idx ->
  nth_error (landmark_observed st) idx = Some seen ->
  ((exists i, In i (seq 1 (length (landmark_indexes st)))
              /\ nth_error (landmark_observed st1) i = Some true
              /\ inverse (cand_Psi (score st1 p m i)) = None)
   \/ (exists st2 H P d,
         data_association_with inverse st m = Ok st2
         /\ H_assoc st2 = Some H /\ Psi st2 = Some P /\ difference st2 = Some d
         /\ inverse P = None)) ->
  exists st',
    run_with inverse st (m :: rest) = Raise LinAlgError st'
    /\ (inverse = inv -> run st (m :: rest) = Raise LinAlgError st')
    /\ sigma st' = sigma st
    /\ stamps st' = stamps st
    /\ last_timestamp st' = last_timestamp st
    /\ length (states st') = length (states st)
    /\ landmark_observed st' = landmark_observed st1
    /\ states st' = states st1.
Proof.
  intros p st1 Hss Hlen Hc Hl Hseen Hcause.
  assert (Hda : data_association_with inverse st m
                = association_loop_with inverse (seq 1 (length (landmark_indexes st)))
                    1e16 p m st1).
  { unfold data_association_with. now rewrite Hl, Hseen. }
  pose proof (association_loop_with_frame inverse
                (seq 1 (length (landmark_indexes st))) p m 1e16 st1) as Hf.
  cbv zeta in Hf. rewrite <- Hda in Hf.
  assert (Hst1 : sigma st1 = sigma st /\ stamps st1 = stamps st
                 /\ last_timestamp st1 = last_timestamp st
                 /\ length (states st1) = length (states st)).
  { repeat split; try (subst st1; destruct seen; reflexivity).
    apply length_first_sight, Hss. }
  destruct Hst1 as (Hs1 & Ht1 & Hl1 & Hn1).
  assert (Hproc : forall st',
            process_with inverse st m = Raise LinAlgError st' ->
            st' = final (data_association_with inverse st m) ->
            exists st'0,
              run_with inverse st (m :: rest) = Raise LinAlgError st'0
              /\ (inverse = inv -> run st (m :: rest) = Raise LinAlgError st'0)
              /\ sigma st'0 = sigma st /\ stamps st'0 = stamps st
              /\ last_timestamp st'0 = last_timestamp st
              /\ length (states st'0) = length (states st)
              /\ landmark_observed st'0 = landmark_observed st1
              /\ states st'0 = states st1).
  { intros st' Hp ->. eexists. split; [apply run_with_aborts, Hp|].
    split.
    { intros Hi. rewrite <- run_with_inv, <- Hi. apply run_with_aborts, Hp. }
    destruct Hf as (_ & Ho & Hs & Ht & Hts & Hsig).
    rewrite Hsig, Hts, Ht, Hs, Ho. repeat split; assumption. }
  destruct Hcause as [(i & Hin & Hobs & Hinv)|(st2 & H & P & d & Hok & HH & HP & Hd & Hinv)].
  - assert (Hflags : forall j, In j (seq 1 (length (landmark_indexes st))) ->
                       nth_error (landmark_observed st1) j <> None).
    { intros j Hj. apply in_seq in Hj. apply nth_error_Some.
      subst st1. destruct seen; simpl; [|rewrite length_set1]; lia. }
    destruct (association_loop_with_aborts inverse p m _ 1e16 st1 i Hflags Hin Hobs Hinv)
      as (st' & Hraise).
    apply (Hproc st').
    + unfold process_with. destruct (Req_dec_T (c1 m) (-1)); [contradiction|].
      now rewrite Hda, Hraise.
    + now rewrite Hda, Hraise.
  - apply (Hproc st2).
    + unfold process_with. destruct (Req_dec_T (c1 m) (-1)); [contradiction|].
      rewrite Hok. simpl. unfold measurement_update_with.
      destruct Hf as (Hidx & _). rewrite Hok in Hidx. simpl in Hidx.
      replace (landmark_indexes st1) with (landmark_indexes st) in Hidx
        by (subst st1; now destruct seen).
      rewrite Hidx, Hl, HH, HP, Hd, Hinv. reflexivity.
    + now rewrite Hok.
Qed.

Lemma singular_innovation_aborts_witness :
  exists st',
    run_with inv singular_start [sighting; Row 2 (-1) 1 0] = Raise LinAlgError st'
    /\ (inv = inv ->
        run singular_start [sighting; Row 2 (-1) 1 0] = Raise LinAlgError st')
    /\ sigma st' = sigma singular_start
    /\ stamps st' = stamps singular_start
    /\ last_timestamp st' = last_timestamp singular_start
    /\ length (states st') = length (states singular_start)
    /\ landmark_observed st' = landmark_observed singular_seen
    /\ states st' = states singular_seen.
Proof.
  apply (singular_innovation_aborts inv singular_start sighting [Row 2 (-1) 1 0] 1 false).
  - simpl. discriminate.
  - reflexivity.
  - simpl. lra.
  - exact lookup_one_landmark.
  - reflexivity.
  - left. exists 1%nat. split; [now left|]. split; [reflexivity|].
    exact inv_singular_sighting.
Defined.

(** C4 (counterexample).  With the measurement noise [Q_zero] the first
    measurement has a singular innovation covariance.  The run ends with
    [LinAlgError] at that measurement (the motion event after it is never
    applied), and the attributes are not those before the measurement: the
    landmark's flag is set and its entry of the current state is written. *)
Lemma singular_innovation_stops_run :
  inv (cand_Psi (score singular_seen (current_pose singular_start) sighting 1)) = None
  /\ run singular_start [sighting; Row 2 (-1) 1 0] = Raise LinAlgError singular_seen
  /\ nth_error (landmark_observed singular_start) 1 = Some false
  /\ nth_error (landmark_observed singular_seen) 1 = Some true
  /\ get1 (last1 (states singular_start)) 3 = 0
  /\ get1 (last1 (states singular_seen)) 3 = 2.
Proof.
  split.
  { assert (Hwf : well_formed singular_seen)
      by apply well_formed_initialize_landmark, well_formed_initialization.
    assert (HQ : forall j, get (Q_noise singular_seen) 2 j = 0).
    { intros j. change (Q_noise singular_seen) with Q_zero.
      destruct j as [|[|[|[|j]]]]; reflexivity. }
    pose proof (mahalanobis_singular singular_seen (current_pose singular_start)
                  sighting 1 Hwf HQ) as Hm.
    apply inv_none. now apply mahalanobis_none. }
  split; [apply run_aborts, process_singular|].
  split; [reflexivity|]. split; [reflexivity|]. split; [reflexivity|].
  cbn. rewrite (Rplus_0_l 0), cos_0. ring.
Qed.

(** What the loop of data association selects.  Either no observed slot has
    a distance below [min_distance], and the attributes are left as they
    were; or the slot [j] it keeps has a distance below [min_distance] that
    is strictly below the distances of the observed slots visited before it
    and at most those of the observed slots visited after it: the minimum,
    first encountered. *)
Lemma association_loop_selects p m slots : forall min_distance st st',
  association_loop slots min_distance p m st = Ok st' ->
  (st' = st
   /\ forall i, In i slots -> nth_error (landmark_observed st) i = Some true ->
        exists Pi, mahalanobis (score st p m i) = Some Pi /\ min_distance <= Pi)
  \/ (exists l1 j l2 Pj,
        slots = l1 ++ j :: l2
        /\ nth_error (landmark_observed st) j = Some true
        /\ mahalanobis (score st p m j) = Some Pj
        /\ Pj < min_distance
        /\ st' = set_association st (cand_H (score st p m j))
                   (cand_Psi (score st p m j)) (cand_difference (score st p m j))
        /\ (forall i, In i l1 -> nth_error (landmark_observed st) i = Some true ->
             exists Pi, mahalanobis (score st p m i) = Some Pi /\ Pj < Pi)
        /\ (forall i, In i l2 -> nth_error (landmark_observed st) i = Some true ->
             exists Pi, mahalanobis (score st p m i) = Some Pi /\ Pj <= Pi)).
Proof.
  induction slots as [|i rest IH]; intros min_distance st st' Hr; simpl in Hr.
  - left. injection Hr as <-. split; [reflexivity|]. intros i [].
  - destruct (nth_error (landmark_observed st) i) as [[|]|] eqn:Hobs; [| |discriminate].
    + destruct (mahalanobis (score st p m i)) as [Pi|] eqn:HPi; [|discriminate].
      destruct (Rlt_dec Pi min_distance) as [Hlt|Hge].
      * apply IH in Hr.
        destruct Hr as [[-> Hall]|(l1 & j & l2 & Pj & -> & Hj & HPj & Hlt' & -> & H1 & H2)].
        -- right. exists [], i, rest, Pi. repeat split; auto.
           intros k [].
        -- right. exists (i :: l1), j, l2, Pj. repeat split; auto.
           ++ lra.
           ++ intros k [<-|Hk] Hko; [|now apply H1].
              exists Pi. split; [assumption|lra].
      * apply IH in Hr.
        destruct Hr as [[-> Hall]|(l1 & j & l2 & Pj & -> & Hj & HPj & Hlt' & -> & H1 & H2)].
        -- left. split; [reflexivity|].
           intros k [<-|Hk] Hko; [|now apply Hall].
           exists Pi. split; [assumption|lra].
        -- right. exists (i :: l1), j, l2, Pj. repeat split; auto.
           intros k [<-|Hk] Hko; [|now apply H1].
           exists Pi. split; [assumption|lra].
    + apply IH in Hr.
      destruct Hr as [[-> Hall]|(l1 & j & l2 & Pj & -> & Hj & HPj & Hlt' & -> & H1 & H2)].
      * left. split; [reflexivity|].
        intros k [<-|Hk] Hko; [congruence|now apply Hall].
      * right. exists (i :: l1), j, l2, Pj. repeat split; auto.
        intros k [<-|Hk] Hko; [congruence|now apply H1].
Qed.

(** Evaluation of arrays of known entries: unfold the array operations down
    to sums and products of reals, then compare entry by entry. *)
Ltac eval_arrays :=
  cbv [dot dot_mv dot_vm dot_vv vadd madd msub scale transpose identity zeros
       zeros1 full mk mk1 rows cols get get1 set1 set2 sum_n nth hd map seq
       length fold_left initial_sigma F_x jacobian adj3 det3
       Nat.add Nat.mul Nat.sub Nat.eqb H_facing Q_main R_main sigma_start
       Psi_first Psi_first_inv sigma_corrected Psi_outlier].
Ltac list_eq :=
  repeat match goal with
         | |- cons _ _ = cons _ _ => apply f_equal2
         | |- @eq (list _) nil nil => reflexivity
         end.

Lemma inv_Psi_first : inv Psi_first = Some Psi_first_inv.
Proof.
  unfold inv. destruct (Req_dec_T (det3 Psi_first) 0) as [Hd|_].
  - exfalso. revert Hd. eval_arrays. lra.
  - f_equal. eval_arrays. list_eq; field; lra.
Qed.

Lemma sigma_corrected_eq :
  dot (msub (identity 5)
         (dot (dot (dot sigma_start (transpose H_facing)) Psi_first_inv) H_facing))
      sigma_start
  = sigma_corrected.
Proof. eval_arrays. list_eq; field; lra. Qed.

Lemma Psi_outlier_eq :
  madd (dot (dot H_facing sigma_corrected) (transpose H_facing)) Q_main = Psi_outlier.
Proof. eval_arrays. list_eq; field; lra. Qed.

Lemma Psi_outlier_00_bounds :
  0 < 1e6 + (1e6 - 1e-6) - (1e6 - 1e-6) * (1e6 - 1e-6) / (2e6 - 1e-6) < 2e6.
Proof. lra. Qed.

Lemma inv_Psi_outlier : inv Psi_outlier = Some Psi_outlier_inv.
Proof.
  pose proof Psi_outlier_00_bounds as Hb.
  unfold inv. destruct (Req_dec_T (det3 Psi_outlier) 0) as [Hd|_].
  - exfalso. revert Hd. unfold Psi_outlier, det3, get. cbn [nth].
    set (p := 1e6 + (1e6 - 1e-6) - (1e6 - 1e-6) * (1e6 - 1e-6) / (2e6 - 1e-6)) in *.
    nra.
  - f_equal. unfold Psi_outlier, Psi_outlier_inv, scale, adj3, det3, mk, rows, cols, get. cbn [length hd map seq nth].
    set (p := 1e6 + (1e6 - 1e-6) - (1e6 - 1e-6) * (1e6 - 1e-6) / (2e6 - 1e-6)) in *.
    list_eq; field; lra.
Qed.

Lemma mahalanobis_outlier_bound :
  1e16 <= dot_vv (dot_vm [1e12 - 1; 0; 0] Psi_outlier_inv) [1e12 - 1; 0; 0].
Proof.
  pose proof Psi_outlier_00_bounds as Hb.
  unfold Psi_outlier_inv, dot_vv, dot_vm, mk1, cols, get, get1. cbn [length hd map seq nth sum_n].
  set (p := 1e6 + (1e6 - 1e-6) - (1e6 - 1e-6) * (1e6 - 1e-6) / (2e6 - 1e-6)) in *.
  assert (Hi : / 2e6 < / p) by (apply Rinv_lt_contravar; nra).
  nra.
Qed.

Lemma sqrt_facing : sqrt ((1 - 0) ^ 2 + (0 - 0) ^ 2) = 1.
Proof. replace ((1 - 0) ^ 2 + (0 - 0) ^ 2) with 1 by ring. apply sqrt_1. Qed.

Lemma arctan2_facing : arctan2 (0 - 0) (1 - 0) = 0.
Proof.
  unfold arctan2. destruct (Rlt_dec 0 (1 - 0)) as [_|Hn]; [|lra].
  replace ((0 - 0) / (1 - 0)) with 0 by field. apply atan_0.
Qed.

Lemma jacobian_facing : jacobian 5 1 (1 - 0) (0 - 0) = H_facing.
Proof. eval_arrays. rewrite sqrt_facing. list_eq; field. Qed.

Lemma initial_sigma_one_landmark : initial_sigma 5 = sigma_start.
Proof. eval_arrays. list_eq; field. Qed.

Lemma Psi_first_eq :
  madd (dot (dot H_facing sigma_start) (transpose H_facing)) Q_main = Psi_first.
Proof. eval_arrays. list_eq; field. Qed.

Lemma first_sight_main :
  initialize_landmark main_start (current_pose main_start) first_reading 1 = main_seen.
Proof.
  unfold initialize_landmark, set_landmark, main_seen, main_start, initialization.
  cbn [landmark_indexes landmark_observed states last_timestamp stamps sigma
       R_noise Q_noise H_assoc Psi difference length one_landmark Nat.add Nat.mul].
  rewrite initial_sigma_one_landmark. f_equal.
  cbv [set_last last1 last removelast app current_pose states x_t y_t theta_t
       get1 nth set1 zeros1 mk1 map seq origin c0 c1 c2 c3 first_reading
       Nat.add Nat.mul].
  rewrite (Rplus_0_l 0), cos_0, sin_0. list_eq; ring.
Qed.

(** The score of slot 1 when the robot is at the origin with heading 0 and
    the landmark is estimated at (1, 0). *)
Lemma score_facing (st : ekf) (t r : R) :
  last1 (states st) = [0; 0; 0; 1; 0] ->
  length (landmark_indexes st) = 1%nat ->
  score st (Pose 0 0 0) (Row t 6 r 0) 1
  = Candidate H_facing (madd (dot (dot H_facing (sigma st)) (transpose H_facing)) (Q_noise st))
      [r - 1; 0; 0].
Proof.
  intros Hlast Hlen. unfold score, dim. rewrite Hlast, Hlen.
  cbn [get1 nth x_t y_t theta_t c2 c3 Nat.mul Nat.add].
  rewrite jacobian_facing, sqrt_facing, arctan2_facing.
  f_equal. list_eq; ring.
Qed.

Lemma mahalanobis_zero (H P : mat) (d : vec) :
  inv P <> None -> (forall k, get1 d k = 0) ->
  mahalanobis (Candidate H P d) = Some 0.
Proof.
  intros Hinv Hd. unfold mahalanobis. cbn [cand_Psi cand_difference].
  destruct (inv P) as [Pinv|]; [|now elim Hinv].
  f_equal. unfold dot_vv.
  rewrite (sum_n_ext _ (fun _ => 0)); [apply sum_n_zero|].
  intros k _. rewrite Hd. ring.
Qed.

Lemma data_association_first_reading :
  data_association main_start first_reading = Ok main_associated.
Proof.
  unfold data_association.
  change (lookup (landmark_indexes main_start) (c1 first_reading))
    with (lookup one_landmark 6).
  rewrite lookup_one_landmark.
  change (nth_error (landmark_observed main_start) 1) with (Some false).
  change (seq 1 (length (landmark_indexes main_start))) with [1%nat].
  cbv iota. rewrite first_sight_main.
  change (current_pose main_start) with (Pose 0 0 0).
  cbn [association_loop].
  change (nth_error (landmark_observed main_seen) 1) with (Some true). cbv iota.
  unfold first_reading. rewrite (score_facing main_seen 1 1 eq_refl eq_refl).
  change (sigma main_seen) with sigma_start. change (Q_noise main_seen) with Q_main.
  rewrite Psi_first_eq.
  rewrite mahalanobis_zero.
  - destruct (Rlt_dec 0 1e16) as [_|Hn]; [|exfalso; lra].
    cbn [cand_H cand_Psi cand_difference]. unfold main_associated. do 2 f_equal.
    list_eq; ring.
  - rewrite inv_Psi_first. discriminate.
  - intros [|[|[|k]]]; cbn; try ring. now destruct k.
Qed.

Lemma measurement_update_first_reading :
  measurement_update main_associated first_reading = Ok main_corrected.
Proof.
  unfold measurement_update.
  change (lookup (landmark_indexes main_associated) (c1 first_reading))
    with (lookup one_landmark 6).
  rewrite lookup_one_landmark.
  change (H_assoc main_associated) with (Some H_facing).
  change (Psi main_associated) with (Some Psi_first).
  change (difference main_associated) with (Some [0; 0; 0]).
  cbv iota. rewrite inv_Psi_first.
  rewrite vadd_zero
    by (apply dot_mv_zero; intros [|[|[|k]]]; try reflexivity; now destruct k).
  change (sigma main_associated) with sigma_start. change (dim main_associated) with 5%nat.
  rewrite sigma_corrected_eq. reflexivity.
Qed.

Lemma process_first_reading : process main_start first_reading = Ok main_corrected.
Proof.
  unfold process.
  destruct (Req_dec_T (c1 first_reading) (-1)) as [Hc|_]; [simpl in Hc; lra|].
  rewrite data_association_first_reading. simpl bind.
  apply measurement_update_first_reading.
Qed.

Lemma score_outlier :
  score main_corrected (current_pose main_corrected) outlier 1
  = Candidate H_facing Psi_outlier [1e12 - 1; 0; 0].
Proof.
  change (current_pose main_corrected) with (Pose 0 0 0). unfold outlier.
  rewrite (score_facing main_corrected 2 1e12 eq_refl eq_refl).
  change (sigma main_corrected) with sigma_corrected. change (Q_noise main_corrected) with Q_main.
  now rewrite Psi_outlier_eq.
Qed.

(** C1 (the code on an outlying reading).  With the noise matrices of
    [__main__], the first reading (range 1, bearing 0) initializes slot 1, is
    associated with it and corrected.  For the second reading (range 1e12)
    slot 1 is observed and is the only candidate, with innovation
    [(1e12 - 1, 0, 0)] and a Mahalanobis distance of at least 1e16; the test
    [Pi < min_distance] against the initial [1e16] fails, so data association
    returns with [H], [Psi] and [difference] as the first reading left them,
    a zero innovation, and these are what the correction receives. *)
Lemma outlier_not_associated :
  process main_start first_reading = Ok main_corrected
  /\ nth_error (landmark_observed main_corrected) 1 = Some true
  /\ (exists Pi,
        mahalanobis (score main_corrected (current_pose main_corrected) outlier 1) = Some Pi
        /\ 1e16 <= Pi)
  /\ cand_difference (score main_corrected (current_pose main_corrected) outlier 1) = [1e12 - 1; 0; 0]
  /\ data_association main_corrected outlier = Ok main_corrected
  /\ difference main_corrected = Some [0; 0; 0].
Proof.
  split; [exact process_first_reading|]. split; [reflexivity|].
  assert (HPi : mahalanobis (score main_corrected (current_pose main_corrected) outlier 1)
                = Some (dot_vv (dot_vm [1e12 - 1; 0; 0] Psi_outlier_inv) [1e12 - 1; 0; 0])).
  { rewrite score_outlier. unfold mahalanobis. cbn [cand_Psi cand_difference].
    now rewrite inv_Psi_outlier. }
  split; [eexists; split; [exact HPi|exact mahalanobis_outlier_bound]|].
  split; [now rewrite score_outlier|].
  split; [|reflexivity].
  unfold data_association.
  change (lookup (landmark_indexes main_corrected) (c1 outlier)) with (lookup one_landmark 6).
  rewrite lookup_one_landmark.
  change (nth_error (landmark_observed main_corrected) 1) with (Some true).
  change (seq 1 (length (landmark_indexes main_corrected))) with [1%nat].
  cbv iota. cbn [association_loop].
  change (nth_error (landmark_observed main_corrected) 1) with (Some true). cbv iota.
  rewrite HPi.
  destruct (Rlt_dec _ 1e16) as [Hlt|_]; [|reflexivity].
  pose proof mahalanobis_outlier_bound. lra.
Qed.

End Association.

(** ** The correction step and the covariance *)

Module Correction.
Import NumPy NumPyFacts EKF EKFFacts Invariants Scenario Association.

Lemma symmetric_I3 : symmetric I3.
Proof.
  apply (symmetric_of_shape _ 3).
  - split; [reflexivity|repeat constructor].
  - intros i j Hi Hj.
    destruct i as [|[|[|i]]]; try lia; destruct j as [|[|[|j]]]; try lia; reflexivity.
Qed.

(** C7.  From a filter whose arrays have the sizes of [initialization] and
    whose covariance, measurement noise and kept innovation covariance are
    symmetric, the covariance is symmetric after a prediction step, after a
    measurement's association and correction, and at the end of every run of
    events, whether it returns or raises. *)
Theorem covariance_stays_symmetric (st : ekf) :
  well_formed st -> symmetric_covariances st ->
  (forall control, symmetric (sigma (final (motion_update st control))))
  /\ (forall m,
        symmetric (sigma (final (measurement_update (final (data_association st m)) m))))
  /\ (forall data, symmetric (sigma (final (run st data)))).
Proof.
  intros Hwf Hsym. repeat split.
  - intros control. now apply symmetric_motion_update.
  - intros m. apply symmetric_measurement_update.
    + now apply well_formed_data_association.
    + now apply symmetric_data_association.
  - intros data. now apply symmetric_run.
Qed.

Lemma covariance_stays_symmetric_witness :
  (forall control, symmetric (sigma (final (motion_update start control))))
  /\ (forall m,
        symmetric (sigma (final (measurement_update (final (data_association start m)) m))))
  /\ (forall data, symmetric (sigma (final (run start data)))).
Proof.
  apply (covariance_stays_symmetric start).
  - apply well_formed_initialization.
  - apply symmetric_initialization. exact symmetric_I3.
Defined.


(** *** Positive definite innovation covariances *)
















(** *** The scenario of the wrapped bearing *)

















End Correction.

(** ** The timestamps of a corrected measurement *)

Module Restamping.
Import NumPy NumPyFacts EKF EKFFacts Scenario History Association.

Lemma timestamps_follow_history_witness :
  exists st',
    process main_start first_reading = Ok st'
    /\ last_timestamp st' = c0 first_reading
    /\ stamps st' = stamps main_start ++ [c0 first_reading]
    /\ length (stamps st') = length (states st')
    /\ length (states st') = S (length (states main_start))
    /\ forall control,
         (motion_update st' control = Ok st'
          <-> c0 control - c0 first_reading < 0.001)
         /\ (~ c0 control - c0 first_reading < 0.001 ->
             exists st'',
               motion_update st' control = Ok st''
               /\ last_timestamp st'' = c0 control
               /\ stamps st'' = stamps st' ++ [c0 control]
               /\ length (states st'') = S (length (states st'))
               /\ ((2 < length (last1 (states st')))%nat ->
                   get1 (last1 (states st'')) 0
                   = get1 (last1 (states st')) 0
                     + c2 control * cos (get1 (last1 (states st')) 2)
                       * (c0 control - c0 first_reading))).
Proof.
  pose proof (timestamps_follow_history one_landmark origin R_main Q_main []) as Hall.
  cbv zeta in Hall. destruct Hall as (_ & _ & _ & Hret).
  apply (Hret first_reading main_associated H_facing Psi_first [0; 0; 0] Psi_first_inv).
  - simpl. lra.
  - change (lookup one_landmark 6 <> None). rewrite lookup_one_landmark. discriminate.
  - exact data_association_first_reading.
  - reflexivity.
  - reflexivity.
  - reflexivity.
  - exact inv_Psi_first.
Defined.

End Restamping.

(** ** Whole runs: sizes, foreign measurements, missing association *)

Module Runs.
Import NumPy NumPyFacts EKF EKFFacts Invariants Scenario.

Lemma process_indexes st d :
  landmark_indexes (final (process st d)) = landmark_indexes st.
Proof.
  destruct (Req_dec_T (c1 d) (-1)) as [Hc|Hc].
  - rewrite (process_motion st d Hc).
    destruct (motion_update_cases st d) as [[_ ->]|(x & s & _ & ->)]; reflexivity.
  - destruct (data_association_frame st d) as (Hi & _).
    destruct (process_measurement st d Hc) as [-> | ->]; [exact Hi|].
    destruct (measurement_update_cases (final (data_association st d)) d)
      as [->|(x & s & _ & ->)]; exact Hi.
Qed.

Lemma run_indexes data : forall st,
  landmark_indexes (final (run st data)) = landmark_indexes st.
Proof.
  induction data as [|d rest IH]; intros st; simpl; [reflexivity|].
  pose proof (process_indexes st d) as Hp.
  destruct (process st d) as [st1|e st1]; simpl in *; [|exact Hp].
  now rewrite IH.
Qed.

(** X1.  After [initialization] and any sequence of events, whether the run
    returns or raises, the dict of landmarks is the one given, every state
    of the history has [3 + 2 * L] entries, the covariance is square of that
    size, there are [L + 1] flags, and a kept association has a 3 by
    [3 + 2 * L] Jacobian, a 3 by 3 innovation covariance and an innovation of
    3 entries. *)
Theorem sizes_are_kept indexes gt0 Rn Qn data :
  let st := final (ExtendedKalmanFilterSLAM indexes gt0 Rn Qn data) in
  landmark_indexes st = indexes /\ well_formed st.
Proof.
  intros st. split.
  - unfold st, ExtendedKalmanFilterSLAM. now rewrite run_indexes.
  - apply well_formed_run, well_formed_initialization.
Qed.

(** A measurement row whose subject is not a key of the dict. *)
Lemma process_foreign st d :
  c1 d <> -1 -> lookup (landmark_indexes st) (c1 d) = None -> process st d = Ok st.
Proof.
  intros Hc Hl. unfold process.
  destruct (Req_dec_T (c1 d) (-1)) as [He|_]; [contradiction|].
  unfold data_association. rewrite Hl. simpl.
  unfold measurement_update. now rewrite Hl.
Qed.

(** X2.  Measurements of subjects that are not in the dict of landmarks
    (other robots) change nothing: a run gives the same result, state
    history and exceptions included, as the run without those rows. *)
Theorem foreign_measurements_are_skipped data : forall st,
  run st data = run st (filter (fun d => negb (foreign (landmark_indexes st) d)) data).
Proof.
  induction data as [|d rest IH]; intros st; [reflexivity|].
  cbn [filter]. unfold foreign at 1.
  destruct (Req_dec_T (c1 d) (-1)) as [Hc|Hc].
  - cbn [negb run]. destruct (process st d) as [st1|e st1] eqn:Hp; simpl; [|reflexivity].
    rewrite (IH st1).
    replace (landmark_indexes st1) with (landmark_indexes st); [reflexivity|].
    pose proof (process_indexes st d) as Hi. rewrite Hp in Hi. now symmetry.
  - destruct (lookup (landmark_indexes st) (c1 d)) as [idx|] eqn:Hl.
    + cbn [negb run]. destruct (process st d) as [st1|e st1] eqn:Hp; simpl; [|reflexivity].
      rewrite (IH st1).
      replace (landmark_indexes st1) with (landmark_indexes st); [reflexivity|].
      pose proof (process_indexes st d) as Hi. rewrite Hp in Hi. now symmetry.
    + cbn [negb run]. rewrite (process_foreign st d Hc Hl). simpl. apply IH.
Qed.

Lemma all_or_none_association_loop slots p m : forall min_distance st,
  association_all_or_none st ->
  association_all_or_none (final (association_loop slots min_distance p m st)).
Proof.
  induction slots as [|i rest IH]; intros min_distance st Hst; simpl; [assumption|].
  destruct (nth_error (landmark_observed st) i) as [[|]|]; simpl; auto.
  destruct (mahalanobis (score st p m i)) as [Pi|]; simpl; auto.
  destruct (Rlt_dec Pi min_distance); auto.
  apply IH. right. simpl. repeat split; discriminate.
Qed.

Lemma all_or_none_process st d :
  association_all_or_none st -> association_all_or_none (final (process st d)).
Proof.
  intros Hst.
  assert (Hda : association_all_or_none (final (data_association st d))).
  { unfold data_association.
    destruct (lookup (landmark_indexes st) (c1 d)) as [idx|]; [|assumption].
    destruct (nth_error (landmark_observed st) idx) as [[|]|]; [| |assumption];
      now apply all_or_none_association_loop. }
  destruct (Req_dec_T (c1 d) (-1)) as [Hc|Hc].
  - rewrite (process_motion st d Hc).
    destruct (motion_update_cases st d) as [[_ ->]|(x & s & _ & ->)]; assumption.
  - destruct (process_measurement st d Hc) as [-> | ->]; [assumption|].
    destruct (measurement_update_cases (final (data_association st d)) d)
      as [->|(x & s & _ & ->)]; assumption.
Qed.

Lemma process_attribute_error st d st' :
  association_all_or_none st ->
  process st d = Raise AttributeError st' ->
  H_assoc st' = None /\ Psi st' = None /\ difference st' = None.
Proof.
  intros Hst Hp. unfold process in Hp.
  destruct (Req_dec_T (c1 d) (-1)) as [Hc|Hc].
  - destruct (motion_update_ok st d) as [x Hx]. congruence.
  - assert (Hda : association_all_or_none (final (data_association st d))).
    { pose proof (all_or_none_process st d Hst) as Ha.
      destruct (process_measurement st d Hc) as [He|He]; [now rewrite <- He|].
      unfold data_association in *.
      destruct (lookup (landmark_indexes st) (c1 d)) as [idx|]; [|assumption].
      destruct (nth_error (landmark_observed st) idx) as [[|]|]; [| |assumption];
        now apply all_or_none_association_loop. }
    destruct (data_association st d) as [st1|e st1] eqn:Eda; simpl in Hp, Hda.
    + unfold measurement_update in Hp.
      destruct (lookup (landmark_indexes st1) (c1 d)); [|discriminate].
      destruct Hda as [(H1 & H2 & H3)|(H1 & H2 & H3)].
      * rewrite H1 in Hp. injection Hp as <-. auto.
      * destruct (H_assoc st1); [|now elim H1].
        destruct (Psi st1); [|now elim H2].
        destruct (difference st1); [|now elim H3].
        destruct (inv _); discriminate.
    + injection Hp as -> ->. exfalso.
      unfold data_association in Eda.
      destruct (lookup (landmark_indexes st) (c1 d)) as [idx|]; [|discriminate].
      destruct (nth_error (landmark_observed st) idx) as [seen|]; [|discriminate].
      revert Eda. generalize 1e16.
      generalize (if seen then st
                  else initialize_landmark st (current_pose st) d idx).
      induction (seq 1 (length (landmark_indexes st))) as [|i rest IH];
        intros s0 r Hr; simpl in Hr; [discriminate|].
      destruct (nth_error (landmark_observed s0) i) as [[|]|]; [| |discriminate].
      * destruct (mahalanobis (score s0 (current_pose st) d i)); [|discriminate].
        destruct (Rlt_dec _ _); eapply IH; eassumption.
      * eapply IH; eassumption.
Qed.

(** From [initialization], a run that ends in [AttributeError] has none of
    [H], [Psi] and [difference] assigned. *)
Lemma attribute_error_before_first_association indexes gt0 Rn Qn data st' :
  ExtendedKalmanFilterSLAM indexes gt0 Rn Qn data = Raise AttributeError st' ->
  H_assoc st' = None /\ Psi st' = None /\ difference st' = None.
Proof.
  unfold ExtendedKalmanFilterSLAM.
  assert (H0 : association_all_or_none (initialization indexes gt0 Rn Qn))
    by (left; repeat split).
  revert H0. generalize (initialization indexes gt0 Rn Qn).
  induction data as [|d rest IH]; intros st Hst Hr; simpl in Hr; [discriminate|].
  pose proof (all_or_none_process st d Hst) as Hp.
  destruct (process st d) as [st1|e st1] eqn:Ep; simpl in Hr, Hp.
  - now apply (IH st1).
  - injection Hr as -> ->. now apply (process_attribute_error st d).
Qed.

Lemma present_association_loop slots p m : forall min_distance st,
  association_present st ->
  association_present (final (association_loop slots min_distance p m st)).
Proof.
  induction slots as [|i rest IH]; intros min_distance st Hst; simpl; [assumption|].
  destruct (nth_error (landmark_observed st) i) as [[|]|]; simpl; auto.
  destruct (mahalanobis (score st p m i)) as [Pi|]; simpl; auto.
  destruct (Rlt_dec Pi min_distance); auto.
  apply IH. repeat split; discriminate.
Qed.

Lemma present_process st d :
  association_present st -> association_present (final (process st d)).
Proof.
  intros Hst.
  assert (Hda : association_present (final (data_association st d))).
  { unfold data_association.
    destruct (lookup (landmark_indexes st) (c1 d)) as [idx|]; [|assumption].
    destruct (nth_error (landmark_observed st) idx) as [[|]|]; [| |assumption];
      now apply present_association_loop. }
  destruct (Req_dec_T (c1 d) (-1)) as [Hc|Hc].
  - rewrite (process_motion st d Hc).
    destruct (motion_update_cases st d) as [[_ ->]|(x & s & _ & ->)]; assumption.
  - destruct (process_measurement st d Hc) as [-> | ->]; [assumption|].
    destruct (measurement_update_cases (final (data_association st d)) d)
      as [->|(x & s & _ & ->)]; assumption.
Qed.

(** X3.  Once an association has been kept ([H], [Psi] and [difference] are
    assigned), no later event makes the correction raise [AttributeError]:
    the attributes are never removed, and a measurement that keeps no slot
    is corrected with the ones of an earlier measurement. *)
Theorem association_stays_present (st : ekf) (data : list row) :
  association_present st ->
  association_present (final (run st data))
  /\ is_attribute_error (run st data) = false.
Proof.
  revert st. induction data as [|d rest IH]; intros st Hst; simpl.
  - split; [assumption|reflexivity].
  - pose proof (present_process st d Hst) as Hp.
    destruct (process st d) as [st1|e st1] eqn:Ep; simpl in Hp |- *.
    + now apply IH.
    + split; [assumption|].
      destruct e; try reflexivity. exfalso.
      destruct (process_attribute_error st d st1) as (H1 & _); [|assumption|].
      * right. exact Hst.
      * destruct Hp as (Hp & _). contradiction.
Qed.

Lemma association_stays_present_witness :
  association_present (final (run main_associated [first_reading; outlier]))
  /\ is_attribute_error (run main_associated [first_reading; outlier]) = false.
Proof.
  apply (association_stays_present main_associated [first_reading; outlier]).
  repeat split; discriminate.
Defined.

End Runs.

(** ** The initial attributes and the predicted pose *)

Module Pose.
Import NumPy NumPyFacts EKF EKFFacts Invariants Scenario Prediction.

(** X4.  [initialization] starts the history with one state, the ground
    truth pose followed by zeros, stamped with the ground truth time; no
    landmark is flagged; and the covariance is [1e6] on the diagonal of the
    landmark entries and [1e-6] everywhere else, the pose block included. *)
Theorem initialization_values indexes gt0 Rn Qn :
  let st := initialization indexes gt0 Rn Qn in
  let n := (3 + 2 * length indexes)%nat in
  states st = [c1 gt0 :: c2 gt0 :: c3 gt0 :: repeat 0 (2 * length indexes)]
  /\ stamps st = [c0 gt0]
  /\ last_timestamp st = c0 gt0
  /\ landmark_observed st = repeat false (S (length indexes))
  /\ (forall i j, (i < n)%nat -> (j < n)%nat ->
        get (sigma st) i j = if Nat.eqb i j && Nat.leb 3 i then 1e6 else 1e-6)
  /\ symmetric (sigma st).
Proof.
  intros st n. unfold st, initialization.
  cbn [states stamps last_timestamp landmark_observed sigma].
  split; [|split; [reflexivity|split; [reflexivity|split; [|split]]]].
  - f_equal. unfold zeros1, mk1. cbn [Nat.add seq map set1].
    do 3 f_equal. generalize 3%nat. induction (2 * length indexes)%nat as [|k IH];
      intros a; simpl; [reflexivity|]. f_equal. apply IH.
  - f_equal. lia.
  - intros i j Hi Hj. rewrite get_initial_sigma by assumption.
    destruct (Nat.eqb i j && Nat.leb 3 i); [reflexivity|ring].
  - apply symmetric_initial_sigma.
Qed.

Lemma get_motion_jacobian_low (n : nat) (v delta_t theta : R) (i l : nat) :
  (2 <= i)%nat ->
  get (motion_jacobian n v delta_t theta) i l = get (identity n) i l.
Proof.
  intros Hi. unfold motion_jacobian.
  rewrite !get_set2_neq by (left; lia). reflexivity.
Qed.

(** Rows 2 and beyond of [G] are rows of the identity, so [G * S * G^T]
    agrees with [S] there. *)
Lemma get_prediction_low (S : mat) (n : nat) (v delta_t theta : R) (i j : nat) :
  shape S n n -> (2 <= i < n)%nat -> (2 <= j < n)%nat ->
  let G := motion_jacobian n v delta_t theta in
  get (dot (dot G S) (transpose G)) i j = get S i j.
Proof.
  intros HS Hi Hj G.
  assert (HG : shape G n n) by apply shape_motion_jacobian.
  rewrite (get_congruence _ _ n n) by (auto; lia).
  rewrite (sum_n_ext _ (fun k => get S i k * (if Nat.eqb k j then 1 else 0))).
  - exact (sum_n_delta_r j (fun k => get S i k) n (proj2 Hj)).
  - intros k Hk.
    rewrite (sum_n_ext _ (fun l => (if Nat.eqb i l then 1 else 0)
                                   * (get S l k * get G j k))).
    + rewrite (sum_n_delta i (fun l => get S l k * get G j k) n (proj2 Hi)).
      unfold G. rewrite get_motion_jacobian_low by lia.
      unfold identity. rewrite get_mk by lia. now rewrite (Nat.eqb_sym k j).
    + intros l Hl. unfold G. rewrite get_motion_jacobian_low by lia.
      unfold identity. rewrite get_mk by lia. ring.
Qed.

(** X5.  A motion event, skipped or applied, leaves the landmarks alone: the
    landmark entries of the current state, the flags, and every covariance
    entry outside the rows and columns of x and y other than the variance of
    the heading (so the whole landmark block and its covariances with the
    heading) are as before. *)
Theorem motion_update_keeps_landmarks (st : ekf) (control : row) :
  well_formed st ->
  let st' := final (motion_update st control) in
  (forall k, (3 <= k)%nat ->
     get1 (last1 (states st')) k = get1 (last1 (states st)) k)
  /\ landmark_observed st' = landmark_observed st
  /\ (forall i j, (2 <= i)%nat -> (2 <= j)%nat -> (i <> 2 \/ j <> 2)%nat ->
        get (sigma st') i j = get (sigma st) i j).
Proof.
  intros Hwf st'. unfold st'.
  destruct (Rlt_dec (c0 control - last_timestamp st) 0.001) as [Hd|Hd].
  - unfold motion_update. destruct (Rlt_dec _ _); [|contradiction].
    repeat split.
  - split; [|split; [now rewrite (motion_update_moved st control Hd)|]].
    + intros k Hk. rewrite (motion_update_moved st control Hd).
      unfold final, set_motion; cbn [states]. rewrite last1_app.
      unfold get1. rewrite !nth_set1_neq by lia. reflexivity.
    + intros i j Hi Hj Hij.
      pose proof (wf_sigma st Hwf) as Hs.
      rewrite (motion_update_covariance st control i j Hd Hs).
      assert (Hb : Nat.eqb i j && Nat.ltb i 3 = false).
      { destruct (Nat.eqb_spec i j) as [->|]; [|reflexivity].
        apply Nat.ltb_ge. lia. }
      rewrite Hb.
      destruct (Nat.lt_ge_cases i (dim st)) as [Hi'|Hi'];
        [destruct (Nat.lt_ge_cases j (dim st)) as [Hj'|Hj']|].
      * now apply get_prediction_low.
      * rewrite (get_out (sigma st) _ _ i j Hs) by lia.
        apply (get_out _ (dim st) (dim st)); [|lia].
        apply (shape_congruence _ _ (dim st) (dim st));
          auto using shape_motion_jacobian, dim_pos.
      * rewrite (get_out (sigma st) _ _ i j Hs) by lia.
        apply (get_out _ (dim st) (dim st)); [|lia].
        apply (shape_congruence _ _ (dim st) (dim st));
          auto using shape_motion_jacobian, dim_pos.
Qed.

Lemma motion_update_keeps_landmarks_witness :
  (forall k, (3 <= k)%nat ->
     get1 (last1 (states (final (motion_update start (Row 1 (-1) 1 0.5))))) k
     = get1 (last1 (states start)) k)
  /\ landmark_observed (final (motion_update start (Row 1 (-1) 1 0.5)))
     = landmark_observed start
  /\ (forall i j, (2 <= i)%nat -> (2 <= j)%nat -> (i <> 2 \/ j <> 2)%nat ->
        get (sigma (final (motion_update start (Row 1 (-1) 1 0.5)))) i j
        = get (sigma start) i j).
Proof.
  apply (motion_update_keeps_landmarks start (Row 1 (-1) 1 0.5)).
  apply well_formed_initialization.
Defined.

Lemma wrap_once_same_angle (t : R) :
  cos (wrap_once t) = cos t /\ sin (wrap_once t) = sin t.
Proof.
  unfold wrap_once.
  destruct (Rgt_dec t PI); [|destruct (Rlt_dec t (- PI))].
  - rewrite cos_minus, sin_minus, cos_2PI, sin_2PI. split; ring.
  - rewrite cos_plus, sin_plus, cos_2PI, sin_2PI. split; ring.
  - split; reflexivity.
Qed.

(** X6.  An applied motion event moves the pose by dead reckoning: x and y
    advance by [v * delta_t] along the old heading (so the distance covered
    is [|v| * delta_t]), and the new heading is the same angle as
    [theta + w * delta_t], whatever the wrap did. *)
Theorem motion_update_dead_reckoning (st : ekf) (control : row) :
  let delta_t := c0 control - last_timestamp st in
  let cur := last1 (states st) in
  let new := last1 (states (final (motion_update st control))) in
  ~ delta_t < 0.001 ->
  (2 < length cur)%nat ->
  get1 new 0 = get1 cur 0 + c2 control * cos (get1 cur 2) * delta_t
  /\ get1 new 1 = get1 cur 1 + c2 control * sin (get1 cur 2) * delta_t
  /\ cos (get1 new 2) = cos (get1 cur 2 + c3 control * delta_t)
  /\ sin (get1 new 2) = sin (get1 cur 2 + c3 control * delta_t)
  /\ (get1 new 0 - get1 cur 0) ^ 2 + (get1 new 1 - get1 cur 1) ^ 2
     = (c2 control * delta_t) ^ 2.
Proof.
  intros delta_t cur new Hd Hlen.
  assert (H0 : get1 new 0 = get1 cur 0 + c2 control * cos (get1 cur 2) * delta_t).
  { unfold new. rewrite (motion_update_moved st control Hd).
    unfold final, set_motion; cbn [states]. rewrite last1_app. unfold get1.
    rewrite !nth_set1_neq by lia. apply nth_set1_eq. fold cur. lia. }
  assert (H1 : get1 new 1 = get1 cur 1 + c2 control * sin (get1 cur 2) * delta_t).
  { unfold new. rewrite (motion_update_moved st control Hd).
    unfold final, set_motion; cbn [states]. rewrite last1_app. unfold get1.
    rewrite nth_set1_neq by lia. apply nth_set1_eq.
    rewrite length_set1. fold cur. lia. }
  assert (H2 : get1 new 2 = wrap_once (get1 cur 2 + c3 control * delta_t)).
  { unfold new. rewrite (motion_update_moved st control Hd).
    unfold final, set_motion; cbn [states]. rewrite last1_app. unfold get1.
    apply nth_set1_eq. rewrite !length_set1. fold cur. lia. }
  destruct (wrap_once_same_angle (get1 cur 2 + c3 control * delta_t)) as [Hc Hs].
  split; [exact H0|]. split; [exact H1|].
  split; [now rewrite H2|]. split; [now rewrite H2|].
  rewrite H0, H1.
  pose proof (sin2_cos2 (get1 cur 2)) as Hsc. unfold Rsqr in Hsc.
  replace ((get1 cur 0 + c2 control * cos (get1 cur 2) * delta_t - get1 cur 0) ^ 2
           + (get1 cur 1 + c2 control * sin (get1 cur 2) * delta_t - get1 cur 1) ^ 2)
    with ((c2 control * delta_t) ^ 2
          * (sin (get1 cur 2) * sin (get1 cur 2) + cos (get1 cur 2) * cos (get1 cur 2)))
    by ring.
  rewrite Hsc. ring.
Qed.

Lemma motion_update_dead_reckoning_witness :
  let control := Row 1 (-1) 1 0.5 in
  let delta_t := c0 control - last_timestamp start in
  let cur := last1 (states start) in
  let new := last1 (states (final (motion_update start control))) in
  get1 new 0 = get1 cur 0 + c2 control * cos (get1 cur 2) * delta_t
  /\ get1 new 1 = get1 cur 1 + c2 control * sin (get1 cur 2) * delta_t
  /\ cos (get1 new 2) = cos (get1 cur 2 + c3 control * delta_t)
  /\ sin (get1 new 2) = sin (get1 cur 2 + c3 control * delta_t)
  /\ (get1 new 0 - get1 cur 0) ^ 2 + (get1 new 1 - get1 cur 1) ^ 2
     = (c2 control * delta_t) ^ 2.
Proof.
  apply (motion_update_dead_reckoning start (Row 1 (-1) 1 0.5)).
  - simpl. lra.
  - simpl. lia.
Defined.

End Pose.

(** ** The observation model *)

Module Observation.
Import NumPy NumPyFacts EKF EKFFacts Invariants Scenario.

Lemma get_set2_of (M : mat) (n m i j a b : nat) (x : R) :
  shape M n m -> (i < n)%nat -> (j < m)%nat ->
  get (set2 M i j x) a b = if Nat.eqb a i && Nat.eqb b j then x else get M a b.
Proof.
  intros HM Hi Hj.
  destruct (Nat.eqb_spec a i) as [->|Ha]; [destruct (Nat.eqb_spec b j) as [->|Hb]|]; simpl.
  - apply get_set2_eq; [destruct HM; lia|]. now rewrite (shape_row M n m).
  - now rewrite get_set2_neq by auto.
  - now rewrite get_set2_neq by auto.
Qed.

(** [F_x] has a one in row [l] at the column that the [l]-th of
    x, y, theta, x_l, y_l has in the state, and zeros elsewhere. *)
Lemma get_F_x (n i l k : nat) :
  (2 * i + 2 < n)%nat -> (l < 5)%nat -> (k < n)%nat ->
  get (F_x n i) l k
  = if Nat.eqb k (nth l [0; 1; 2; 2 * i + 1; 2 * i + 2]%nat 0%nat) then 1 else 0.
Proof.
  intros Hn Hl Hk. unfold F_x.
  assert (H0 : shape (zeros 5 n) 5 n) by apply shape_mk.
  rewrite (get_set2_of _ 5 n) by (repeat apply shape_set2; auto; lia).
  rewrite (get_set2_of _ 5 n) by (repeat apply shape_set2; auto; lia).
  rewrite (get_set2_of _ 5 n) by (repeat apply shape_set2; auto; lia).
  rewrite (get_set2_of _ 5 n) by (repeat apply shape_set2; auto; lia).
  rewrite (get_set2_of _ 5 n) by (auto; lia).
  unfold zeros. rewrite get_mk by assumption.
  destruct l as [|[|[|[|[|l]]]]]; try lia; cbn [Nat.eqb andb nth];
    now destruct (Nat.eqb k _).
Qed.

Lemma get_jacobian (n i : nat) (dx dy : R) (a k : nat) :
  (2 * i + 2 < n)%nat -> (a < 3)%nat -> (k < n)%nat ->
  let q := dx ^ 2 + dy ^ 2 in
  let A := [[- dx / sqrt q; - dy / sqrt q; 0; dx / sqrt q; dy / sqrt q];
            [dy / q; - dx / q; -1; - dy / q; dx / q];
            [0; 0; 0; 0; 0]] in
  get (jacobian n i dx dy) a k
  = sum_n (fun l => get A a l
                    * (if Nat.eqb k (nth l [0; 1; 2; 2 * i + 1; 2 * i + 2]%nat 0%nat)
                       then 1 else 0)) 5.
Proof.
  intros Hn Ha Hk q A. unfold jacobian. fold q. fold A.
  rewrite get_dot.
  - change (cols A) with 5%nat. apply sum_n_ext. intros l Hl.
    now rewrite get_F_x.
  - exact Ha.
  - now rewrite (shape_cols _ 5 n (shape_F_x n i)) by lia.
Qed.

Ltac decide_columns :=
  repeat match goal with
         | |- context [Nat.eqb ?x ?y] => destruct (Nat.eqb_spec x y); try lia
         end.

(** X7.  The Jacobian [H] that data association builds for slot [i] is the
    range and bearing linearization placed by [F_x]: its first row is
    [(-dx, -dy, 0, dx, dy) / sqrt q] and its second
    [(dy / q, -dx / q, -1, -dy / q, dx / q)] in the columns of x, y, theta
    and of the slot's two coordinates, its third row is zero, and so is every other
    column (the other landmarks). *)
Theorem jacobian_entries (n i : nat) (dx dy : R) :
  (1 <= i)%nat -> (2 * i + 2 < n)%nat ->
  let q := dx ^ 2 + dy ^ 2 in
  let H := jacobian n i dx dy in
  (get H 0 0 = - dx / sqrt q /\ get H 0 1 = - dy / sqrt q /\ get H 0 2 = 0
   /\ get H 0 (2 * i + 1) = dx / sqrt q /\ get H 0 (2 * i + 2) = dy / sqrt q)
  /\ (get H 1 0 = dy / q /\ get H 1 1 = - dx / q /\ get H 1 2 = -1
      /\ get H 1 (2 * i + 1) = - dy / q /\ get H 1 (2 * i + 2) = dx / q)
  /\ (forall k, get H 2 k = 0)
  /\ (forall a k, k <> 0%nat -> k <> 1%nat -> k <> 2%nat ->
        k <> (2 * i + 1)%nat -> k <> (2 * i + 2)%nat -> get H a k = 0).
Proof.
  intros Hi Hn q H. unfold H.
  repeat split;
    try (rewrite get_jacobian by lia; cbn [sum_n get nth]; fold q;
         decide_columns; unfold Rdiv; ring).
  - intros k. apply get_jacobian_row2.
  - intros a k H0 H1 H2 H3 H4.
    destruct (Nat.lt_ge_cases a 3) as [Ha|Ha];
      [destruct (Nat.lt_ge_cases k n) as [Hk|Hk]|].
    + rewrite get_jacobian by lia. cbn [sum_n nth].
      decide_columns. ring.
    + apply (get_out _ 3 n); [apply shape_jacobian|lia].
    + apply (get_out _ 3 n); [apply shape_jacobian|lia].
Qed.

Lemma jacobian_entries_witness :
  let dx := 3 in
  let dy := 4 in
  let q := dx ^ 2 + dy ^ 2 in
  let H := jacobian 5 1 dx dy in
  (get H 0 0 = - dx / sqrt q /\ get H 0 1 = - dy / sqrt q /\ get H 0 2 = 0
   /\ get H 0 (2 * 1 + 1) = dx / sqrt q /\ get H 0 (2 * 1 + 2) = dy / sqrt q)
  /\ (get H 1 0 = dy / q /\ get H 1 1 = - dx / q /\ get H 1 2 = -1
      /\ get H 1 (2 * 1 + 1) = - dy / q /\ get H 1 (2 * 1 + 2) = dx / q)
  /\ (forall k, get H 2 k = 0)
  /\ (forall a k, k <> 0%nat -> k <> 1%nat -> k <> 2%nat ->
        k <> (2 * 1 + 1)%nat -> k <> (2 * 1 + 2)%nat -> get H a k = 0).
Proof. apply (jacobian_entries 5 1 3 4); lia. Defined.

Ltac decide_order :=
  repeat match goal with
         | |- context [Rlt_dec ?a ?b] => destruct (Rlt_dec a b); try (exfalso; nra)
         | |- context [Rle_dec ?a ?b] => destruct (Rle_dec a b); try (exfalso; nra)
         end.

(** [np.arctan2] gives back the angle of a point in polar form. *)
Lemma arctan2_polar (r phi : R) :
  0 < r -> - PI < phi <= PI -> arctan2 (r * sin phi) (r * cos phi) = phi.
Proof.
  intros Hr Hphi. pose proof PI_RGT_0 as Hpi. unfold arctan2.
  destruct (Rtotal_order phi (- (PI / 2))) as [Hlo|[Hlo|Hlo]].
  - (* -pi < phi < -pi/2 *)
    assert (Hc : cos phi < 0).
    { rewrite <- cos_neg. apply cos_lt_0; lra. }
    assert (Hs : sin phi < 0) by (apply sin_lt_0_var; lra).
    assert (Ht : r * sin phi / (r * cos phi) = tan (phi + PI)).
    { unfold tan. rewrite neg_sin, neg_cos. field. split; lra. }
    decide_order. rewrite Ht, atan_tan by lra. ring.
  - (* phi = -pi/2 *)
    subst phi. rewrite cos_neg, cos_PI2, sin_neg, sin_PI2.
    decide_order. reflexivity.
  - destruct (Rtotal_order phi (PI / 2)) as [Hhi|[Hhi|Hhi]].
    + (* -pi/2 < phi < pi/2 *)
      assert (Hc : 0 < cos phi) by (apply cos_gt_0; lra).
      assert (Ht : r * sin phi / (r * cos phi) = tan phi).
      { unfold tan. field. split; lra. }
      decide_order. rewrite Ht. apply atan_tan. lra.
    + (* phi = pi/2 *)
      subst phi. rewrite cos_PI2, sin_PI2.
      decide_order. reflexivity.
    + (* pi/2 < phi <= pi *)
      assert (Hc : cos phi < 0) by (apply cos_lt_0; lra).
      assert (Hs : 0 <= sin phi) by (apply sin_ge_0; lra).
      assert (Hs' : sin phi = - sin (phi - PI)).
      { replace phi with (phi - PI + PI) at 1 by ring. apply neg_sin. }
      assert (Hc' : cos phi = - cos (phi - PI)).
      { replace phi with (phi - PI + PI) at 1 by ring. apply neg_cos. }
      assert (Ht : r * sin phi / (r * cos phi) = tan (phi - PI)).
      { unfold tan. rewrite Hs', Hc'. field. split; lra. }
      decide_order. rewrite Ht, atan_tan by lra. ring.
Qed.

Lemma mahalanobis_of_zero (c : candidate) (Pi : R) :
  (forall k, get1 (cand_difference c) k = 0) -> mahalanobis c = Some Pi -> Pi = 0.
Proof.
  intros Hd. unfold mahalanobis. destruct (inv (cand_Psi c)) as [Pinv|]; [|discriminate].
  intros [= <-]. unfold dot_vv.
  rewrite (sum_n_ext _ (fun _ => 0)); [apply sum_n_zero|].
  intros k _. rewrite Hd. ring.
Qed.

(** X8.  In exact arithmetic (no rounding, no overflow) a first sighting is
    an exact match of itself.  When a tracked landmark is seen for the first
    time at a positive range and the bearing plus the heading lies in
    [(-pi, pi]], the landmark just initialized has a zero innovation for
    that very reading; so, when data association returns, it has kept a
    slot and the correction finds [H], [Psi] and [difference] assigned.
    (In float64 the innovation of such a reading is of the size of the
    rounding of [cos], [sin] and [arctan2], and a range whose square
    overflows leaves no slot kept.) *)
Theorem first_sight_is_exact (st : ekf) (m : row) (idx : nat) :
  let p := current_pose st in
  let seen := initialize_landmark st p m idx in
  lookup (landmark_indexes st) (c1 m) = Some idx ->
  nth_error (landmark_observed st) idx = Some false ->
  In idx (seq 1 (length (landmark_indexes st))) ->
  (2 * idx + 2 < length (last1 (states st)))%nat ->
  0 < c2 m ->
  - PI < c3 m + theta_t p <= PI ->
  (forall k, get1 (cand_difference (score seen p m idx)) k = 0)
  /\ (forall st', data_association st m = Ok st' -> association_present st').
Proof.
  intros p seen Hl Hobs Hin Hlen Hr Hphi.
  assert (Hidx : (1 <= idx)%nat) by (apply in_seq in Hin; lia).
  assert (Hzero : forall k, get1 (cand_difference (score seen p m idx)) k = 0).
  { set (r := c2 m). set (phi := c3 m + theta_t p).
    assert (Hx : get1 (last1 (states seen)) (2 * idx + 1) = x_t p + r * cos phi).
    { unfold seen, initialize_landmark; cbn [states set_landmark].
      rewrite !last1_set_last. unfold get1.
      rewrite nth_set1_neq by lia. apply nth_set1_eq. lia. }
    assert (Hy : get1 (last1 (states seen)) (2 * idx + 2) = y_t p + r * sin phi).
    { unfold seen, initialize_landmark; cbn [states set_landmark].
      rewrite !last1_set_last. unfold get1.
      apply nth_set1_eq. rewrite length_set1. lia. }
    intros k. cbn [score cand_difference]. rewrite Hx, Hy. fold r.
    replace (x_t p + r * cos phi - x_t p) with (r * cos phi) by ring.
    replace (y_t p + r * sin phi - y_t p) with (r * sin phi) by ring.
    rewrite arctan2_polar by assumption.
    replace ((r * cos phi) ^ 2 + (r * sin phi) ^ 2) with (r ^ 2).
    2:{ pose proof (sin2_cos2 phi) as Hsc. unfold Rsqr in Hsc.
        replace ((r * cos phi) ^ 2 + (r * sin phi) ^ 2)
          with (r ^ 2 * (sin phi * sin phi + cos phi * cos phi)) by ring.
        rewrite Hsc. ring. }
    rewrite sqrt_pow2 by (unfold r; lra).
    destruct k as [|[|[|k]]]; cbn [get1 nth]; unfold phi; try ring.
    now destruct k. }
  split; [exact Hzero|].
  intros st' Hda. unfold data_association in Hda. rewrite Hl, Hobs in Hda.
  fold p in Hda. fold seen in Hda.
  apply Association.association_loop_selects in Hda.
  destruct Hda as [[_ Hall]|(l1 & j & l2 & Pj & _ & _ & _ & _ & -> & _)].
  - exfalso. destruct (Hall idx Hin) as (Pi & HPi & Hge).
    + unfold seen, initialize_landmark; cbn [landmark_observed set_landmark].
      apply nth_error_set1_eq. apply nth_error_Some. congruence.
    + apply (mahalanobis_of_zero _ _ Hzero) in HPi. lra.
  - repeat split; discriminate.
Qed.

Lemma first_sight_is_exact_witness :
  let p := current_pose start in
  let seen := initialize_landmark start p sighting 1 in
  (forall k, get1 (cand_difference (score seen p sighting 1)) k = 0)
  /\ (forall st', data_association start sighting = Ok st' -> association_present st').
Proof.
  apply (first_sight_is_exact start sighting 1).
  - exact lookup_one_landmark.
  - reflexivity.
  - simpl. left. reflexivity.
  - simpl. lia.
  - simpl. lra.
  - simpl. unfold get1. simpl. pose proof PI_RGT_0. lra.
Defined.

End Observation.

(** ** Timestamps of a time-ordered run *)

Module Timeline.
Import NumPy NumPyFacts EKF EKFFacts Invariants Scenario.

Lemma process_stamps st d :
  (stamps (final (process st d)) = stamps st
   /\ last_timestamp (final (process st d)) = last_timestamp st)
  \/ (stamps (final (process st d)) = stamps st ++ [c0 d]
      /\ last_timestamp (final (process st d)) = c0 d).
Proof.
  destruct (Req_dec_T (c1 d) (-1)) as [Hc|Hc].
  - rewrite (process_motion st d Hc).
    destruct (motion_update_cases st d) as [[_ ->]|(x & s & _ & ->)]; simpl; auto.
  - destruct (data_association_frame st d) as (_ & Ht & Hs & _).
    destruct (process_measurement st d Hc) as [-> | ->]; [now left|].
    destruct (measurement_update_cases (final (data_association st d)) d)
      as [->|(x & s & _ & ->)]; simpl.
    + now left.
    + right. now rewrite Hs.
Qed.

Lemma time_ordered_weaken (t t' : R) (data : list row) :
  t' <= t -> time_ordered t data -> time_ordered t' data.
Proof.
  intros Ht. destruct data as [|d rest]; simpl; [auto|].
  intros [H1 H2]. split; [lra|assumption].
Qed.

Lemma nondecreasing_snoc (ts : list R) (a b : R) :
  Sorted Rle (ts ++ [a]) -> a <= b -> Sorted Rle ((ts ++ [a]) ++ [b]).
Proof.
  intros Hs Hab. induction ts as [|x ts IH]; simpl in *.
  - constructor; [repeat constructor|]. now constructor.
  - inversion Hs as [|? ? Hs' Hhd]; subst. constructor; [now apply IH|].
    destruct ts as [|y ts]; simpl in *; inversion Hhd; subst; now constructor.
Qed.

Lemma run_time_ordered data : forall st,
  (exists ts, stamps st = ts ++ [last_timestamp st]) ->
  Sorted Rle (stamps st) ->
  time_ordered (last_timestamp st) data ->
  Sorted Rle (stamps (final (run st data))).
Proof.
  induction data as [|d rest IH]; intros st Hts Hs Ho; simpl; [assumption|].
  destruct Ho as [Hle Ho].
  assert (Hp : (exists ts, stamps (final (process st d))
                           = ts ++ [last_timestamp (final (process st d))])
               /\ Sorted Rle (stamps (final (process st d)))
               /\ last_timestamp (final (process st d)) <= c0 d).
  { destruct (process_stamps st d) as [[-> ->]|[-> ->]].
    - auto.
    - split; [now exists (stamps st)|]. split; [|lra].
      destruct Hts as [ts Hts]. rewrite Hts in *. now apply nondecreasing_snoc. }
  destruct Hp as (H1 & H2 & H3).
  destruct (process st d) as [st1|e st1]; simpl in *; [|assumption].
  apply IH; auto. now apply (time_ordered_weaken (c0 d)).
Qed.

(** X9.  When the events are in time order and none is earlier than the
    initial ground truth time, the timestamps recorded with the history are
    in nondecreasing order at the end of the run, however it ends. *)
Theorem stamps_are_time_ordered indexes gt0 Rn Qn data :
  time_ordered (c0 gt0) data ->
  Sorted Rle (stamps (final (ExtendedKalmanFilterSLAM indexes gt0 Rn Qn data))).
Proof.
  intros Ho. apply run_time_ordered.
  - now exists [].
  - simpl. repeat constructor.
  - exact Ho.
Qed.

Lemma stamps_are_time_ordered_witness :
  Sorted Rle
    (stamps (final (ExtendedKalmanFilterSLAM one_landmark origin R_main Q_main
                      [first_reading; outlier]))).
Proof.
  apply (stamps_are_time_ordered one_landmark origin R_main Q_main
           [first_reading; outlier]).
  simpl. repeat split; lra.
Defined.

End Timeline.

(** ** Loading: the dict of landmarks and the slots it hands out *)

Module Loading.
Import NumPy NumPyFacts EKF EKFFacts Invariants Scenario Loader.

Lemma lookup_dict_set_eq (d : list (R * nat)) (key : R) (v : nat) :
  lookup (dict_set d key v) key = Some v.
Proof.
  induction d as [|[k w] rest IH]; simpl.
  - destruct (Req_dec_T key key) as [_|Hn]; [reflexivity|now elim Hn].
  - destruct (Req_dec_T key k) as [He|Hne]; simpl.
    + destruct (Req_dec_T key k) as [_|Hn]; [reflexivity|contradiction].
    + destruct (Req_dec_T key k) as [He|_]; [contradiction|exact IH].
Qed.

Lemma lookup_dict_set_neq (d : list (R * nat)) (key key' : R) (v : nat) :
  key' <> key -> lookup (dict_set d key v) key' = lookup d key'.
Proof.
  intros Hne. induction d as [|[k w] rest IH]; simpl.
  - destruct (Req_dec_T key' key) as [He|_]; [contradiction|reflexivity].
  - destruct (Req_dec_T key k) as [He|Hnk]; simpl.
    + subst k. destruct (Req_dec_T key' key) as [He|_]; [contradiction|reflexivity].
    + destruct (Req_dec_T key' k); [reflexivity|exact IH].
Qed.

Lemma length_dict_set (d : list (R * nat)) (key : R) (v : nat) :
  length (dict_set d key v)
  = match lookup d key with
    | Some _ => length d
    | None => S (length d)
    end.
Proof.
  induction d as [|[k w] rest IH]; simpl; [reflexivity|].
  destruct (Req_dec_T key k) as [He|Hne]; simpl; [reflexivity|].
  rewrite IH. now destruct (lookup rest key).
Qed.

Section Fill.
Variable barcodes_data : mat.

Let fill := fun (d : list (R * nat)) (i : nat) =>
              dict_set d (get barcodes_data i 1) (i - 4)%nat.

Lemma lookup_fill_some (rows : list nat) : forall d0 key idx,
  lookup (fold_left fill rows d0) key = Some idx ->
  lookup d0 key = Some idx
  \/ exists i, In i rows /\ get barcodes_data i 1 = key /\ idx = (i - 4)%nat.
Proof.
  induction rows as [|i rest IH]; intros d0 key idx Hl; simpl in Hl; [now left|].
  apply IH in Hl. destruct Hl as [Hl|(j & Hj & Hk & Hv)].
  - unfold fill in Hl.
    destruct (Req_dec_T key (get barcodes_data i 1)) as [->|Hne].
    + rewrite lookup_dict_set_eq in Hl. injection Hl as <-.
      right. exists i. repeat split. now left.
    + rewrite lookup_dict_set_neq in Hl by assumption. now left.
  - right. exists j. repeat split; auto. now right.
Qed.

Lemma lookup_fill_none (rows : list nat) : forall d0 key,
  lookup (fold_left fill rows d0) key = None <->
  lookup d0 key = None /\ forall i, In i rows -> get barcodes_data i 1 <> key.
Proof.
  induction rows as [|i rest IH]; intros d0 key; simpl.
  - split; [intros H; split; [assumption|intros i []]|tauto].
  - rewrite IH. unfold fill.
    destruct (Req_dec_T key (get barcodes_data i 1)) as [->|Hne].
    + rewrite lookup_dict_set_eq. split; [intros [H _]; discriminate|].
      intros [_ H]. exfalso. apply (H i); auto.
    + rewrite lookup_dict_set_neq by assumption. split.
      * intros [H1 H2]. split; [assumption|].
        intros j [<-|Hj]; [congruence|now apply H2].
      * intros [H1 H2]. split; [assumption|]. intros j Hj. apply H2. now right.
Qed.

Lemma length_fill_le (rows : list nat) : forall d0,
  (length (fold_left fill rows d0) <= length d0 + length rows)%nat.
Proof.
  induction rows as [|i rest IH]; intros d0; simpl; [lia|].
  specialize (IH (fill d0 i)).
  pose proof (length_dict_set d0 (get barcodes_data i 1) (i - 4)%nat) as Hd.
  change (dict_set d0 (get barcodes_data i 1) (i - 4)%nat) with (fill d0 i) in Hd.
  destruct (lookup d0 (get barcodes_data i 1)); lia.
Qed.

Lemma fill_distinct (rows : list nat) : forall d0,
  NoDup (map (fun i => get barcodes_data i 1) rows) ->
  (forall i, In i rows -> lookup d0 (get barcodes_data i 1) = None) ->
  length (fold_left fill rows d0) = (length d0 + length rows)%nat
  /\ forall i, In i rows ->
       lookup (fold_left fill rows d0) (get barcodes_data i 1) = Some (i - 4)%nat.
Proof.
  induction rows as [|i rest IH]; intros d0 Hnd Hfresh; simpl.
  - split; [lia|intros i []].
  - inversion Hnd as [|? ? Hnotin Hnd']; subst.
    destruct (IH (fill d0 i) Hnd') as [Hlen Hall].
    + intros j Hj. unfold fill. rewrite lookup_dict_set_neq.
      * apply Hfresh. now right.
      * intros He. apply Hnotin. rewrite <- He.
        now apply (in_map (fun i => get barcodes_data i 1)).
    + split.
      * rewrite Hlen.
        pose proof (length_dict_set d0 (get barcodes_data i 1) (i - 4)%nat) as Hd.
        change (dict_set d0 (get barcodes_data i 1) (i - 4)%nat)
          with (fill d0 i) in Hd.
        rewrite (Hfresh i) in Hd by now left. lia.
      * intros j [<-|Hj]; [|now apply Hall].
        destruct (lookup (fold_left fill rest (fill d0 i)) (get barcodes_data i 1))
          as [idx|] eqn:El.
        -- apply lookup_fill_some in El.
           destruct El as [El|(k & Hk & Hkey & _)].
           ++ unfold fill in El. rewrite lookup_dict_set_eq in El. now symmetry.
           ++ exfalso. apply Hnotin. rewrite <- Hkey.
              now apply (in_map (fun i => get barcodes_data i 1)).
        -- apply lookup_fill_none in El. destruct El as [El _].
           unfold fill in El. rewrite lookup_dict_set_eq in El. discriminate.
Qed.
End Fill.

Lemma built_slot_range (barcodes_data : mat) (key : R) (idx : nat) :
  lookup (build_landmark_indexes barcodes_data) key = Some idx ->
  (1 <= idx <= length barcodes_data - 5)%nat
  /\ get barcodes_data (idx + 4) 1 = key.
Proof.
  intros H. unfold build_landmark_indexes in H.
  apply lookup_fill_some in H. destruct H as [H|(i & Hi & Hk & ->)]; [discriminate|].
  apply in_seq in Hi. replace (i - 4 + 4)%nat with i by lia. split; [lia|exact Hk].
Qed.

(** X10.  The dict of landmarks built from the barcode table has at most
    one entry per row from row 5 on; a barcode is a key exactly when some
    such row carries it, and its slot [idx] is then the number of one of
    those rows less 4, so between 1 and the number of rows less 5. *)
Theorem landmark_indexes_built (barcodes_data : mat) :
  let d := build_landmark_indexes barcodes_data in
  (length d <= length barcodes_data - 5)%nat
  /\ (forall key idx, lookup d key = Some idx ->
        (1 <= idx <= length barcodes_data - 5)%nat
        /\ get barcodes_data (idx + 4) 1 = key)
  /\ (forall key, lookup d key = None <->
        forall i, (5 <= i < length barcodes_data)%nat ->
                  get barcodes_data i 1 <> key).
Proof.
  intros d. unfold d, build_landmark_indexes. repeat split.
  - pose proof (length_fill_le barcodes_data
                  (seq 5 (length barcodes_data - 5)) []) as Hl.
    rewrite length_seq in Hl. exact Hl.
  - now apply (built_slot_range barcodes_data key idx).
  - now apply (built_slot_range barcodes_data key idx).
  - now apply (built_slot_range barcodes_data key idx).
  - intros Hn i Hi. apply lookup_fill_none in Hn. destruct Hn as [_ Hn].
    apply Hn. apply in_seq. lia.
  - intros Hall. apply lookup_fill_none. split; [reflexivity|].
    intros i Hi. apply in_seq in Hi. apply Hall. lia.
Qed.

(** X11.  When the barcodes of the rows from row 5 on are pairwise
    different, the dict has one entry per row, row [i] has slot [i - 4], and
    every slot is between 1 and the number of landmarks: the slots are
    exactly 1 .. L. *)
Theorem landmark_indexes_of_distinct_barcodes (barcodes_data : mat) :
  NoDup (map (fun i => get barcodes_data i 1) (seq 5 (length barcodes_data - 5))) ->
  let d := build_landmark_indexes barcodes_data in
  length d = (length barcodes_data - 5)%nat
  /\ (forall i, (5 <= i < length barcodes_data)%nat ->
        lookup d (get barcodes_data i 1) = Some (i - 4)%nat)
  /\ (forall key idx, lookup d key = Some idx -> (1 <= idx <= length d)%nat).
Proof.
  intros Hnd d.
  destruct (fill_distinct barcodes_data (seq 5 (length barcodes_data - 5)) [] Hnd)
    as [Hlen Hall]; [reflexivity|].
  rewrite length_seq in Hlen. simpl in Hlen.
  split; [exact Hlen|]. split.
  - intros i Hi. apply (Hall i). apply in_seq. lia.
  - intros key idx Hl. apply built_slot_range in Hl.
    unfold d, build_landmark_indexes. rewrite Hlen. apply Hl.
Qed.

Lemma barcode_table_distinct :
  NoDup (map (fun i => get barcode_table i 1) (seq 5 (length barcode_table - 5))).
Proof.
  simpl. constructor; [|constructor; [intros []|constructor]].
  intros [H|[]]. unfold get in H. simpl in H. lra.
Qed.

Lemma landmark_indexes_of_distinct_barcodes_witness :
  let d := build_landmark_indexes barcode_table in
  length d = (length barcode_table - 5)%nat
  /\ (forall i, (5 <= i < length barcode_table)%nat ->
        lookup d (get barcode_table i 1) = Some (i - 4)%nat)
  /\ (forall key idx, lookup d key = Some idx -> (1 <= idx <= length d)%nat).
Proof.
  apply (landmark_indexes_of_distinct_barcodes barcode_table).
  exact barcode_table_distinct.
Defined.

Lemma distinct_barcodes_slots_in_range (barcodes_data : mat) :
  NoDup (map (fun i => get barcodes_data i 1) (seq 5 (length barcodes_data - 5))) ->
  slots_in_range (build_landmark_indexes barcodes_data).
Proof.
  intros Hnd key idx Hl.
  destruct (fill_distinct barcodes_data (seq 5 (length barcodes_data - 5)) [] Hnd)
    as [Hlen _]; [reflexivity|].
  rewrite length_seq in Hlen. simpl in Hlen.
  apply built_slot_range in Hl.
  unfold build_landmark_indexes. rewrite Hlen. lia.
Qed.

(** The loop of data association reads the flags of slots 1 .. L only. *)
Lemma association_loop_no_index_error slots p m : forall min_distance st,
  (forall i, In i slots -> (i < length (landmark_observed st))%nat) ->
  is_index_error (association_loop slots min_distance p m st) = false.
Proof.
  induction slots as [|i rest IH]; intros min_distance st Hin; simpl; [reflexivity|].
  destruct (nth_error (landmark_observed st) i) as [[|]|] eqn:Ho.
  - destruct (mahalanobis (score st p m i)) as [Pi|]; [|reflexivity].
    destruct (Rlt_dec Pi min_distance); apply IH; intros k Hk; apply Hin; now right.
  - apply IH. intros k Hk. apply Hin. now right.
  - exfalso. apply nth_error_None in Ho. specialize (Hin i (or_introl eq_refl)). lia.
Qed.

Lemma process_no_index_error st d :
  well_formed st -> slots_in_range (landmark_indexes st) ->
  is_index_error (process st d) = false.
Proof.
  intros Hwf Hin. unfold process.
  destruct (Req_dec_T (c1 d) (-1)) as [Hc|Hc].
  - destruct (motion_update_ok st d) as [x ->]. reflexivity.
  - assert (Hda : is_index_error (data_association st d) = false).
    { unfold data_association.
      destruct (lookup (landmark_indexes st) (c1 d)) as [idx|] eqn:Hl; [|reflexivity].
      pose proof (wf_observed st Hwf) as Hlen.
      destruct (nth_error (landmark_observed st) idx) as [seen|] eqn:Ho.
      - apply association_loop_no_index_error. intros i Hi. apply in_seq in Hi.
        destruct seen; [lia|].
        unfold initialize_landmark; cbn [landmark_observed set_landmark].
        rewrite length_set1. lia.
      - exfalso. apply nth_error_None in Ho. apply Hin in Hl. lia. }
    destruct (data_association st d) as [st1|e st1]; simpl; [|exact Hda].
    unfold measurement_update.
    destruct (lookup (landmark_indexes st1) (c1 d)); [|reflexivity].
    destruct (H_assoc st1); [|reflexivity].
    destruct (Psi st1); [|reflexivity].
    destruct (difference st1); [|reflexivity].
    destruct (inv _); reflexivity.
Qed.

(** X12.  When every slot of the dict of landmarks is at most the number of
    landmarks (as it is for a barcode table without repeated barcodes), no
    run raises [IndexError]: every flag and every state entry that the
    filter reads or writes exists. *)
Theorem no_index_error indexes gt0 Rn Qn data :
  slots_in_range indexes ->
  is_index_error (ExtendedKalmanFilterSLAM indexes gt0 Rn Qn data) = false.
Proof.
  intros Hin. unfold ExtendedKalmanFilterSLAM.
  assert (Hwf := well_formed_initialization indexes gt0 Rn Qn).
  assert (Hi : slots_in_range (landmark_indexes (initialization indexes gt0 Rn Qn)))
    by exact Hin.
  revert Hwf Hi. generalize (initialization indexes gt0 Rn Qn).
  induction data as [|d rest IH]; intros st Hwf Hi; simpl; [reflexivity|].
  pose proof (process_no_index_error st d Hwf Hi) as Hp.
  pose proof (well_formed_process st d Hwf) as Hw.
  pose proof (Runs.process_indexes st d) as Hx.
  destruct (process st d) as [st1|e st1]; simpl in *; [|exact Hp].
  apply IH; [assumption|]. now rewrite Hx.
Qed.

Lemma no_index_error_witness :
  is_index_error
    (ExtendedKalmanFilterSLAM (build_landmark_indexes barcode_table) origin
       R_main Q_main [Row 1 72 1 0; Row 2 27 3 0.5])
  = false.
Proof.
  apply (no_index_error (build_landmark_indexes barcode_table) origin R_main Q_main).
  apply distinct_barcodes_slots_in_range. exact barcode_table_distinct.
Defined.

Section Repeated.
Variable barcodes_data : mat.

Let key := fun i : nat => get barcodes_data i 1.
Let fill := fun (d : list (R * nat)) (i : nat) => dict_set d (key i) (i - 4)%nat.

Lemma fill_keeps_keys (d : list (R * nat)) (i : nat) (k : R) :
  lookup d k <> None -> lookup (fill d i) k <> None.
Proof.
  intros Hk. unfold fill. destruct (Req_dec_T k (key i)) as [->|Hne].
  - rewrite lookup_dict_set_eq. discriminate.
  - now rewrite lookup_dict_set_neq.
Qed.

Lemma fill_hit (rows : list nat) : forall d0,
  (exists j, In j rows /\ lookup d0 (key j) <> None) ->
  (length (fold_left fill rows d0) < length d0 + length rows)%nat.
Proof.
  induction rows as [|i rest IH]; intros d0 (j & Hj & Hk); [destruct Hj|].
  simpl.
  pose proof (length_dict_set d0 (key i) (i - 4)%nat) as Hd.
  change (dict_set d0 (key i) (i - 4)%nat) with (fill d0 i) in Hd.
  destruct Hj as [<-|Hj].
  - pose proof (length_fill_le barcodes_data rest (fill d0 i)) as Hle.
    change (fun (d : list (R * nat)) (i0 : nat) =>
              dict_set d (get barcodes_data i0 1) (i0 - 4)%nat) with fill in Hle.
    destruct (lookup d0 (key i)); [lia|now elim Hk].
  - assert (Hlt : (length (fold_left fill rest (fill d0 i))
                   < length (fill d0 i) + length rest)%nat).
    { apply IH. exists j. split; [assumption|]. now apply fill_keeps_keys. }
    destruct (lookup d0 (key i)); lia.
Qed.

Lemma fill_repeated (rows : list nat) : forall d0,
  ~ NoDup (map key rows) ->
  (length (fold_left fill rows d0) < length d0 + length rows)%nat.
Proof.
  induction rows as [|i rest IH]; intros d0 Hnd; [elim Hnd; constructor|].
  simpl.
  pose proof (length_dict_set d0 (key i) (i - 4)%nat) as Hd.
  change (dict_set d0 (key i) (i - 4)%nat) with (fill d0 i) in Hd.
  destruct (in_dec Req_dec_T (key i) (map key rest)) as [Hin|Hnin].
  - apply in_map_iff in Hin. destruct Hin as (j & Hkj & Hj).
    assert (Hlt : (length (fold_left fill rest (fill d0 i))
                   < length (fill d0 i) + length rest)%nat).
    { apply fill_hit. exists j. split; [assumption|].
      rewrite Hkj. unfold fill. rewrite lookup_dict_set_eq. discriminate. }
    destruct (lookup d0 (key i)); lia.
  - assert (Hlt : (length (fold_left fill rest (fill d0 i))
                   < length (fill d0 i) + length rest)%nat).
    { apply IH. intros Hnd'. apply Hnd. simpl. now constructor. }
    destruct (lookup d0 (key i)); lia.
Qed.
End Repeated.

(** X13.  A barcode table in which two landmark rows carry the same barcode
    gives a dict with fewer entries than landmark rows, while the last row
    keeps its slot, the number of landmark rows: that slot has no flag, and
    the first measurement of the last row's barcode raises [IndexError] in
    data association, before anything is assigned. *)
Theorem repeated_barcode_raises_index_error (barcodes_data : mat) (gt0 m : row)
        (Rn Qn : mat) :
  ~ NoDup (map (fun i => get barcodes_data i 1) (seq 5 (length barcodes_data - 5))) ->
  c1 m = get barcodes_data (length barcodes_data - 1) 1 ->
  let indexes := build_landmark_indexes barcodes_data in
  let st := initialization indexes gt0 Rn Qn in
  (length indexes < length barcodes_data - 5)%nat
  /\ lookup indexes (c1 m) = Some (length barcodes_data - 5)%nat
  /\ data_association st m = Raise IndexError st.
Proof.
  intros Hnd Hm indexes st.
  assert (Hlen : (length indexes < length barcodes_data - 5)%nat).
  { pose proof (fill_repeated barcodes_data (seq 5 (length barcodes_data - 5)) [] Hnd)
      as Hlt.
    rewrite length_seq in Hlt. exact Hlt. }
  assert (Hl : lookup indexes (c1 m) = Some (length barcodes_data - 5)%nat).
  { unfold indexes, build_landmark_indexes.
    destruct (length barcodes_data - 5)%nat as [|n] eqn:En; [lia|].
    rewrite seq_S, fold_left_app. simpl.
    replace (length barcodes_data - 1)%nat with (5 + n)%nat in Hm by lia.
    rewrite Hm, lookup_dict_set_eq. f_equal; lia. }
  split; [exact Hlen|]. split; [exact Hl|].
  unfold data_association.
  change (landmark_indexes st) with indexes. rewrite Hl.
  assert (Ho : nth_error (landmark_observed st) (length barcodes_data - 5) = None).
  { apply nth_error_None. unfold st, initialization; cbn [landmark_observed].
    rewrite repeat_length. lia. }
  now rewrite Ho.
Qed.

Lemma repeated_barcode_raises_index_error_witness :
  let indexes := build_landmark_indexes barcode_table_repeated in
  let st := initialization indexes origin R_main Q_main in
  (length indexes < length barcode_table_repeated - 5)%nat
  /\ lookup indexes (c1 (Row 1 72 1 0)) = Some (length barcode_table_repeated - 5)%nat
  /\ data_association st (Row 1 72 1 0) = Raise IndexError st.
Proof.
  apply (repeated_barcode_raises_index_error barcode_table_repeated origin
           (Row 1 72 1 0) R_main Q_main).
  - simpl. intros H. inversion H as [|? ? Hnin _]; subst. apply Hnin. now left.
  - reflexivity.
Defined.

End Loading.

(** ** Loading: the selection of frames and of the ground truth *)

Module Frames.
Import NumPy NumPyFacts EKF EKFFacts Scenario Loader.

(** The loop that looks for the first odometry row stops before its fuel is
    spent: [None] means that no row from [start_frame] on is an odometry
    row. *)
Lemma first_control_spec (fuel : nat) (data : list row) : forall start_frame,
  (length data <= fuel + start_frame)%nat ->
  match first_control fuel data start_frame with
  | Some k =>
      (start_frame <= k)%nat
      /\ (exists d, nth_error data k = Some d /\ c1 d = -1)
      /\ (forall j d, (start_frame <= j < k)%nat ->
            nth_error data j = Some d -> c1 d <> -1)
  | None =>
      forall j d, (start_frame <= j)%nat -> nth_error data j = Some d -> c1 d <> -1
  end.
Proof.
  induction fuel as [|f IH]; intros sf Hlen; simpl.
  - destruct (nth_error data sf) as [d|] eqn:Ed.
    + exfalso. assert (nth_error data sf <> None) by congruence.
      apply nth_error_Some in H. lia.
    + intros j d Hj Hd. exfalso.
      assert (nth_error data j <> None) by congruence.
      apply nth_error_Some in H. apply nth_error_None in Ed. lia.
  - destruct (nth_error data sf) as [d|] eqn:Ed.
    + destruct (Req_dec_T (c1 d) (-1)) as [Hc|Hc].
      * split; [lia|]. split; [now exists d|]. intros j d' Hj. lia.
      * specialize (IH (S sf)). 
        destruct (first_control f data (S sf)) as [k|].
        -- destruct IH as (Hk & Hd & Hall); [lia|].
           split; [lia|]. split; [exact Hd|].
           intros j d' Hj Hd'. destruct (Nat.eq_dec j sf) as [->|Hne].
           ++ congruence.
           ++ apply (Hall j d'); [lia|assumption].
        -- intros j d' Hj Hd'. destruct (Nat.eq_dec j sf) as [->|Hne].
           ++ congruence.
           ++ apply (IH ltac:(lia) j d'); [lia|assumption].
    + intros j d Hj Hd. exfalso.
      assert (nth_error data j <> None) by congruence.
      apply nth_error_Some in H. apply nth_error_None in Ed. lia.
Qed.

(** X14.  The selection of frames.  It raises [IndexError] exactly when no
    row from [start_frame] on is an odometry row.  Otherwise it starts at
    the first odometry row [k] at or after [start_frame] and keeps the rows
    up to [end_frame]: when it is not empty its first row is an odometry
    row, and it is empty (so that reading its first timestamp raises)
    exactly when [end_frame <= k]. *)
Theorem select_frames_spec (data : list row) (start_frame end_frame : nat) :
  match select_frames data start_frame end_frame with
  | Some sel =>
      exists k,
        (start_frame <= k < length data)%nat
        /\ (forall j d, (start_frame <= j < k)%nat ->
              nth_error data j = Some d -> c1 d <> -1)
        /\ sel = firstn (end_frame - k) (skipn k data)
        /\ (forall d, hd_error sel = Some d -> c1 d = -1)
        /\ (frame_times sel = None <-> (end_frame <= k)%nat)
  | None =>
      forall j d, (start_frame <= j)%nat -> nth_error data j = Some d -> c1 d <> -1
  end.
Proof.
  unfold select_frames.
  pose proof (first_control_spec (length data) data start_frame ltac:(lia)) as Hs.
  destruct (first_control (length data) data start_frame) as [k|]; [|exact Hs].
  destruct Hs as (Hk & (d & Hd & Hc) & Hall).
  assert (Hlt : (k < length data)%nat) by (apply nth_error_Some; congruence).
  exists k. split; [lia|]. split; [exact Hall|]. split; [reflexivity|].
  assert (Hhd : hd_error (skipn k data) = Some d) by now rewrite hd_error_skipn.
  destruct (skipn k data) as [|d0 rest] eqn:Es; [discriminate|].
  injection Hhd as ->.
  destruct (end_frame - k)%nat as [|n] eqn:En; simpl.
  - split; [discriminate|]. split; [lia|reflexivity].
  - split; [now intros d' [= <-]|]. split; [discriminate|lia].
Qed.

(** The value of the loop variable after a scan of rows that are not
    empty: the index of the first row at or after [t], or of the last row
    when there is none. *)
Lemma scan_spec (t : R) (rows : list row) : forall i,
  rows <> [] ->
  exists k,
    scan rows t i = (i + k)%nat
    /\ (k < length rows)%nat
    /\ Forall (fun r => c0 r < t) (firstn k rows)
    /\ ((exists r, nth_error rows k = Some r /\ c0 r >= t)
        \/ (S k = length rows /\ Forall (fun r => c0 r < t) rows)).
Proof.
  induction rows as [|r rest IH]; intros i Hne; [congruence|].
  simpl. destruct (Rge_dec (c0 r) t) as [Hge|Hlt].
  - exists 0%nat. repeat split; [lia|simpl; lia|constructor|].
    left. exists r. split; [reflexivity|exact Hge].
  - assert (Hr : c0 r < t) by lra.
    destruct rest as [|r' rest'].
    + exists 0%nat. repeat split; [lia|simpl; lia|constructor|].
      right. split; [reflexivity|]. constructor; [exact Hr|constructor].
    + destruct (IH (S i) ltac:(discriminate)) as (k & Hk & Hlen & Hall & Hend).
      exists (S k). split; [rewrite Hk; lia|]. split; [simpl in *; lia|].
      split.
      * change (firstn (S k) (r :: r' :: rest')) with (r :: firstn k (r' :: rest')).
        constructor; assumption.
      * destruct Hend as [(r0 & Hr0 & Hge)|(Hlast & Hall')].
        -- left. exists r0. split; assumption.
        -- right. split; [simpl in *; lia|]. constructor; assumption.
Qed.

Lemma by_time_app (a b : list row) :
  by_time (a ++ b) ->
  by_time a /\ by_time b
  /\ (forall x y, In x a -> In y b -> c0 x <= c0 y).
Proof.
  unfold by_time. induction a as [|x a IH]; simpl; intros Hs.
  - split; [constructor|]. split; [exact Hs|]. intros x y [].
  - apply StronglySorted_inv in Hs. destruct Hs as [Hs Hx].
    destruct (IH Hs) as (Ha & Hb & Hab).
    rewrite Forall_app in Hx. destruct Hx as [Hxa Hxb].
    split; [constructor; assumption|]. split; [exact Hb|].
    intros x' y [<-|Hin] Hy.
    + rewrite Forall_forall in Hxb. now apply Hxb.
    + now apply Hab.
Qed.

Lemma filter_none {A : Type} (p : A -> bool) (l : list A) :
  Forall (fun x => p x = false) l -> filter p l = [].
Proof.
  induction 1 as [|x l Hx _ IH]; simpl; [reflexivity|]. now rewrite Hx.
Qed.

Lemma filter_all {A : Type} (p : A -> bool) (l : list A) :
  Forall (fun x => p x = true) l -> filter p l = l.
Proof.
  induction 1 as [|x l Hx _ IH]; simpl; [reflexivity|]. now rewrite Hx, IH.
Qed.

(** On rows in the order of their timestamps, the cut at a scan index
    separates the rows before [t] from the rows at or after [t]. *)
Lemma scan_found_split (t : R) (rows : list row) (k : nat) (r : row) :
  by_time rows ->
  nth_error rows k = Some r -> c0 r >= t ->
  Forall (fun x => t <= c0 x) (skipn k rows) /\ skipn k rows <> [].
Proof.
  intros Hs Hk Hge.
  assert (Hhd : hd_error (skipn k rows) = Some r) by now rewrite hd_error_skipn.
  rewrite <- (firstn_skipn k rows) in Hs.
  apply by_time_app in Hs. destruct Hs as (_ & Hb & _).
  destruct (skipn k rows) as [|r0 rest]; [discriminate|].
  injection Hhd as ->. split; [|discriminate].
  apply StronglySorted_inv in Hb. destruct Hb as [_ Hall].
  constructor; [lra|].
  rewrite Forall_forall in Hall |- *. intros x Hx. specialize (Hall x Hx).
  simpl in Hall. lra.
Qed.

Lemma in_range_below (ts te : R) (r : row) : c0 r < ts -> in_range ts te r = false.
Proof.
  intros H. unfold in_range. destruct (Rle_dec ts (c0 r)); [lra|reflexivity].
Qed.

Lemma in_range_above (ts te : R) (r : row) : te <= c0 r -> in_range ts te r = false.
Proof.
  intros H. unfold in_range. destruct (Rle_dec ts (c0 r)); [|reflexivity].
  destruct (Rlt_dec (c0 r) te); [lra|reflexivity].
Qed.

Lemma in_range_inside (ts te : R) (r : row) :
  ts <= c0 r -> c0 r < te -> in_range ts te r = true.
Proof.
  intros H1 H2. unfold in_range. destruct (Rle_dec ts (c0 r)); [|lra].
  destruct (Rlt_dec (c0 r) te); [reflexivity|lra].
Qed.

(** The first cut: the rows it keeps are before [end_timestamp], and the
    rows of the ground truth in the range, its last row apart, are among
    them. *)
Lemma first_cut (ts te : R) (gt : list row) :
  gt <> [] -> by_time gt ->
  let cut := firstn (scan gt te 0) gt in
  Forall (fun r => c0 r < te) cut
  /\ by_time cut
  /\ filter (in_range ts te) (removelast gt) = filter (in_range ts te) cut.
Proof.
  intros Hne Hs cut.
  destruct (scan_spec te gt 0%nat Hne) as (k & Hk & Hlen & Hall & Hend).
  simpl in Hk. subst cut. rewrite Hk.
  split; [exact Hall|]. split.
  { pose proof Hs as Hs'. rewrite <- (firstn_skipn k gt) in Hs'.
    now apply by_time_app in Hs'. }
  destruct Hend as [(r & Hr & Hge)|(Hlast & _)].
  - destruct (scan_found_split te gt k r Hs Hr Hge) as [Hrest Hne'].
    rewrite <- (firstn_skipn k gt) at 1.
    rewrite removelast_app by exact Hne'.
    rewrite filter_app.
    rewrite (filter_none (in_range ts te) (removelast (skipn k gt))).
    + now rewrite app_nil_r.
    + rewrite Forall_forall in Hrest |- *. intros x Hx.
      apply in_range_above. apply Hrest.
      destruct (skipn k gt) as [|y l] eqn:E; [contradiction|].
      rewrite (app_removelast_last y (l := y :: l)) by discriminate.
      apply in_or_app. now left.
  - rewrite removelast_firstn_len. f_equal. f_equal. lia.
Qed.

(** X15.  The cut of the ground truth to the time range of the data, on a
    ground truth in the order of its timestamps.  The last row is never
    kept.  When one of the other rows is in the range
    [start_timestamp <= t < end_timestamp], the result is exactly those
    rows; when none is, the result is empty or is one row from before
    [start_timestamp]. *)
Theorem trim_groundtruth_sorted (gt : list row) (ts te : R)
  (Hne : gt <> []) (Hs : by_time gt) :
  exists out,
    trim_groundtruth gt ts te = Some out
    /\ (length out < length gt)%nat
    /\ (filter (in_range ts te) (removelast gt) <> [] ->
        out = filter (in_range ts te) (removelast gt))
    /\ (filter (in_range ts te) (removelast gt) = [] ->
        out = [] \/ exists r, out = [r] /\ In r gt /\ c0 r < ts /\ c0 r < te).
Proof.
  destruct (first_cut ts te gt Hne Hs) as (Hall & Hcut & Hkept).
  destruct (scan_spec te gt 0%nat Hne) as (k & Hk & Hlen & _ & _).
  simpl in Hk. rewrite Hk in *.
  unfold trim_groundtruth. destruct gt as [|g0 gt0] eqn:Eg; [congruence|].
  rewrite <- Eg in *. cbv zeta. rewrite Hk. rewrite Hkept.
  assert (Hin : forall r, In r (firstn k gt) -> In r gt).
  { intros r Hr. rewrite <- (firstn_skipn k gt). apply in_or_app. now left. }
  assert (Hklen : (length (firstn k gt) <= k)%nat) by apply firstn_le_length.
  destruct (firstn k gt) as [|c cut0] eqn:Ec.
  - exists []. split; [now rewrite skipn_nil|]. split; [simpl; lia|].
    split; [intros H; now elim H|]. intros _. now left.
  - rewrite <- Ec in *.
    assert (Hcne : firstn k gt <> []) by (rewrite Ec; discriminate).
    destruct (scan_spec ts (firstn k gt) 0%nat Hcne) as (k' & Hk' & Hlen' & Hall' & Hend').
    simpl in Hk'. rewrite Hk'.
    exists (skipn k' (firstn k gt)). split; [reflexivity|].
    split; [rewrite length_skipn; lia|].
    destruct Hend' as [(r & Hr & Hge)|(Hlast & Hbelow)].
    + destruct (scan_found_split ts (firstn k gt) k' r Hcut Hr Hge) as [Hrest Hne'].
      assert (Hf : filter (in_range ts te) (firstn k gt) = skipn k' (firstn k gt)).
      { rewrite <- (firstn_skipn k' (firstn k gt)) at 1.
        rewrite filter_app.
        rewrite (filter_none (in_range ts te) (firstn k' (firstn k gt))).
        - simpl. apply filter_all.
          rewrite Forall_forall in Hrest, Hall |- *. intros x Hx.
          apply in_range_inside; [now apply Hrest|].
          apply Hall. rewrite <- (firstn_skipn k' (firstn k gt)).
          apply in_or_app. now right.
        - rewrite Forall_forall in Hall' |- *. intros x Hx.
          apply in_range_below. now apply Hall'. }
      rewrite Hf. split; [reflexivity|]. intros H. now elim Hne'.
    + assert (Hf : filter (in_range ts te) (firstn k gt) = []).
      { apply filter_none. rewrite Forall_forall in Hbelow |- *. intros x Hx.
        apply in_range_below. now apply Hbelow. }
      rewrite Hf. split; [intros H; now elim H|]. intros _. right.
      assert (Hlen1 : length (skipn k' (firstn k gt)) = 1%nat)
        by (rewrite length_skipn; lia).
      destruct (skipn k' (firstn k gt)) as [|r [|r' l]] eqn:Es; try discriminate.
      exists r. split; [reflexivity|].
      assert (Hr : In r (firstn k gt)).
      { rewrite <- (firstn_skipn k' (firstn k gt)). apply in_or_app. right.
        rewrite Es. now left. }
      rewrite Forall_forall in Hbelow, Hall.
      split; [now apply Hin|]. split; [now apply Hbelow|now apply Hall].
Qed.

Lemma trim_groundtruth_sorted_witness :
  exists out,
    trim_groundtruth groundtruth_sample 2 10 = Some out
    /\ (length out < length groundtruth_sample)%nat
    /\ (filter (in_range 2 10) (removelast groundtruth_sample) <> [] ->
        out = filter (in_range 2 10) (removelast groundtruth_sample))
    /\ (filter (in_range 2 10) (removelast groundtruth_sample) = [] ->
        out = [] \/ exists r, out = [r] /\ In r groundtruth_sample
                              /\ c0 r < 2 /\ c0 r < 10).
Proof.
  apply (trim_groundtruth_sorted groundtruth_sample 2 10).
  - discriminate.
  - unfold by_time, groundtruth_sample.
    repeat (constructor; simpl; try lra).
Defined.

End Frames.
